(** * csvdiff: key-based reconciliation of two delimited-text tables

    A shallow embedding of [csvdiff.go] (package [main]) and the properties of
    its reconciliation engine: the FNV-1a key hasher, the two pending-match
    caches, the row comparator [areEquals] with its delta encoder, and the
    streaming loop of [main] with its drain and exit status.

    Conventions of the embedding.
    - A [[]byte] is a [string] (a list of 8-bit characters); a [nil] byte slice
      and an empty one are the same value, as they are for the writer.
    - A [Row] that may be [nil] is an [option Row]; [len(nil) = 0].
    - [uint64] and [uint] are [Z] in [0, 2^64) with the wrap-around written out
      ([wrap64]); [int] is the 64-bit signed reading ([int_of_uint64],
      [wrap_int]).
    - A Go [map] is a [gmap]; the set-like [map[int]bool] of ignored fields is a
      [gset Z].  Go leaves the order of [range] over a map unspecified, the model
      visits the entries in the order of [elements] / [map_to_list]; no
      theorem below depends on that order.
    - [log.Fatalf] and a run-time panic end the run: they are the two
      constructors of [Abort], threaded through the error monad [Result].
    - The external reader and writer (package [yacr]) appear through their
      interface only: a reader is the sequence of tokens its [Scan] calls
      will deliver, the writer is the list of rows handed to [writeRow].
      Read and write faults of the operating system are not modelled. *)

From Stdlib Require Import ZArith String Ascii List Bool Lia Permutation.
From stdpp Require Import base option list gmap strings fin_maps.
Import ListNotations.

Local Open Scope string_scope.
Local Open Scope list_scope.
Local Open Scope Z_scope.

(** ** Machine integers *)

Definition two64 : Z := 18446744073709551616.
Definition two63 : Z := 9223372036854775808.

(** Arithmetic on [uint] / [uint64]. *)
Definition wrap64 (z : Z) : Z := z mod two64.

(** The conversion [int(u)] of a [uint64] on a 64-bit platform. *)
Definition int_of_uint64 (u : Z) : Z := if u <? two63 then u else u - two64.

(** Arithmetic on [int]. *)
Definition wrap_int (z : Z) : Z := (z + two63) mod two64 - two63.

(** ** Data model *)

Abbreviation Field := string (only parsing).
Abbreviation Row := (list string) (only parsing).
Abbreviation Keys := (list Z) (only parsing).
Abbreviation RowHash := Z (only parsing).

Record Config : Type := mkConfig {
  keys : Keys;
  ignoredFields : gset Z;
  noHeader : bool;
  sep : ascii;
  guess : bool;
  quoted : bool;
  format : Z;
  symbol : ascii;
  common : bool
}.

(** What [log.Fatalf] reports.  The constructor stands for the format string,
    its argument for the value printed:
    - ["Invalid field index (%v)\n"],
    - ["Key index %d out of range\n"],
    - ["Ignored field %d out of range\n"],
    - the usage faults of [parseArgs]. *)
Inductive Fatal : Type :=
| InvalidFieldIndex (v : string)
| KeyIndexOutOfRange (n : Z)
| IgnoredFieldOutOfRange (n : Z)
| SeparatorTooLong
| MissingKey.

Inductive Abort : Type :=
| LogFatal (e : Fatal)
| RuntimePanic.

Inductive Result (A : Type) : Type :=
| Ok (a : A)
| Err (e : Abort).
Arguments Ok {A} a.
Arguments Err {A} e.

Definition bind {A B : Type} (r : Result A) (k : A -> Result B) : Result B :=
  match r with
  | Ok a => k a
  | Err e => Err e
  end.

Notation "x <- r ;; k" := (bind r (fun x => k))
  (at level 100, r at next level, right associativity).

(** The length of a possibly-nil slice. *)
Definition rowLen (row : option Row) : Z :=
  match row with
  | None => 0
  | Some r => Z.of_nat (length r)
  end.

(** The elements of a possibly-nil slice. *)
Definition fieldsOf (row : option Row) : Row :=
  match row with
  | None => []
  | Some r => r
  end.

(** ** Command line: [atouis] (lines 45-57) and [parseArgs] (lines 60-121) *)

(** [strings.Split(s, ",")]. *)
Fixpoint Split (s : string) : list string :=
  match s with
  | EmptyString => [EmptyString]
  | String c s' =>
      if Ascii.eqb c ","%char then EmptyString :: Split s'
      else match Split s' with
           | x :: xs => String c x :: xs
           | [] => [String c EmptyString]
           end
  end.

(** [strconv.ParseUint(v, 10, 0)]: decimal digits only, no sign, not empty,
    value below [2^64]. *)
Fixpoint parseDigits (acc : Z) (s : string) : option Z :=
  match s with
  | EmptyString => Some acc
  | String c s' =>
      let d := Z.of_nat (nat_of_ascii c) - 48 in
      if (0 <=? d) && (d <=? 9) then
        let acc' := acc * 10 + d in
        if acc' <? two64 then parseDigits acc' s' else None
      else None
  end.

Definition ParseUint (v : string) : option Z :=
  match v with
  | EmptyString => None
  | _ => parseDigits 0 v
  end.

Fixpoint atouisValues (rawValues : list string) : Result (list Z) :=
  match rawValues with
  | [] => Ok []
  | v :: rest =>
      match ParseUint v with
      | None => Err (LogFatal (InvalidFieldIndex v))
      | Some f =>
          values <- atouisValues rest ;;
          Ok (wrap64 (f - 1) :: values)
      end
  end.

Definition atouis (s : string) : Result (list Z) := atouisValues (Split s).

(** The values of the flags after [flag.Parse], for a command line with
    exactly two file arguments.  [sVisited] says whether [-s] was given,
    [stdoutRegular] is the outcome of the test on [os.Stdout.Stat()]. *)
Record Flags : Type := mkFlags {
  flag_n : bool;
  flag_f : Z;
  flag_q : bool;
  flag_s : string;
  flag_k : string;
  flag_i : string;
  flag_c : bool;
  sVisited : bool;
  stdoutRegular : bool
}.

Definition parseArgs (fl : Flags) : Result Config :=
  sep' <- (if String.eqb (flag_s fl) "\t" then Ok (String (ascii_of_nat 9) EmptyString)
           else if (1 <? Z.of_nat (String.length (flag_s fl)))
                then Err (LogFatal SeparatorTooLong)
                else Ok (flag_s fl)) ;;
  keys' <- (if (0 <? Z.of_nat (String.length (flag_k fl))) then atouis (flag_k fl)
            else Err (LogFatal MissingKey)) ;;
  ignored <- (if (0 <? Z.of_nat (String.length (flag_i fl)))
              then values <- atouis (flag_i fl) ;;
                   Ok (list_to_set (map int_of_uint64 values) : gset Z)
              else Ok (∅ : gset Z)) ;;
  let f := if (flag_f fl =? 0) && stdoutRegular fl then 1 else flag_f fl in
  match sep' with
  | EmptyString => Err RuntimePanic
  | String c _ =>
      let symbol' := if Ascii.eqb c "|"%char then "!"%char else "|"%char in
      Ok {| keys := keys'; ignoredFields := ignored; noHeader := flag_n fl;
            sep := c; guess := negb (sVisited fl); quoted := flag_q fl;
            format := f; symbol := symbol'; common := flag_c fl |}
  end.

(** ** Key hasher: [hashRow] (lines 136-142) *)

(** [hash/fnv], 64-bit FNV-1a. *)
Definition offset64 : Z := 14695981039346656037.
Definition prime64 : Z := 1099511628211.

Definition fnvByte (h : Z) (c : ascii) : Z :=
  wrap64 (Z.lxor h (Z.of_nat (nat_of_ascii c)) * prime64).

Fixpoint fnvWrite (h : Z) (data : string) : Z :=
  match data with
  | EmptyString => h
  | String c data' => fnvWrite (fnvByte h c) data'
  end.

(** [row[i]] for a [uint64] index, with the bounds check of the run time. *)
Definition index (row : Row) (i : Z) : option Field :=
  if (0 <=? i) && (i <? Z.of_nat (length row)) then row !! Z.to_nat i else None.

(** The loop of [hashRow]; [row[i]] panics when [i] is not an index of [row]. *)
Fixpoint hashKeys (h : Z) (row : Row) (ks : Keys) : Result RowHash :=
  match ks with
  | [] => Ok h
  | i :: ks' =>
      match index row i with
      | Some field => hashKeys (fnvWrite h field) row ks'
      | None => Err RuntimePanic
      end
  end.

Definition hashRow (row : Row) (ks : Keys) : Result RowHash :=
  hashKeys offset64 row ks.

(** ** Range check of the configured indexes: [checkRow] (lines 123-134) *)

Definition keyOutOfRange (rowA rowB : option Row) (key : Z) : bool :=
  (rowLen rowA <=? int_of_uint64 key) || (rowLen rowB <=? int_of_uint64 key).

Definition fieldOutOfRange (rowA rowB : option Row) (field : Z) : bool :=
  (rowLen rowA <=? field) || (rowLen rowB <=? field).

Definition checkRow (rowA rowB : option Row) (config : Config) : Result unit :=
  match List.find (keyOutOfRange rowA rowB) (keys config) with
  | Some key => Err (LogFatal (KeyIndexOutOfRange (wrap64 (key + 1))))
  | None =>
      match List.find (fieldOutOfRange rowA rowB) (elements (ignoredFields config)) with
      | Some field => Err (LogFatal (IgnoredFieldOutOfRange (wrap_int (field + 1))))
      | None => Ok tt
      end
  end.

(** ** Row comparator and delta encoder (lines 146-226) *)

(** [update]: record position [i] in the tracking vector, when there is a
    vector and [i] is one of its positions. *)
Definition update (modifiedFields : option (list bool)) (i : nat) : option (list bool) :=
  match modifiedFields with
  | None => None
  | Some v => if (i <? length v)%nat then Some (<[i := true]> v) else Some v
  end.

Definition bold : string := String (ascii_of_nat 27) "[1m".
Definition unbold : string := String (ascii_of_nat 27) "[0m".
Definition newline : string := String (ascii_of_nat 10) EmptyString.

(** [concat]: the two-value encoding of a changed field. *)
Definition concat (valueA valueB : Field) (format : Z) (symbol : ascii) : Field :=
  if format =? 1 then
    String.append valueA
      (String.append (String symbol (String "-"%char (String symbol EmptyString))) valueB)
  else if format =? 2 then
    String.append valueA (String.append newline valueB)
  else
    String.append bold (String.append valueA (String.append unbold
      (String symbol (String.append bold (String.append valueB unbold))))).

(** [delta]: a row behind its marker. *)
Definition delta (row : Row) (sign : ascii) : Row :=
  String sign EmptyString :: row.

(** [make(Row, maxLen+1)] with the marker of a modification in slot 0. *)
Definition newDelta (maxLen : nat) : Row :=
  <[0%nat := "#"]> (replicate (S maxLen) EmptyString).

(** [copy(dst[off:], src)]; elements beyond the end of [dst] are dropped. *)
Fixpoint copyAt (dst : Row) (off : nat) (src : Row) : Row :=
  match src with
  | [] => dst
  | x :: src' => copyAt (<[off := x]> dst) (S off) src'
  end.

(** The variables [rowDelta], [same] and the tracking vector during a call of
    [areEquals].  [rowDelta] is [None] while the slice is [nil]. *)
Record Cmp : Type := mkCmp {
  rowDelta : option Row;
  same : bool;
  tracked : option (list bool)
}.

Definition isIgnored (config : Config) (i : nat) : bool :=
  bool_decide (Z.of_nat i ∈ ignoredFields config).

(** Body of the loop over the positions both rows have. *)
Definition compareField (rowA rowB : Row) (config : Config) (maxLen : nat)
    (acc : Cmp) (i : nat) : Cmp :=
  let a := nth i rowA EmptyString in
  let b := nth i rowB EmptyString in
  if negb (isIgnored config i) && negb (String.eqb a b) then
    let rd := if same acc
              then Some (copyAt (newDelta maxLen) 1 (take i rowA))
              else rowDelta acc in
    {| rowDelta := <[S i := concat a b (format config) (symbol config)]> <$> rd;
       same := false;
       tracked := update (tracked acc) i |}
  else if negb (same acc) then
    {| rowDelta := <[S i := a]> <$> rowDelta acc;
       same := same acc;
       tracked := tracked acc |}
  else acc.

(** Body of the loop over the positions only the longer row has. *)
Definition padField (rowA rowB : Row) (config : Config) (longest : Z)
    (acc : Cmp) (i : nat) : Cmp :=
  if isIgnored config i then acc
  else if longest =? 1 then
    {| rowDelta := <[S i := concat (nth i rowA EmptyString) "_"
                               (format config) (symbol config)]> <$> rowDelta acc;
       same := same acc;
       tracked := update (tracked acc) i |}
  else if longest =? 2 then
    {| rowDelta := <[S i := concat "_" (nth i rowB EmptyString)
                               (format config) (symbol config)]> <$> rowDelta acc;
       same := same acc;
       tracked := update (tracked acc) i |}
  else acc.

Definition areEqualsCmp (rowA rowB : Row) (config : Config)
    (modifiedFields : option (list bool)) : Cmp :=
  let lenA := length rowA in
  let lenB := length rowB in
  let '(maxLen, minLen, longest, same0) :=
    if (lenB <? lenA)%nat then (lenA, lenB, 1, false)
    else if (lenA <? lenB)%nat then (lenB, lenA, 2, false)
    else (lenB, lenA, 0, true) in
  let init := {| rowDelta := if same0 then None else Some (newDelta maxLen);
                 same := same0;
                 tracked := modifiedFields |} in
  let common := fold_left (compareField rowA rowB config maxLen) (seq 0 minLen) init in
  fold_left (padField rowA rowB config longest) (seq minLen (maxLen - minLen)) common.

(** [areEquals]: the delta row, the verdict, and the tracking vector as the
    call leaves it (the source updates it in place). *)
Definition areEquals (rowA rowB : Row) (config : Config)
    (modifiedFields : option (list bool)) : option Row * bool * option (list bool) :=
  let r := areEqualsCmp rowA rowB config modifiedFields in
  (rowDelta r, same r, tracked r).

(** ** Pending-match caches: [searchCache] (lines 228-235), [deepCopy] (lines 434-441) *)

Definition searchCache (cache : gmap Z Row) (key : RowHash)
    : option Row * bool * RowHash * gmap Z Row :=
  match cache !! key with
  | Some row => (Some row, true, key, delete key cache)
  | None => (None, false, 0, cache)
  end.

Definition deepCopy (row : Row) : Row :=
  map (fun field => string_of_list_ascii (list_ascii_of_string field)) row.

(** ** Reader: [readRow] (lines 385-409) *)

(** One successful [Scan]: the bytes of the field and [EndOfRecord]. *)
Abbreviation Token := (string * bool)%type (only parsing).
Abbreviation Reader := (list (string * bool)) (only parsing).

(** The scanning loop of [readRow]: the fields appended to [buffer], whether
    the stream ended, and the reader after it. *)
Fixpoint scanRecord (r : Reader) (buffer : Row) : Row * bool * Reader :=
  match r with
  | [] => (buffer, true, [])
  | (field, eor) :: r' =>
      if eor then (buffer ++ [field], false, r')
      else scanRecord r' (buffer ++ [field])
  end.

Definition readRow (r : Reader) (pEof : bool) : option Row * bool * Reader :=
  if pEof then (None, pEof, r)
  else
    let '(buffer, eof, r') := scanRecord r [] in
    match buffer with
    | [] => (None, eof, r')
    | _ => (Some buffer, eof, r')
    end.

(** ** The run: [main] (lines 237-383) *)

(** What goes to standard error. *)
Inductive Diag : Type :=
| DuplicateFirst (row : Row)
| DuplicateSecond (row : Row)
| Total (total removed added modified : Z)
| ModifiedFieldsLine (labels : list (option Field * Z)).

Record State : Type := mkState {
  readerA : Reader;
  readerB : Reader;
  cacheA : gmap Z Row;
  cacheB : gmap Z Row;
  headers : option Row;
  addedCount : Z;
  modifiedCount : Z;
  removedCount : Z;
  totalCount : Z;
  eofA : bool;
  eofB : bool;
  modifiedFields : option (list bool);
  first : bool;
  stdout : list Row;
  stderr : list Diag
}.

Definition set_readerA (v : Reader) (st : State) : State :=
  {| readerA := v; readerB := readerB st; cacheA := cacheA st;
     cacheB := cacheB st; headers := headers st; addedCount := addedCount st;
     modifiedCount := modifiedCount st; removedCount := removedCount st;
     totalCount := totalCount st; eofA := eofA st; eofB := eofB st;
     modifiedFields := modifiedFields st; first := first st;
     stdout := stdout st; stderr := stderr st |}.

Definition set_readerB (v : Reader) (st : State) : State :=
  {| readerA := readerA st; readerB := v; cacheA := cacheA st;
     cacheB := cacheB st; headers := headers st; addedCount := addedCount st;
     modifiedCount := modifiedCount st; removedCount := removedCount st;
     totalCount := totalCount st; eofA := eofA st; eofB := eofB st;
     modifiedFields := modifiedFields st; first := first st;
     stdout := stdout st; stderr := stderr st |}.

Definition set_cacheA (v : gmap Z Row) (st : State) : State :=
  {| readerA := readerA st; readerB := readerB st; cacheA := v;
     cacheB := cacheB st; headers := headers st; addedCount := addedCount st;
     modifiedCount := modifiedCount st; removedCount := removedCount st;
     totalCount := totalCount st; eofA := eofA st; eofB := eofB st;
     modifiedFields := modifiedFields st; first := first st;
     stdout := stdout st; stderr := stderr st |}.

Definition set_cacheB (v : gmap Z Row) (st : State) : State :=
  {| readerA := readerA st; readerB := readerB st; cacheA := cacheA st;
     cacheB := v; headers := headers st; addedCount := addedCount st;
     modifiedCount := modifiedCount st; removedCount := removedCount st;
     totalCount := totalCount st; eofA := eofA st; eofB := eofB st;
     modifiedFields := modifiedFields st; first := first st;
     stdout := stdout st; stderr := stderr st |}.

Definition set_headers (v : option Row) (st : State) : State :=
  {| readerA := readerA st; readerB := readerB st; cacheA := cacheA st;
     cacheB := cacheB st; headers := v; addedCount := addedCount st;
     modifiedCount := modifiedCount st; removedCount := removedCount st;
     totalCount := totalCount st; eofA := eofA st; eofB := eofB st;
     modifiedFields := modifiedFields st; first := first st;
     stdout := stdout st; stderr := stderr st |}.

Definition set_addedCount (v : Z) (st : State) : State :=
  {| readerA := readerA st; readerB := readerB st; cacheA := cacheA st;
     cacheB := cacheB st; headers := headers st; addedCount := v;
     modifiedCount := modifiedCount st; removedCount := removedCount st;
     totalCount := totalCount st; eofA := eofA st; eofB := eofB st;
     modifiedFields := modifiedFields st; first := first st;
     stdout := stdout st; stderr := stderr st |}.

Definition set_modifiedCount (v : Z) (st : State) : State :=
  {| readerA := readerA st; readerB := readerB st; cacheA := cacheA st;
     cacheB := cacheB st; headers := headers st; addedCount := addedCount st;
     modifiedCount := v; removedCount := removedCount st;
     totalCount := totalCount st; eofA := eofA st; eofB := eofB st;
     modifiedFields := modifiedFields st; first := first st;
     stdout := stdout st; stderr := stderr st |}.

Definition set_removedCount (v : Z) (st : State) : State :=
  {| readerA := readerA st; readerB := readerB st; cacheA := cacheA st;
     cacheB := cacheB st; headers := headers st; addedCount := addedCount st;
     modifiedCount := modifiedCount st; removedCount := v;
     totalCount := totalCount st; eofA := eofA st; eofB := eofB st;
     modifiedFields := modifiedFields st; first := first st;
     stdout := stdout st; stderr := stderr st |}.

Definition set_totalCount (v : Z) (st : State) : State :=
  {| readerA := readerA st; readerB := readerB st; cacheA := cacheA st;
     cacheB := cacheB st; headers := headers st; addedCount := addedCount st;
     modifiedCount := modifiedCount st; removedCount := removedCount st;
     totalCount := v; eofA := eofA st; eofB := eofB st;
     modifiedFields := modifiedFields st; first := first st;
     stdout := stdout st; stderr := stderr st |}.

Definition set_eofA (v : bool) (st : State) : State :=
  {| readerA := readerA st; readerB := readerB st; cacheA := cacheA st;
     cacheB := cacheB st; headers := headers st; addedCount := addedCount st;
     modifiedCount := modifiedCount st; removedCount := removedCount st;
     totalCount := totalCount st; eofA := v; eofB := eofB st;
     modifiedFields := modifiedFields st; first := first st;
     stdout := stdout st; stderr := stderr st |}.

Definition set_eofB (v : bool) (st : State) : State :=
  {| readerA := readerA st; readerB := readerB st; cacheA := cacheA st;
     cacheB := cacheB st; headers := headers st; addedCount := addedCount st;
     modifiedCount := modifiedCount st; removedCount := removedCount st;
     totalCount := totalCount st; eofA := eofA st; eofB := v;
     modifiedFields := modifiedFields st; first := first st;
     stdout := stdout st; stderr := stderr st |}.

Definition set_modifiedFields (v : option (list bool)) (st : State) : State :=
  {| readerA := readerA st; readerB := readerB st; cacheA := cacheA st;
     cacheB := cacheB st; headers := headers st; addedCount := addedCount st;
     modifiedCount := modifiedCount st; removedCount := removedCount st;
     totalCount := totalCount st; eofA := eofA st; eofB := eofB st;
     modifiedFields := v; first := first st; stdout := stdout st;
     stderr := stderr st |}.

Definition set_first (v : bool) (st : State) : State :=
  {| readerA := readerA st; readerB := readerB st; cacheA := cacheA st;
     cacheB := cacheB st; headers := headers st; addedCount := addedCount st;
     modifiedCount := modifiedCount st; removedCount := removedCount st;
     totalCount := totalCount st; eofA := eofA st; eofB := eofB st;
     modifiedFields := modifiedFields st; first := v; stdout := stdout st;
     stderr := stderr st |}.

Definition set_stdout (v : list Row) (st : State) : State :=
  {| readerA := readerA st; readerB := readerB st; cacheA := cacheA st;
     cacheB := cacheB st; headers := headers st; addedCount := addedCount st;
     modifiedCount := modifiedCount st; removedCount := removedCount st;
     totalCount := totalCount st; eofA := eofA st; eofB := eofB st;
     modifiedFields := modifiedFields st; first := first st; stdout := v;
     stderr := stderr st |}.

Definition set_stderr (v : list Diag) (st : State) : State :=
  {| readerA := readerA st; readerB := readerB st; cacheA := cacheA st;
     cacheB := cacheB st; headers := headers st; addedCount := addedCount st;
     modifiedCount := modifiedCount st; removedCount := removedCount st;
     totalCount := totalCount st; eofA := eofA st; eofB := eofB st;
     modifiedFields := modifiedFields st; first := first st;
     stdout := stdout st; stderr := v |}.

Definition incr (c : Z) : Z := wrap64 (c + 1).

Definition writeRow (row : Row) (st : State) : State :=
  set_stdout (stdout st ++ [row]) st.

Definition warn (d : Diag) (st : State) : State :=
  set_stderr (stderr st ++ [d]) st.

Definition countAdded (st : State) : State :=
  set_addedCount (incr (addedCount st)) st.

Definition countRemoved (st : State) : State :=
  set_removedCount (incr (removedCount st)) st.

Definition countModified (st : State) : State :=
  set_modifiedCount (incr (modifiedCount st)) st.

(** [make([]bool, n)]. *)
Definition makeBools (n : nat) : option (list bool) := Some (replicate n false).

(** The branch [hashA == hashB] of the loop (lines 296-320): an aligned pair. *)
Definition pairAligned (config : Config) (rowA rowB : Row) (st : State) : State :=
  let '(rowDelta, same, modifiedFields') :=
    areEquals rowA rowB config (modifiedFields st) in
  let st := set_modifiedFields modifiedFields' st in
  if same then
    if first st then
      let st := set_first false st in
      let st :=
        if negb (noHeader config) then
          set_headers (Some (deepCopy rowA)) (writeRow (delta rowA "=") st)
        else if common config then writeRow (delta rowA "=") st
        else st in
      set_modifiedFields (makeBools (length rowA)) st
    else if common config then writeRow (delta rowA "=") st
    else st
  else
    let st := countModified (writeRow (fieldsOf rowDelta) st) in
    if first st then
      let st := set_first false st in
      let st :=
        if negb (noHeader config) then
          set_headers (Some (deepCopy (drop 1 (fieldsOf rowDelta)))) st
        else st in
      set_modifiedFields (makeBools (length (fieldsOf rowDelta) - 1)) st
    else st.

(** First half of the branch [hashA != hashB] (lines 322-335): look for the
    row of input A among the pending rows of input B, keep it pending
    otherwise. *)
Definition reconcileA (config : Config) (rowA : Row) (hashA : RowHash)
    (st : State) : State :=
  let '(altB, found, _, cacheB') := searchCache (cacheB st) hashA in
  let st := set_cacheB cacheB' st in
  if found then
    let '(rowDelta, same, modifiedFields') :=
      areEquals rowA (fieldsOf altB) config (modifiedFields st) in
    let st := set_modifiedFields modifiedFields' st in
    if negb same then countModified (writeRow (fieldsOf rowDelta) st)
    else if common config then writeRow (delta rowA "=") st
    else st
  else
    let st :=
      match cacheA st !! hashA with
      | Some _ => warn (DuplicateFirst rowA) st
      | None => st
      end in
    set_cacheA (<[hashA := deepCopy rowA]> (cacheA st)) st.

(** Second half (lines 336-349): the same for the row of input B. *)
Definition reconcileB (config : Config) (rowB : Row) (hashB : RowHash)
    (st : State) : State :=
  let '(altA, found, _, cacheA') := searchCache (cacheA st) hashB in
  let st := set_cacheA cacheA' st in
  if found then
    let '(rowDelta, same, modifiedFields') :=
      areEquals (fieldsOf altA) rowB config (modifiedFields st) in
    let st := set_modifiedFields modifiedFields' st in
    if negb same then countModified (writeRow (fieldsOf rowDelta) st)
    else if common config then writeRow (delta rowB "=") st
    else st
  else
    let st :=
      match cacheB st !! hashB with
      | Some _ => warn (DuplicateSecond rowB) st
      | None => st
      end in
    set_cacheB (<[hashB := deepCopy rowB]> (cacheB st)) st.

(** The loop body from [if rowA == nil] on (lines 285-350). *)
Definition dispatch (config : Config) (rowA : option Row) (hashA : RowHash)
    (rowB : option Row) (hashB : RowHash) (st : State) : State :=
  match rowA, rowB with
  | None, _ => countAdded (writeRow (delta (fieldsOf rowB) "+") st)
  | Some a, None => countRemoved (writeRow (delta a "-") st)
  | Some a, Some b =>
      if hashA =? hashB then pairAligned config a b st
      else reconcileB config b hashB (reconcileA config a hashA st)
  end.

(** The loop body after the two reads (lines 261-350).  No row is written
    before the range check and the hashing are done, so a fault leaves the
    delta stream as the turn found it. *)
Definition classify (config : Config) (rowA rowB : option Row) (st : State)
    : Result State :=
  match rowA, rowB with
  | None, None => Ok st
  | _, _ =>
      _ <- (if first st then checkRow rowA rowB config else Ok tt) ;;
      let st := set_totalCount (incr (totalCount st)) st in
      match rowA, rowB with
      | Some a, Some b =>
          hashA <- hashRow a (keys config) ;;
          hashB <- hashRow b (keys config) ;;
          Ok (dispatch config rowA hashA rowB hashB st)
      | Some a, None =>
          hashA <- hashRow a (keys config) ;;
          let '(rowB', _, hashB, cacheB') := searchCache (cacheB st) hashA in
          Ok (dispatch config rowA hashA rowB' hashB (set_cacheB cacheB' st))
      | None, Some b =>
          hashB <- hashRow b (keys config) ;;
          let '(rowA', _, hashA, cacheA') := searchCache (cacheA st) hashB in
          Ok (dispatch config rowA' hashA rowB hashB (set_cacheA cacheA' st))
      | None, None => Ok st
      end
  end.

(** The two reads at the head of the loop body (lines 259-260). *)
Definition advance (st : State) : option Row * option Row * State :=
  let '(rowA, eofA', readerA') := readRow (readerA st) (eofA st) in
  let st := set_eofA eofA' (set_readerA readerA' st) in
  let '(rowB, eofB', readerB') := readRow (readerB st) (eofB st) in
  let st := set_eofB eofB' (set_readerB readerB' st) in
  (rowA, rowB, st).

(** One turn of the loop [for !eofA || !eofB]. *)
Definition iteration (config : Config) (st : State) : Result State :=
  let '(rowA, rowB, st') := advance st in
  classify config rowA rowB st'.

(** How the loop ends: its condition fails, or a fault stops the process in
    the state [st] the failing turn started from. *)
Inductive LoopEnd : Type :=
| Completed (st : State)
| Stopped (e : Abort) (st : State).

Fixpoint loop (fuel : nat) (config : Config) (st : State) : option LoopEnd :=
  if negb (eofA st) || negb (eofB st) then
    match fuel with
    | O => None
    | S fuel' =>
        match iteration config st with
        | Ok st' => loop fuel' config st'
        | Err e => Some (Stopped e st)
        end
    end
  else Some (Completed st).

(** The drain of the two caches after the loop (lines 352-359). *)
Definition drainA (st : State) : State :=
  fold_left (fun st entry => countRemoved (writeRow (delta (snd entry) "-") st))
            (map_to_list (cacheA st)) st.

Definition drainB (st : State) : State :=
  fold_left (fun st entry => countAdded (writeRow (delta (snd entry) "+") st))
            (map_to_list (cacheB st)) st.

(** The label of a modified field in the summary. *)
Definition fieldLabel (hdrs : option Row) (i : nat) : option Field * Z :=
  match hdrs with
  | Some h => (Some (nth i h EmptyString), Z.of_nat i + 1)
  | None => (None, Z.of_nat i + 1)
  end.

Fixpoint modifiedLabels (hdrs : option Row) (i : nat) (v : list bool)
    : list (option Field * Z) :=
  match v with
  | [] => []
  | b :: v' =>
      (if b then [fieldLabel hdrs i] else []) ++ modifiedLabels hdrs (S i) v'
  end.

Inductive Outcome : Type :=
| Exit (status : Z) (st : State)
| Abend (e : Abort) (st : State).

(** The end of [main] (lines 364-382): summary on standard error and exit
    status. *)
Definition finish (st : State) : Outcome :=
  if (0 <? addedCount st) || (0 <? removedCount st) || (0 <? modifiedCount st) then
    let st := warn (Total (totalCount st) (removedCount st) (addedCount st)
                          (modifiedCount st)) st in
    let st :=
      if 0 <? modifiedCount st then
        warn (ModifiedFieldsLine
                (modifiedLabels (headers st) 0
                   (match modifiedFields st with Some v => v | None => [] end))) st
      else st in
    Exit 1 st
  else Exit 0 st.

Definition initial (inA inB : Reader) : State :=
  {| readerA := inA; readerB := inB; cacheA := ∅; cacheB := ∅;
     headers := None; addedCount := 0; modifiedCount := 0; removedCount := 0;
     totalCount := 0; eofA := false; eofB := false; modifiedFields := None;
     first := true; stdout := []; stderr := [] |}.

(** Every turn of the loop consumes a token or meets the end of a stream, so
    this many turns are enough (lemma [loop_terminates]). *)
Definition turns (inA inB : Reader) : nat := S (S (length inA + length inB)).

Definition run (fuel : nat) (config : Config) (inA inB : Reader) : option Outcome :=
  match loop fuel config (initial inA inB) with
  | None => None
  | Some (Stopped e st) => Some (Abend e st)
  | Some (Completed st) => Some (finish (drainB (drainA st)))
  end.

Definition main (config : Config) (inA inB : Reader) : option Outcome :=
  run (turns inA inB) config inA inB.

(** The reader that delivers the given records, in order.  A record without
    fields has no tokens. *)
Fixpoint recordTokens (row : Row) : Reader :=
  match row with
  | [] => []
  | [field] => [(field, true)]
  | field :: rest => (field, false) :: recordTokens rest
  end.

Definition readerOf (rows : list Row) : Reader :=
  flat_map recordTokens rows.

(** ** Vocabulary of the properties *)

(** The part of the state the reads own. *)
Definition sameInput (st st' : State) : Prop :=
  readerA st' = readerA st /\ readerB st' = readerB st /\
  eofA st' = eofA st /\ eofB st' = eofB st.

Definition measure (st : State) : nat :=
  (length (readerA st) + length (readerB st)
   + (if eofA st then 0 else 1) + (if eofB st then 0 else 1))%nat.

Definition countersNonneg (st : State) : Prop :=
  0 <= addedCount st /\ 0 <= removedCount st /\ 0 <= modifiedCount st.

(** The shape of the delta row of a modification. *)
Definition isDeltaRow (maxLen : nat) (rd : option Row) : Prop :=
  exists r, rd = Some ("#" :: r) /\ length r = maxLen.

(** The tracking vector during the comparison of two rows of one length:
    it keeps its size, and holds a mark as soon as the verdict is lost. *)
Definition trackedInv (n : nat) (acc : Cmp) : Prop :=
  exists v, tracked acc = Some v /\ length v = n /\
            (same acc = false -> exists i, v !! i = Some true).

Definition raggedConfig : Config :=
  {| keys := [0]; ignoredFields := {[ 1 ]}; noHeader := false;
     sep := ","%char; guess := true; quoted := true; format := 1;
     symbol := "|"%char; common := false |}.

(** The outcome of comparing [x] with [y] from state [st]: nothing but the
    modified counter, the tracking vector and the delta stream may change;
    an equal pair writes at most the row [echo] behind the marker [=], and
    only when common rows are asked for or [hdr] holds; a modified pair
    writes one row behind the marker [#] and counts one modification. *)
Definition compared (config : Config) (x y echo : list string) (hdr : bool)
    (st st' : State) : Prop :=
  addedCount st' = addedCount st /\ removedCount st' = removedCount st /\
  stderr st' = stderr st /\
  ((snd (fst (areEquals x y config (modifiedFields st))) = true /\
    modifiedCount st' = modifiedCount st /\
    (stdout st' = stdout st \/
     (stdout st' = stdout st ++ [delta echo "="] /\
      (common config = true \/ hdr = true)))) \/
   (snd (fst (areEquals x y config (modifiedFields st))) = false /\
    modifiedCount st' = incr (modifiedCount st) /\
    exists r, stdout st' = stdout st ++ ["#" :: r])).

(** The rows a step appends to the delta stream, each satisfying [Q]. *)
Definition appends (Q : list string -> Prop) (st st' : State) : Prop :=
  exists new, stdout st' = stdout st ++ new /\ Forall Q new.

Definition echoOnly (P : Prop) (row : list string) : Prop :=
  head row = Some "=" -> P.

(** In one call of [dispatch], a row behind [=] needs the request for common
    rows, or is the echo of the header on the first aligned pair, after which
    [first] is off. *)
Definition echoRule (config : Config) (st st' : State) : list string -> Prop :=
  echoOnly (common config = true \/
            (noHeader config = false /\ first st = true /\ first st' = false)).

(** The ranges of the machine types: key indexes are [uint64] values, ignored
    positions are [int] values whose successor is still an [int]. *)
Definition machineIndexes (config : Config) : Prop :=
  Forall (fun k => 0 <= k < two64) (keys config) /\
  forall f, f ∈ ignoredFields config -> - two63 <= f < two63 - 1.

(** Key on the first field, nothing ignored, piped deltas. *)
Definition plainConfig (noHeader' common' : bool) : Config :=
  {| keys := [0]; ignoredFields := ∅; noHeader := noHeader'; sep := ","%char;
     guess := true; quoted := true; format := 1; symbol := "|"%char;
     common := common' |}.

(** The same with other key positions and ignored positions. *)
Definition indexedConfig (ks : list Z) (ignored : gset Z) : Config :=
  {| keys := ks; ignoredFields := ignored; noHeader := true; sep := ","%char;
     guess := true; quoted := true; format := 1; symbol := "|"%char;
     common := false |}.

(** The command line [-f 1 -s , -k K -i I] with the other flags as given. *)
Definition commandLine (k i : string) (n q c v r : bool) : Flags :=
  {| flag_n := n; flag_f := 1; flag_q := q; flag_s := ","; flag_k := k;
     flag_i := i; flag_c := c; sVisited := v; stdoutRegular := r |}.

Definition exampleA : list (list string) :=
  [["1"; "Alice"; "30"]; ["2"; "Bob"; "25"]; ["4"; "Dana"; "40"]].

Definition exampleB : list (list string) :=
  [["2"; "Bob"; "25"]; ["1"; "Alice"; "31"]; ["3"; "Carol"; "22"]].

(** The state after the first turn on the inputs [k1,a; k1,b] and [k2; k3]. *)
Definition dupState : State :=
  {| readerA := readerOf [["k1"; "b"]]; readerB := readerOf [["k3"]];
     cacheA := {[ 629957523660743873 := ["k1"; "a"] ]};
     cacheB := {[ 629954225125859240 := ["k2"] ]};
     headers := None; addedCount := 0; modifiedCount := 0; removedCount := 0;
     totalCount := 1; eofA := false; eofB := false; modifiedFields := None;
     first := true; stdout := []; stderr := [] |}.

Definition headerTurn : State :=
  match iteration (plainConfig false false)
                  (initial (readerOf [["id"; "name"]]) (readerOf [["id"; "name"]])) with
  | Ok st' => st'
  | Err _ => initial [] []
  end.

(** The reader [r] with end-of-stream flag [eof] still delivers [rows]. *)
Definition feeds (r : list (string * bool)) (eof : bool) (rows : list (list string))
    : Prop :=
  if eof then rows = [] else r = readerOf rows.

(** The fields of the state the two reads leave alone. *)
Definition sameData (st st' : State) : Prop :=
  cacheA st' = cacheA st /\ cacheB st' = cacheB st /\ headers st' = headers st /\
  addedCount st' = addedCount st /\ modifiedCount st' = modifiedCount st /\
  removedCount st' = removedCount st /\ totalCount st' = totalCount st /\
  modifiedFields st' = modifiedFields st /\ first st' = first st /\
  stdout st' = stdout st /\ stderr st' = stderr st.

(** The state after the count of the turn. *)
Definition counted (st : State) : State :=
  set_totalCount (incr (totalCount st)) st.

(** The ways a turn can go when no fault stops it. *)
Inductive turn (config : Config) (st1 : State)
    : option (list string) -> option (list string) -> State -> Prop :=
| turn_idle :
    turn config st1 None None st1
| turn_aligned a b h :
    hashRow a (keys config) = Ok h -> hashRow b (keys config) = Ok h ->
    turn config st1 (Some a) (Some b) (pairAligned config a b (counted st1))
| turn_misaligned a b hashA hashB :
    hashRow a (keys config) = Ok hashA -> hashRow b (keys config) = Ok hashB ->
    hashA <> hashB ->
    turn config st1 (Some a) (Some b)
         (reconcileB config b hashB (reconcileA config a hashA (counted st1)))
| turn_onlyA_match a hashA b :
    hashRow a (keys config) = Ok hashA -> cacheB st1 !! hashA = Some b ->
    turn config st1 (Some a) None
         (pairAligned config a b
            (set_cacheB (delete hashA (cacheB st1)) (counted st1)))
| turn_onlyA_removed a hashA :
    hashRow a (keys config) = Ok hashA -> cacheB st1 !! hashA = None ->
    turn config st1 (Some a) None
         (countRemoved (writeRow (delta a "-")
            (set_cacheB (cacheB st1) (counted st1))))
| turn_onlyB_match b hashB a :
    hashRow b (keys config) = Ok hashB -> cacheA st1 !! hashB = Some a ->
    turn config st1 None (Some b)
         (pairAligned config a b
            (set_cacheA (delete hashB (cacheA st1)) (counted st1)))
| turn_onlyB_added b hashB :
    hashRow b (keys config) = Ok hashB -> cacheA st1 !! hashB = None ->
    turn config st1 None (Some b)
         (countAdded (writeRow (delta b "+")
            (set_cacheA (cacheA st1) (counted st1)))).

(** A row all configured indexes fit: every key index is a position of the
    row, every ignored position is below its length. *)
Definition inRange (config : Config) (row : list string) : Prop :=
  (forall k, In k (keys config) -> 0 <= k < Z.of_nat (length row)) /\
  (forall f, f ∈ ignoredFields config -> f < Z.of_nat (length row)).

(** Every cached row is a row of the dataset, kept under its key hash. *)
Definition cacheOf (config : Config) (D : list (list string))
    (c : gmap Z (list string)) : Prop :=
  forall h r, c !! h = Some r -> r ∈ D /\ hashRow r (keys config) = Ok h.

(** The two caches against the rows [ra] and [rb] still to come: a row of
    the dataset is still to come or pending on one side exactly when it is
    on the other. *)
Definition pendingInv (config : Config) (D : list (list string))
    (cA cB : gmap Z (list string)) (ra rb : list (list string)) : Prop :=
  cacheOf config D cA /\ cacheOf config D cB /\
  (forall h, cA !! h = None \/ cB !! h = None) /\
  NoDup ra /\ NoDup rb /\
  (forall r, r ∈ ra -> r ∈ D) /\ (forall r, r ∈ rb -> r ∈ D) /\
  (forall r h, r ∈ ra -> hashRow r (keys config) = Ok h -> cA !! h = None) /\
  (forall r h, r ∈ rb -> hashRow r (keys config) = Ok h -> cB !! h = None) /\
  (forall r h, r ∈ D -> hashRow r (keys config) = Ok h ->
     (r ∈ ra \/ cA !! h = Some r) <-> (r ∈ rb \/ cB !! h = Some r)).

(** The invariant of the loop. *)
Definition identityInv (config : Config) (D : list (list string))
    (st : State) : Prop :=
  exists ra rb,
    feeds (readerA st) (eofA st) ra /\ feeds (readerB st) (eofB st) rb /\
    length ra = length rb /\
    addedCount st = 0 /\ removedCount st = 0 /\ modifiedCount st = 0 /\
    pendingInv config D (cacheA st) (cacheB st) ra rb.

(** How often [row] was written, and how many rows carry the marker [sign]. *)
Definition occurrences (row : list string) (out : list (list string)) : nat :=
  length (List.filter (fun x => bool_decide (x = row)) out).

Definition marked (sign : ascii) (out : list (list string)) : nat :=
  length (List.filter
            (fun x => bool_decide (head x = Some (String sign EmptyString))) out).

(** A row with another key hash than [r]. *)
Definition other (config : Config) (h : Z) (x : list string) : Prop :=
  hashRow x (keys config) <> Ok h.

(** Every cached row is kept under its key hash. *)
Definition keyed (config : Config) (c : gmap Z (list string)) : Prop :=
  forall k x, c !! k = Some x -> hashRow x (keys config) = Ok k.

(** The row [r] of the own side, whose key hash no row of the other side
    has: it is still to come, or pending in the own cache, or written once
    behind [sign]. *)
Definition trackInv (config : Config) (sign : ascii) (r : list string) (h : Z)
    (post : list (list string)) (cOwn cOther : gmap Z (list string))
    (rOwn rOther out : list (list string)) : Prop :=
  keyed config cOwn /\ cOther !! h = None /\ Forall (other config h) rOther /\
  ((exists pre, rOwn = pre ++ r :: post /\ Forall (other config h) pre /\
                cOwn !! h = None /\ occurrences (delta r sign) out = 0%nat) \/
   (Forall (other config h) rOwn /\ cOwn !! h = Some r /\
    occurrences (delta r sign) out = 0%nat) \/
   (Forall (other config h) rOwn /\ cOwn !! h = None /\
    occurrences (delta r sign) out = 1%nat)).

(** The tracked row comes from input A and leaves behind [-]. *)
Definition trackA (config : Config) (r : list string) (h : Z)
    (post : list (list string)) (st : State) : Prop :=
  exists ra rb,
    feeds (readerA st) (eofA st) ra /\ feeds (readerB st) (eofB st) rb /\
    Forall (fun row => row <> []) ra /\ Forall (fun row => row <> []) rb /\
    trackInv config "-" r h post (cacheA st) (cacheB st) ra rb (stdout st).

(** The tracked row comes from input B and leaves behind [+]. *)
Definition trackB (config : Config) (r : list string) (h : Z)
    (post : list (list string)) (st : State) : Prop :=
  exists ra rb,
    feeds (readerA st) (eofA st) ra /\ feeds (readerB st) (eofB st) rb /\
    Forall (fun row => row <> []) ra /\ Forall (fun row => row <> []) rb /\
    trackInv config "+" r h post (cacheB st) (cacheA st) rb ra (stdout st).

(** The removed and added counters count the rows written behind [-] and
    behind [+]. *)
Definition tallies (st : State) : Prop :=
  removedCount st = wrap64 (Z.of_nat (marked "-" (stdout st))) /\
  addedCount st = wrap64 (Z.of_nat (marked "+" (stdout st))).

(** The state at the exit of the end-to-end example. *)
Definition exampleExit : State :=
  match main (plainConfig true false) (readerOf exampleA) (readerOf exampleB) with
  | Some (Exit _ st) => st
  | _ => initial [] []
  end.

(** ** Vocabulary of the further properties *)

(** A decimal digit, a string of decimal digits, and the number a string of
    digits denotes after the digits read so far gave [acc]. *)
Definition isDigit (c : ascii) : bool :=
  let d := Z.of_nat (nat_of_ascii c) - 48 in (0 <=? d) && (d <=? 9).

Fixpoint allDigits (s : string) : bool :=
  match s with
  | EmptyString => true
  | String c s' => isDigit c && allDigits s'
  end.

Fixpoint decimalFrom (acc : Z) (s : string) : Z :=
  match s with
  | EmptyString => acc
  | String c s' => decimalFrom (acc * 10 + (Z.of_nat (nat_of_ascii c) - 48)) s'
  end.

Definition decimal (s : string) : Z := decimalFrom 0 s.

(** A piece of a [-k] or [-i] argument that [atouis] accepts, and the index
    it stores for it. *)
Definition accepted (piece : string) (v : Z) : Prop :=
  piece <> EmptyString /\ allDigits piece = true /\ decimal piece < two64 /\
  v = wrap64 (decimal piece - 1).

(** The bytes [hashRow] feeds to the hasher: the key fields one after the
    other, nothing between them. *)
Definition keyBytes (fields : list string) : string :=
  fold_right String.append EmptyString fields.

(** [f] is the field of [row] at the key index [k]. *)
Definition keyField (row : list string) (k : Z) (f : string) : Prop :=
  index row k = Some f.

(** The test of [checkRow] on a key index and on an ignored position, as the
    conversion [int(key)] leaves it. *)
Definition keyPasses (rowA rowB : option (list string)) (k : Z) : Prop :=
  int_of_uint64 k < rowLen rowA /\ int_of_uint64 k < rowLen rowB.

Definition fieldPasses (rowA rowB : option (list string)) (f : Z) : Prop :=
  f < rowLen rowA /\ f < rowLen rowB.

(** Whether the comparator takes position [i] for changed: the position is
    not ignored and, where both rows have it, the two fields differ; where
    only the longer row has it, it counts as changed. *)
Definition differs (rowA rowB : list string) (config : Config) (i : nat) : bool :=
  negb (isIgnored config i) &&
  (if (i <? Nat.min (length rowA) (length rowB))%nat
   then negb (String.eqb (nth i rowA EmptyString) (nth i rowB EmptyString))
   else (i <? Nat.max (length rowA) (length rowB))%nat).

(** The field of the delta row of a modification that stands for position
    [i]. *)
Definition deltaField (rowA rowB : list string) (config : Config) (i : nat) : string :=
  let a := nth i rowA EmptyString in
  let b := nth i rowB EmptyString in
  if (i <? Nat.min (length rowA) (length rowB))%nat then
    if differs rowA rowB config i
    then concat a b (format config) (symbol config) else a
  else if isIgnored config i then EmptyString
  else if (length rowB <? length rowA)%nat
       then concat a "_" (format config) (symbol config)
       else concat "_" b (format config) (symbol config).

(** The tracking vector with the changed positions below [n] recorded. *)
Definition marksUpTo (rowA rowB : list string) (config : Config) (n : nat)
    (mf : option (list bool)) : option (list bool) :=
  imap (fun j b => b || ((j <? n)%nat && differs rowA rowB config j)) <$> mf.

(** The tracking vector with all changed positions recorded. *)
Definition marks (rowA rowB : list string) (config : Config)
    (mf : option (list bool)) : option (list bool) :=
  imap (fun j b => b || differs rowA rowB config j) <$> mf.

(** Rows the comparator takes for equal. *)
Definition unchanged (rowA rowB : list string) (config : Config) : bool :=
  (length rowA =? length rowB)%nat &&
  forallb (fun i => negb (differs rowA rowB config i)) (seq 0 (length rowA)).

(** The variables of [areEquals] after the positions below [i]. *)
Definition comparedUpTo (rowA rowB : list string) (config : Config)
    (mf : option (list bool)) (i : nat) (acc : Cmp) : Prop :=
  tracked acc = marksUpTo rowA rowB config i mf /\
  if same acc then
    length rowA = length rowB /\ rowDelta acc = None /\
    forall j, (j < i)%nat -> differs rowA rowB config j = false
  else
    (length rowA <> length rowB \/
     exists j, (j < i)%nat /\ differs rowA rowB config j = true) /\
    exists r, rowDelta acc = Some ("#" :: r) /\
      length r = Nat.max (length rowA) (length rowB) /\
      (forall j, (j < i)%nat -> r !! j = Some (deltaField rowA rowB config j)) /\
      (forall j, (i <= j < Nat.max (length rowA) (length rowB))%nat ->
                 r !! j = Some EmptyString).

(** The states a run passes through at the head of the loop, from [st0] on. *)
Inductive reachable (config : Config) (st0 : State) : State -> Prop :=
| reach_start : reachable config st0 st0
| reach_turn st st' :
    reachable config st0 st ->
    negb (eofA st) || negb (eofB st) = true ->
    iteration config st = Ok st' ->
    reachable config st0 st'.

(** No key hash is pending on both sides. *)
Definition disjointCaches (st : State) : Prop :=
  forall h, cacheA st !! h = None \/ cacheB st !! h = None.

(** A tracking vector and a later one: the vector is still absent, or it has
    kept its length and its marks. *)
Definition tracksMore (mf mf' : option (list bool)) : Prop :=
  match mf, mf' with
  | None, None => True
  | Some v, Some v' =>
      length v' = length v /\ forall i, v !! i = Some true -> v' !! i = Some true
  | _, _ => False
  end.

(** How the header row and the tracking vector go with the flag [first]:
    while it is on there is neither; once it is off there is a vector, and a
    header row has the length of the vector. *)
Definition captureInv (st : State) : Prop :=
  if first st then headers st = None /\ modifiedFields st = None
  else exists v, modifiedFields st = Some v /\
         forall h, headers st = Some h -> length h = length v.

(** A run in which no pair is ever aligned, though each row has its
    counterpart. *)
Definition crossedA : list (list string) := [["1"; "x"]; ["2"; "y"]].
Definition crossedB : list (list string) := [["2"; "z"]; ["1"; "w"]].

(** The state an outcome carries. *)
Definition stateOf (o : Outcome) : State :=
  match o with
  | Exit _ st => st
  | Abend _ st => st
  end.

(** The part of the state that the drain of the caches and the summary leave
    alone. *)
Definition keepsCapture (st st' : State) : Prop :=
  first st' = first st /\ headers st' = headers st /\
  modifiedFields st' = modifiedFields st /\ modifiedCount st' = modifiedCount st /\
  totalCount st' = totalCount st /\ cacheA st' = cacheA st /\ cacheB st' = cacheB st.

(** The positions of a tracking vector that hold a mark, in ascending
    order. *)
Definition markedPositions (v : list bool) : list nat :=
  List.filter (fun i => nth i v false) (seq 0 (length v)).

(** A row of the delta stream: a marker, then the fields. *)
Definition hasMarker (row : list string) : Prop :=
  exists sign rest,
    row = String sign EmptyString :: rest /\
    (sign = "="%char \/ sign = "#"%char \/ sign = "-"%char \/ sign = "+"%char).

(** Every row written carries a marker, and the modified counter counts the
    rows behind [#]. *)
Definition deltaStream (st : State) : Prop :=
  Forall hasMarker (stdout st) /\
  modifiedCount st = wrap64 (Z.of_nat (marked "#" (stdout st))).

(** The count of the turns against the rows [ra] and [rb] still to come, in
    a run over inputs of which the longer has [M] rows. *)
Definition turnsCounted (M : nat) (st : State) : Prop :=
  exists ra rb,
    feeds (readerA st) (eofA st) ra /\ feeds (readerB st) (eofB st) rb /\
    Forall (fun row => row <> []) ra /\ Forall (fun row => row <> []) rb /\
    totalCount st
    = wrap64 (Z.of_nat M - Z.of_nat (Nat.max (length ra) (length rb))).

(** What a run over two copies of the rows [D] writes: the first row behind
    [=] when headers are expected or common rows are asked for, the others
    when common rows are asked for. *)
Definition echoed (config : Config) (D : list (list string)) : list (list string) :=
  match D with
  | [] => []
  | r :: D' =>
      (if negb (noHeader config) || common config then [delta r "="] else [])
      ++ (if common config then map (fun r => delta r "=") D' else [])
  end.

(** A run over two copies of [D] after the rows [done], before the rows
    [rest]. *)
Definition twinInv (config : Config) (D : list (list string)) (st : State) : Prop :=
  exists done rest,
    D = done ++ rest /\
    feeds (readerA st) (eofA st) rest /\ feeds (readerB st) (eofB st) rest /\
    stdout st = echoed config done /\
    first st = match done with [] => true | _ => false end /\
    addedCount st = 0 /\ removedCount st = 0 /\ modifiedCount st = 0 /\
    stderr st = [] /\ cacheA st = ∅ /\ cacheB st = ∅.

(** Tokens none of which ends a record, and the tokens of one record. *)
Definition unterminated (ts : list (string * bool)) : Prop :=
  Forall (fun t => snd t = false) ts.

Definition oneRecord (ts : list (string * bool)) : Prop :=
  exists init last, ts = init ++ [last] /\ unterminated init /\ snd last = true.

(** The warnings of a duplicate key on standard error, by input. *)
Definition duplicatesFirst (err : list Diag) : nat :=
  length (List.filter (fun d => match d with DuplicateFirst _ => true | _ => false end)
                      err).

Definition duplicatesSecond (err : list Diag) : nat :=
  length (List.filter (fun d => match d with DuplicateSecond _ => true | _ => false end)
                      err).

(** Where the rows read from an input are, when [matched] of them were
    compared with a row of the other input: written behind the marker of
    the input, pending in its cache, or overwritten there, which a warning
    tells. *)
Definition ledgerA (st : State) (matched : nat) : nat :=
  (matched + marked "-" (stdout st) + size (cacheA st)
   + duplicatesFirst (stderr st))%nat.

Definition ledgerB (st : State) (matched : nat) : nat :=
  (matched + marked "+" (stdout st) + size (cacheB st)
   + duplicatesSecond (stderr st))%nat.

(** The account of a run over the rows [A] and [B]. *)
Definition accountInv (A B : list (list string)) (st : State) : Prop :=
  exists ra rb matched,
    feeds (readerA st) (eofA st) ra /\ feeds (readerB st) (eofB st) rb /\
    Forall (fun row => row <> []) ra /\ Forall (fun row => row <> []) rb /\
    length A = (length ra + ledgerA st matched)%nat /\
    length B = (length rb + ledgerB st matched)%nat /\
    (marked "#" (stdout st) <= matched)%nat.

(** Two inputs with a header row, of which the first has a duplicate key. *)
Definition accountA : list (list string) :=
  [["id"; "v"]; ["k1"; "a"]; ["k1"; "b"]; ["k2"; "c"]].

Definition accountB : list (list string) :=
  [["id"; "v"]; ["k2"; "d"]; ["k3"; "e"]; ["k1"; "z"]].

(** A separator argument that passes the test of its length. *)
Definition separatorPasses (fl : Flags) : Prop :=
  flag_s fl = "\t" \/ (String.length (flag_s fl) <= 1)%nat.

(** * Properties *)

(** ** Basic facts *)

Ltac break_match :=
  match goal with
  | |- context [match ?x with _ => _ end] => destruct x eqn:?
  | H : context [match ?x with _ => _ end] |- _ => destruct x eqn:?
  end.

Lemma Ok_inj {A : Type} (a b : A) : Ok a = Ok b -> a = b.
Proof. intros H. injection H as ->. reflexivity. Qed.

Lemma Some_inj {A : Type} (a b : A) : Some a = Some b -> a = b.
Proof. intros H. injection H as ->. reflexivity. Qed.

Lemma wrap64_nonneg z : 0 <= wrap64 z.
Proof. unfold wrap64, two64. apply Z.mod_pos_bound. lia. Qed.

Lemma incr_nonneg c : 0 <= incr c.
Proof. apply wrap64_nonneg. Qed.

Lemma incr_wrap64 z : incr (wrap64 z) = wrap64 (z + 1).
Proof. unfold incr, wrap64. rewrite Zplus_mod_idemp_l. reflexivity. Qed.

Lemma deepCopy_id row : deepCopy row = row.
Proof.
  unfold deepCopy. induction row as [|f row IH]; simpl; [reflexivity|].
  rewrite string_of_list_ascii_of_string, IH. reflexivity.
Qed.

(** ** The loop ends *)

Lemma scanRecord_length r buffer row eof r' :
  scanRecord r buffer = (row, eof, r') ->
  (length r' + (if eof then 0 else 1) <= length r)%nat.
Proof.
  revert buffer. induction r as [|[field eor] r IH]; intros buffer H; simpl in *.
  - inversion H; subst. simpl. lia.
  - destruct eor.
    + inversion H; subst. simpl. lia.
    + apply IH in H. lia.
Qed.

Lemma readRow_length r pEof row eof r' :
  readRow r pEof = (row, eof, r') ->
  if pEof then r' = r /\ eof = true
  else (length r' + (if eof then 0 else 1) <= length r)%nat.
Proof.
  unfold readRow. destruct pEof.
  - intros H; inversion H; subst. split; reflexivity.
  - destruct (scanRecord r []) as [[buffer e] r0] eqn:Hs.
    apply scanRecord_length in Hs.
    destruct buffer; intros H; inversion H; subst; lia.
Qed.

Lemma sameInput_refl st : sameInput st st.
Proof. repeat split. Qed.

Lemma sameInput_trans st1 st2 st3 :
  sameInput st1 st2 -> sameInput st2 st3 -> sameInput st1 st3.
Proof. unfold sameInput. intuition congruence. Qed.

Lemma pairAligned_input config a b st : sameInput st (pairAligned config a b st).
Proof.
  unfold pairAligned, areEquals.
  repeat (break_match; simpl); repeat split.
Qed.

Lemma reconcileA_input config a h st : sameInput st (reconcileA config a h st).
Proof.
  unfold reconcileA, searchCache, areEquals.
  repeat (break_match; simpl); repeat split.
Qed.

Lemma reconcileB_input config b h st : sameInput st (reconcileB config b h st).
Proof.
  unfold reconcileB, searchCache, areEquals.
  repeat (break_match; simpl); repeat split.
Qed.

Lemma dispatch_input config rowA hashA rowB hashB st :
  sameInput st (dispatch config rowA hashA rowB hashB st).
Proof.
  unfold dispatch. destruct rowA as [a|]; [destruct rowB as [b|]|].
  - destruct (hashA =? hashB).
    + apply pairAligned_input.
    + eapply sameInput_trans; [apply reconcileA_input | apply reconcileB_input].
  - repeat split.
  - repeat split.
Qed.

Lemma classify_input config rowA rowB st st' :
  classify config rowA rowB st = Ok st' -> sameInput st st'.
Proof.
  assert (Hd : forall rA hA rB hB s0, sameInput st s0 ->
            sameInput st (dispatch config rA hA rB hB s0)).
  { intros. eapply sameInput_trans; [eassumption | apply dispatch_input]. }
  unfold classify, bind, searchCache. intros H.
  destruct rowA as [a|], rowB as [b|];
    repeat (break_match; try discriminate);
    apply Ok_inj in H; subst st'; try apply sameInput_refl; apply Hd; repeat split.
Qed.

Lemma iteration_measure config st st' :
  negb (eofA st) || negb (eofB st) = true ->
  iteration config st = Ok st' ->
  (measure st' < measure st)%nat.
Proof.
  unfold iteration, advance. intros Hc.
  destruct (readRow (readerA st) (eofA st)) as [[rowA eA] rA] eqn:HA. simpl.
  destruct (readRow (readerB st) (eofB st)) as [[rowB eB] rB] eqn:HB.
  intros H. apply classify_input in H. destruct H as (H1 & H2 & H3 & H4).
  simpl in *. unfold measure. rewrite H1, H2, H3, H4.
  apply readRow_length in HA. apply readRow_length in HB.
  destruct (eofA st), (eofB st); simpl in *; try discriminate;
    repeat match goal with H : _ /\ _ |- _ => destruct H end; subst; simpl; lia.
Qed.

Lemma loop_terminates config fuel st :
  (measure st <= fuel)%nat -> exists e, loop fuel config st = Some e.
Proof.
  revert st. induction fuel as [|fuel IH]; intros st Hm; simpl.
  - destruct (negb (eofA st) || negb (eofB st)) eqn:Hc; [|eauto].
    exfalso. unfold measure in Hm.
    destruct (eofA st), (eofB st); simpl in *; try discriminate; lia.
  - destruct (negb (eofA st) || negb (eofB st)) eqn:Hc; [|eauto].
    destruct (iteration config st) as [st'|e] eqn:Hi; [|eauto].
    apply IH. pose proof (iteration_measure _ _ _ Hc Hi). lia.
Qed.

(** [main] always returns: the run exits or aborts. *)
Lemma main_total config inA inB : exists o, main config inA inB = Some o.
Proof.
  unfold main, run.
  destruct (loop_terminates config (turns inA inB) (initial inA inB)) as [e He].
  - unfold measure, turns. simpl. lia.
  - rewrite He. destruct e; eauto.
Qed.

(** ** Reasoning about the loop *)

(** A property kept by every turn holds when the loop ends, and then both
    streams have ended. *)
Lemma loop_invariant (P : State -> Prop) config :
  (forall st st', P st -> negb (eofA st) || negb (eofB st) = true ->
                  iteration config st = Ok st' -> P st') ->
  forall fuel st st', P st -> loop fuel config st = Some (Completed st') ->
  P st' /\ eofA st' = true /\ eofB st' = true.
Proof.
  intros Hstep fuel. induction fuel as [|fuel IH]; intros st st' HP; simpl.
  - destruct (negb (eofA st) || negb (eofB st)) eqn:Hc; [discriminate|].
    intros H; inversion H; subst.
    destruct (eofA st'), (eofB st'); simpl in Hc; try discriminate; auto.
  - destruct (negb (eofA st) || negb (eofB st)) eqn:Hc.
    + destruct (iteration config st) as [st1|e] eqn:Hi; [|discriminate].
      apply IH. eapply Hstep; eassumption.
    + intros H; inversion H; subst.
      destruct (eofA st'), (eofB st'); simpl in Hc; try discriminate; auto.
Qed.

Lemma fold_left_invariant {A B : Type} (P : A -> Prop) (f : A -> B -> A) l :
  (forall a b, P a -> P (f a b)) -> forall a, P a -> P (fold_left f l a).
Proof.
  intros Hf. induction l as [|b l IH]; intros a Ha; simpl; auto.
Qed.

(** ** Counters *)

Ltac counters_tac :=
  unfold countersNonneg in *; simpl in *;
  repeat match goal with H : _ /\ _ |- _ => destruct H end;
  repeat split; auto using incr_nonneg.

Lemma pairAligned_counters config a b st :
  countersNonneg st -> countersNonneg (pairAligned config a b st).
Proof.
  intros H. unfold pairAligned, areEquals.
  repeat (break_match; simpl); counters_tac.
Qed.

Lemma reconcileA_counters config a h st :
  countersNonneg st -> countersNonneg (reconcileA config a h st).
Proof.
  intros H. unfold reconcileA, searchCache, areEquals.
  repeat (break_match; simpl); counters_tac.
Qed.

Lemma reconcileB_counters config b h st :
  countersNonneg st -> countersNonneg (reconcileB config b h st).
Proof.
  intros H. unfold reconcileB, searchCache, areEquals.
  repeat (break_match; simpl); counters_tac.
Qed.

Lemma dispatch_counters config rowA hashA rowB hashB st :
  countersNonneg st -> countersNonneg (dispatch config rowA hashA rowB hashB st).
Proof.
  intros H. unfold dispatch. destruct rowA as [a|]; [destruct rowB as [b|]|].
  - destruct (hashA =? hashB).
    + apply pairAligned_counters, H.
    + apply reconcileB_counters, reconcileA_counters, H.
  - counters_tac.
  - counters_tac.
Qed.

Lemma classify_counters config rowA rowB st st' :
  countersNonneg st -> classify config rowA rowB st = Ok st' -> countersNonneg st'.
Proof.
  intros Hn. unfold classify, bind, searchCache. intros H.
  destruct rowA as [a|], rowB as [b|];
    repeat (break_match; try discriminate);
    apply Ok_inj in H; subst st'; try exact Hn;
    apply dispatch_counters; counters_tac.
Qed.

Lemma iteration_counters config st st' :
  countersNonneg st -> iteration config st = Ok st' -> countersNonneg st'.
Proof.
  unfold iteration, advance. intros Hn.
  destruct (readRow (readerA st) (eofA st)) as [[rowA eA] rA]. simpl.
  destruct (readRow (readerB st) (eofB st)) as [[rowB eB] rB].
  apply classify_counters. counters_tac.
Qed.

Lemma drain_counters st : countersNonneg st -> countersNonneg (drainB (drainA st)).
Proof.
  intros H. unfold drainB, drainA.
  apply fold_left_invariant; [intros; counters_tac|].
  apply fold_left_invariant; [intros; counters_tac|]. exact H.
Qed.

Lemma finish_status st status st' :
  countersNonneg st -> finish st = Exit status st' ->
  addedCount st' = addedCount st /\ removedCount st' = removedCount st /\
  modifiedCount st' = modifiedCount st /\
  status = if 0 <? addedCount st + removedCount st + modifiedCount st then 1 else 0.
Proof.
  intros (Ha & Hr & Hm). unfold finish.
  destruct (0 <? addedCount st) eqn:E1; destruct (0 <? removedCount st) eqn:E2;
    destruct (0 <? modifiedCount st) eqn:E3; simpl;
    try rewrite E3; intros H; injection H as <- <-; simpl;
    repeat split;
    destruct (0 <? addedCount st + removedCount st + modifiedCount st) eqn:E;
    try reflexivity; lia.
Qed.

(** C2. Exit code law: a run that ends without a fatal fault exits with
    status 1 exactly when the added, removed and modified counters sum to
    more than zero, and with status 0 otherwise. *)
Theorem exit_code_law config inA inB status st :
  main config inA inB = Some (Exit status st) ->
  (status = 1 <-> 0 < addedCount st + removedCount st + modifiedCount st) /\
  (status = 0 <-> ~ 0 < addedCount st + removedCount st + modifiedCount st).
Proof.
  unfold main, run. intros H.
  destruct (loop (turns inA inB) config (initial inA inB)) as [[s|e s]|] eqn:Hl;
    try discriminate.
  apply (loop_invariant countersNonneg) in Hl.
  - destruct Hl as (Hn & _). apply Some_inj in H.
    apply finish_status in H; [|apply drain_counters, Hn].
    destruct H as (Ea & Er & Em & Es). rewrite Ea, Er, Em, Es.
    destruct (0 <? _) eqn:E; split; split; intros; try lia; try discriminate.
  - intros s0 s1 Hs _. apply iteration_counters, Hs.
  - unfold countersNonneg. simpl. lia.
Qed.

(** ** The comparator *)

Lemma compareField_same rowA rowB config maxLen acc i :
  same (compareField rowA rowB config maxLen acc i) = true ->
  compareField rowA rowB config maxLen acc i = acc.
Proof.
  unfold compareField.
  destruct (negb (isIgnored config i) && negb (_ =? _)%string); simpl;
    [discriminate|].
  destruct (same acc) eqn:Hs; simpl; [reflexivity|]. congruence.
Qed.

Lemma padField_same rowA rowB config longest acc i :
  same (padField rowA rowB config longest acc i) = same acc.
Proof.
  unfold padField. repeat (break_match; simpl); reflexivity.
Qed.

Lemma fold_compareField_same rowA rowB config maxLen l acc :
  same (fold_left (compareField rowA rowB config maxLen) l acc) = true ->
  fold_left (compareField rowA rowB config maxLen) l acc = acc.
Proof.
  revert acc. induction l as [|i l IH]; intros acc H; simpl in *; [reflexivity|].
  pose proof (IH _ H) as E. rewrite E in H |- *.
  apply compareField_same, H.
Qed.

Lemma fold_padField_same rowA rowB config longest l acc :
  same (fold_left (padField rowA rowB config longest) l acc) = same acc.
Proof.
  revert acc. induction l as [|i l IH]; intros acc; simpl; [reflexivity|].
  rewrite IH. apply padField_same.
Qed.

(** A verdict of equality means equal lengths, no delta row, and an untouched
    tracking vector. *)
Lemma areEqualsCmp_same rowA rowB config mf :
  same (areEqualsCmp rowA rowB config mf) = true ->
  length rowA = length rowB /\
  areEqualsCmp rowA rowB config mf = {| rowDelta := None; same := true; tracked := mf |}.
Proof.
  unfold areEqualsCmp.
  destruct (length rowB <? length rowA)%nat eqn:E1;
    [|destruct (length rowA <? length rowB)%nat eqn:E2];
    rewrite fold_padField_same; intros H;
    try (apply fold_compareField_same in H as H'; rewrite H' in H; discriminate).
  apply fold_compareField_same in H as H'. rewrite H'.
  apply Nat.ltb_ge in E1, E2.
  assert (length rowA = length rowB) as E by lia. split; [exact E|].
  rewrite E, Nat.sub_diag. reflexivity.
Qed.

Lemma compareField_skip rowA rowB config maxLen acc i :
  same acc = true ->
  isIgnored config i = true \/ nth i rowA EmptyString = nth i rowB EmptyString ->
  compareField rowA rowB config maxLen acc i = acc.
Proof.
  intros Hs H. unfold compareField. cbv zeta.
  assert (negb (isIgnored config i)
          && negb (nth i rowA EmptyString =? nth i rowB EmptyString)%string = false) as ->.
  { destruct H as [-> | ->]; [reflexivity|].
    rewrite String.eqb_refl. apply andb_false_r. }
  rewrite Hs. reflexivity.
Qed.

(** Rows of one length that agree at every compared position are equal for
    the comparator. *)
Lemma areEqualsCmp_agree rowA rowB config mf :
  length rowA = length rowB ->
  (forall i, (i < length rowA)%nat ->
     isIgnored config i = true \/ nth i rowA EmptyString = nth i rowB EmptyString) ->
  areEqualsCmp rowA rowB config mf = {| rowDelta := None; same := true; tracked := mf |}.
Proof.
  intros E H. unfold areEqualsCmp.
  rewrite <- E, Nat.ltb_irrefl, Nat.sub_diag. simpl.
  assert (forall l acc, same acc = true -> (forall i, In i l -> (i < length rowA)%nat) ->
            fold_left (compareField rowA rowB config (length rowA)) l acc = acc) as F.
  { induction l as [|i l IH]; intros acc Hs Hl; simpl; [reflexivity|].
    rewrite compareField_skip; [|exact Hs|apply H, Hl; left; reflexivity].
    apply IH; [exact Hs|]. intros j Hj. apply Hl. right. exact Hj. }
  apply F; [reflexivity|]. intros i Hi. apply in_seq in Hi. lia.
Qed.

Lemma areEquals_refl row config mf :
  areEquals row row config mf = (None, true, mf).
Proof.
  unfold areEquals. rewrite areEqualsCmp_agree; auto.
Qed.

Lemma copyAt_cons x dst off src :
  copyAt (x :: dst) (S off) src = x :: copyAt dst off src.
Proof.
  revert dst off. induction src as [|y src IH]; intros dst off; simpl; [reflexivity|].
  apply IH.
Qed.

Lemma copyAt_length dst off src : length (copyAt dst off src) = length dst.
Proof.
  revert dst off. induction src as [|y src IH]; intros dst off; simpl; [reflexivity|].
  rewrite IH. apply length_insert.
Qed.

Lemma isDeltaRow_new maxLen : isDeltaRow maxLen (Some (newDelta maxLen)).
Proof.
  unfold isDeltaRow, newDelta. simpl. eexists. split; [reflexivity|].
  apply length_replicate.
Qed.

Lemma isDeltaRow_insert maxLen rd i v :
  isDeltaRow maxLen rd -> isDeltaRow maxLen (<[S i := v]> <$> rd).
Proof.
  intros (r & -> & Hl). simpl. eexists. split; [reflexivity|].
  rewrite length_insert. exact Hl.
Qed.

Lemma isDeltaRow_copy maxLen src :
  isDeltaRow maxLen (Some (copyAt (newDelta maxLen) 1 src)).
Proof.
  unfold newDelta. simpl. rewrite copyAt_cons. eexists. split; [reflexivity|].
  rewrite copyAt_length. apply length_replicate.
Qed.

Lemma compareField_delta rowA rowB config maxLen acc i :
  (same acc = false -> isDeltaRow maxLen (rowDelta acc)) ->
  same (compareField rowA rowB config maxLen acc i) = false ->
  isDeltaRow maxLen (rowDelta (compareField rowA rowB config maxLen acc i)).
Proof.
  intros Hacc. unfold compareField.
  destruct (negb (isIgnored config i) && negb (_ =? _)%string); simpl.
  - intros _. apply isDeltaRow_insert.
    destruct (same acc); [apply isDeltaRow_copy | auto].
  - destruct (same acc) eqn:Hs; simpl; [congruence|].
    intros _. apply isDeltaRow_insert. auto.
Qed.

Lemma padField_delta rowA rowB config maxLen longest acc i :
  isDeltaRow maxLen (rowDelta acc) ->
  isDeltaRow maxLen (rowDelta (padField rowA rowB config longest acc i)).
Proof.
  intros H. unfold padField.
  repeat (break_match; simpl); auto using isDeltaRow_insert.
Qed.

Lemma areEqualsCmp_delta rowA rowB config mf :
  same (areEqualsCmp rowA rowB config mf) = false ->
  isDeltaRow (Nat.max (length rowA) (length rowB))
             (rowDelta (areEqualsCmp rowA rowB config mf)).
Proof.
  unfold areEqualsCmp.
  assert (forall maxLen l acc,
            (same acc = false -> isDeltaRow maxLen (rowDelta acc)) ->
            let r := fold_left (compareField rowA rowB config maxLen) l acc in
            same r = false -> isDeltaRow maxLen (rowDelta r)) as F1.
  { intros maxLen. induction l as [|i l IH]; intros acc Hacc; simpl; [exact Hacc|].
    apply IH. apply compareField_delta, Hacc. }
  assert (forall maxLen longest l acc,
            isDeltaRow maxLen (rowDelta acc) ->
            isDeltaRow maxLen
              (rowDelta (fold_left (padField rowA rowB config longest) l acc))) as F2.
  { intros maxLen longest. induction l as [|i l IH]; intros acc Hacc; simpl;
      [exact Hacc|]. apply IH, padField_delta, Hacc. }
  destruct (length rowB <? length rowA)%nat eqn:E1;
    [|destruct (length rowA <? length rowB)%nat eqn:E2];
    rewrite fold_padField_same; intros H.
  - apply Nat.ltb_lt in E1. rewrite Nat.max_l by lia.
    apply F2, F1; [intros _; apply isDeltaRow_new | exact H].
  - apply Nat.ltb_lt in E2. rewrite Nat.max_r by lia.
    apply F2, F1; [intros _; apply isDeltaRow_new | exact H].
  - apply Nat.ltb_ge in E1, E2. rewrite Nat.max_r by lia.
    apply F2, F1; [simpl; discriminate | exact H].
Qed.

Lemma compareField_tracked rowA rowB config maxLen n acc i :
  (i < n)%nat -> same acc = true \/ same acc = false ->
  trackedInv n acc -> trackedInv n (compareField rowA rowB config maxLen acc i).
Proof.
  intros Hi _ (v & Hv & Hl & Hm). unfold compareField. cbv zeta.
  destruct (negb (isIgnored config i) && negb (_ =? _)%string); simpl.
  - unfold trackedInv. simpl. rewrite Hv. unfold update.
    assert ((i <? length v)%nat = true) as -> by (apply Nat.ltb_lt; lia).
    exists (<[i := true]> v). split; [reflexivity|].
    split; [rewrite length_insert; exact Hl|].
    intros _. exists i. apply list_lookup_insert_eq. lia.
  - destruct (same acc) eqn:Hs; simpl.
    + exists v. rewrite Hs. auto.
    + exists v. simpl. auto.
Qed.

Lemma replicate_false_no_mark n i : replicate n false !! i <> Some true.
Proof.
  intros H. apply lookup_replicate in H. destruct H as [H _]. discriminate.
Qed.

Lemma areEqualsCmp_marks rowA rowB config n :
  length rowA = length rowB -> (length rowA <= n)%nat ->
  tracked (areEqualsCmp rowA rowB config (makeBools n)) = makeBools n ->
  same (areEqualsCmp rowA rowB config (makeBools n)) = true.
Proof.
  intros E Hn. unfold areEqualsCmp.
  rewrite <- E, Nat.ltb_irrefl, Nat.sub_diag. simpl.
  assert (forall l acc, (forall i, In i l -> (i < n)%nat) -> trackedInv n acc ->
            trackedInv n (fold_left (compareField rowA rowB config (length rowA)) l acc))
    as F.
  { induction l as [|i l IH]; intros acc Hl Hacc; simpl; [exact Hacc|].
    apply IH; [intros j Hj; apply Hl; right; exact Hj|].
    apply compareField_tracked; [apply Hl; left; reflexivity| |exact Hacc].
    destruct (same acc); auto. }
  set (init := {| rowDelta := None; same := true; tracked := makeBools n |}).
  destruct (F (seq 0 (length rowA)) init) as (v & Hv & Hl & Hm).
  { intros i Hi. apply in_seq in Hi. lia. }
  { exists (replicate n false). simpl. split; [reflexivity|].
    split; [apply length_replicate | discriminate]. }
  intros Ht. destruct (same _) eqn:Hs; [reflexivity|].
  destruct (Hm eq_refl) as [i Hi]. rewrite Hv in Ht.
  unfold makeBools in Ht. apply Some_inj in Ht. subst v.
  exfalso. eapply replicate_false_no_mark, Hi.
Qed.

(** C3 (amended). The comparator reports a pair as equal exactly when the two
    rows have the same number of fields and no position was marked as changed
    (marks are read off a fresh tracking vector long enough for both rows);
    in particular two rows of the same length whose differing positions all
    lie in the ignored set are classified as unchanged, with no delta row. *)
Theorem areEquals_equal_iff (rowA rowB : list string) (config : Config) :
  let n := Nat.max (length rowA) (length rowB) in
  (snd (fst (areEquals rowA rowB config (makeBools n))) = true <->
   length rowA = length rowB /\
   snd (areEquals rowA rowB config (makeBools n)) = makeBools n) /\
  (length rowA = length rowB ->
   (forall i, rowA !! i <> rowB !! i -> Z.of_nat i ∈ ignoredFields config) ->
   forall mf, areEquals rowA rowB config mf = (None, true, mf)).
Proof.
  intros n. unfold areEquals. simpl. split; [split|].
  - intros H. apply areEqualsCmp_same in H. destruct H as [E ->]. auto.
  - intros [E H]. apply areEqualsCmp_marks; [exact E | lia | exact H].
  - intros E H mf. rewrite areEqualsCmp_agree; [reflexivity | exact E |].
    intros i Hi. unfold isIgnored.
    destruct (decide (rowA !! i = rowB !! i)) as [Heq|Hne].
    + right. rewrite !nth_lookup, Heq. reflexivity.
    + left. apply bool_decide_eq_true. apply H, Hne.
Qed.

(** On ragged rows the verdict and the marks part: the only position at which
    ["a"] and ["a"; "b"] differ is ignored and nothing is marked, yet the
    pair is reported as a modification, with a delta row.  A run meets such a
    pair after the first aligned pair passed the range check. *)
Lemma areEquals_ragged_ignored :
  (forall i : nat, ["a"] !! i <> ["a"; "b"] !! i ->
                   Z.of_nat i ∈ ignoredFields raggedConfig) /\
  snd (areEquals ["a"] ["a"; "b"] raggedConfig (makeBools 2)) = makeBools 2 /\
  fst (areEquals ["a"] ["a"; "b"] raggedConfig (makeBools 2))
  = (Some ["#"; "a"; ""], false) /\
  match main raggedConfig (readerOf [["k"; "x"]; ["a"]])
             (readerOf [["k"; "x"]; ["a"; "b"]]) with
  | Some (Exit status st) =>
      stdout st = [["="; "k"; "x"]; ["#"; "a"; ""]] /\
      modifiedCount st = 1 /\ status = 1
  | _ => False
  end.
Proof.
  split; [|split; [|split]]; try (vm_compute; repeat split; reflexivity).
  intros [|[|i]] H; simpl in H; try congruence.
  - unfold raggedConfig. simpl. set_solver.
  - rewrite lookup_nil in H. congruence.
Qed.

Lemma areEquals_equal_iff_witness :
  areEquals ["k"; "x"] ["k"; "y"] raggedConfig None = (None, true, None).
Proof.
  apply (areEquals_equal_iff ["k"; "x"] ["k"; "y"]); [reflexivity|].
  intros [|[|i]] H; simpl in H; try congruence.
  unfold raggedConfig. simpl. set_solver.
Defined.

(** ** Duplicate keys on one side *)

Lemma advance_first st rowA rowB st1 :
  advance st = (rowA, rowB, st1) -> first st1 = first st.
Proof.
  unfold advance.
  destruct (readRow (readerA st) (eofA st)) as [[rA eA] rdA]. simpl.
  destruct (readRow (readerB st) (eofB st)) as [[rB eB] rdB].
  intros H; inversion H; subst. reflexivity.
Qed.

(** A turn that reads two rows with different key hashes runs the two halves
    of the misaligned branch, one after the other. *)
Lemma iteration_misaligned config st a b st1 hashA hashB :
  advance st = (Some a, Some b, st1) ->
  (first st = true -> checkRow (Some a) (Some b) config = Ok tt) ->
  hashRow a (keys config) = Ok hashA ->
  hashRow b (keys config) = Ok hashB ->
  hashA <> hashB ->
  iteration config st
  = Ok (reconcileB config b hashB
          (reconcileA config a hashA (set_totalCount (incr (totalCount st1)) st1))).
Proof.
  intros Ha Hc HA HB Hne. unfold iteration. rewrite Ha.
  pose proof (advance_first _ _ _ _ Ha) as Hf.
  unfold classify. rewrite Hf.
  assert ((if first st then checkRow (Some a) (Some b) config else Ok tt) = Ok tt) as ->.
  { destruct (first st); [apply Hc|]; reflexivity. }
  simpl. rewrite HA, HB. simpl.
  apply Z.eqb_neq in Hne. rewrite Hne. reflexivity.
Qed.

Lemma reconcileA_duplicate config a hashA s old :
  cacheA s !! hashA = Some old -> cacheB s !! hashA = None ->
  cacheA (reconcileA config a hashA s) = <[hashA := a]> (cacheA s) /\
  cacheB (reconcileA config a hashA s) = cacheB s /\
  stderr (reconcileA config a hashA s) = stderr s ++ [DuplicateFirst a] /\
  stdout (reconcileA config a hashA s) = stdout s.
Proof.
  intros HA HB. unfold reconcileA, searchCache. rewrite HB. simpl.
  rewrite HA. simpl. rewrite deepCopy_id. auto.
Qed.

Lemma reconcileB_duplicate config b hashB s old :
  cacheB s !! hashB = Some old -> cacheA s !! hashB = None ->
  cacheB (reconcileB config b hashB s) = <[hashB := b]> (cacheB s) /\
  cacheA (reconcileB config b hashB s) = cacheA s /\
  stderr (reconcileB config b hashB s) = stderr s ++ [DuplicateSecond b] /\
  stdout (reconcileB config b hashB s) = stdout s.
Proof.
  intros HB HA. unfold reconcileB, searchCache. rewrite HA. simpl.
  rewrite HB. simpl. rewrite deepCopy_id. auto.
Qed.

Lemma searchCache_insert (cache : gmap Z (list string)) key row :
  searchCache (<[key := row]> cache) key = (Some row, true, key, delete key cache).
Proof.
  unfold searchCache. rewrite lookup_insert_eq, delete_insert_eq. reflexivity.
Qed.

(** C5. Duplicate key handling.  In a turn that reads a row from each input
    with different key hashes, the two halves of the misaligned branch run and
    the loop goes on.  In either half, when the hash of the arriving row
    already occupies the cache of its own side and the other side holds no
    match, the arriving row replaces the cached one under that hash, exactly
    one duplicate-key warning goes to standard error, nothing is written to
    the delta stream, and a later probe by the other side with that hash
    finds the second row. *)
Theorem duplicate_key_overwrite config st a b st1 hashA hashB :
  advance st = (Some a, Some b, st1) ->
  (first st = true -> checkRow (Some a) (Some b) config = Ok tt) ->
  hashRow a (keys config) = Ok hashA ->
  hashRow b (keys config) = Ok hashB ->
  hashA <> hashB ->
  iteration config st
  = Ok (reconcileB config b hashB
          (reconcileA config a hashA (set_totalCount (incr (totalCount st1)) st1))) /\
  (forall s old,
     cacheA s !! hashA = Some old -> cacheB s !! hashA = None ->
     let s' := reconcileA config a hashA s in
     cacheA s' = <[hashA := a]> (cacheA s) /\
     stderr s' = stderr s ++ [DuplicateFirst a] /\
     stdout s' = stdout s /\
     searchCache (cacheA s') hashA = (Some a, true, hashA, delete hashA (cacheA s))) /\
  (forall s old,
     cacheB s !! hashB = Some old -> cacheA s !! hashB = None ->
     let s' := reconcileB config b hashB s in
     cacheB s' = <[hashB := b]> (cacheB s) /\
     stderr s' = stderr s ++ [DuplicateSecond b] /\
     stdout s' = stdout s /\
     searchCache (cacheB s') hashB = (Some b, true, hashB, delete hashB (cacheB s))).
Proof.
  intros Ha Hc HA HB Hne. split; [|split].
  - eapply iteration_misaligned; eassumption.
  - intros s old H1 H2 s'. subst s'.
    destruct (reconcileA_duplicate config a hashA s old H1 H2) as (E1 & _ & E3 & E4).
    rewrite E1, searchCache_insert. auto.
  - intros s old H1 H2 s'. subst s'.
    destruct (reconcileB_duplicate config b hashB s old H1 H2) as (E1 & _ & E3 & E4).
    rewrite E1, searchCache_insert. auto.
Qed.

(** ** What one comparison does to the state *)

Lemma fieldsOf_delta rowA rowB config mf :
  same (areEqualsCmp rowA rowB config mf) = false ->
  exists r, fieldsOf (rowDelta (areEqualsCmp rowA rowB config mf)) = "#" :: r.
Proof.
  intros H. apply areEqualsCmp_delta in H. destruct H as (r & -> & _).
  exists r. reflexivity.
Qed.

Lemma pairAligned_effect config a b st :
  cacheA (pairAligned config a b st) = cacheA st /\
  cacheB (pairAligned config a b st) = cacheB st /\
  first (pairAligned config a b st) = false /\
  compared config a b a (negb (noHeader config) && first st) st
           (pairAligned config a b st).
Proof.
  unfold pairAligned, compared, areEquals. simpl.
  destruct (same (areEqualsCmp a b config (modifiedFields st))) eqn:Hs.
  - destruct (first st) eqn:Hf, (noHeader config) eqn:Hn, (common config) eqn:Hc;
      simpl; rewrite ?Hf; simpl;
      repeat split; left; repeat split; auto.
  - destruct (fieldsOf_delta _ _ _ _ Hs) as [r Hr]. rewrite Hr.
    destruct (first st) eqn:Hf, (noHeader config) eqn:Hn;
      simpl; rewrite ?Hf; simpl;
      repeat split; right; repeat split; eauto.
Qed.

Lemma reconcileA_found config a hashA st altB :
  cacheB st !! hashA = Some altB ->
  cacheA (reconcileA config a hashA st) = cacheA st /\
  cacheB (reconcileA config a hashA st) = delete hashA (cacheB st) /\
  first (reconcileA config a hashA st) = first st /\
  compared config a altB a false st (reconcileA config a hashA st).
Proof.
  intros H. unfold reconcileA, searchCache, compared, areEquals. rewrite H. simpl.
  destruct (same (areEqualsCmp a altB config (modifiedFields st))) eqn:Hs; simpl.
  - destruct (common config) eqn:Hc; simpl;
      repeat split; left; repeat split; auto.
  - destruct (fieldsOf_delta _ _ _ _ Hs) as [r Hr]. rewrite Hr.
    repeat split; right; repeat split; eauto.
Qed.

Lemma reconcileA_pending config a hashA st :
  cacheB st !! hashA = None ->
  cacheA (reconcileA config a hashA st) = <[hashA := a]> (cacheA st) /\
  cacheB (reconcileA config a hashA st) = cacheB st /\
  first (reconcileA config a hashA st) = first st /\
  stdout (reconcileA config a hashA st) = stdout st /\
  addedCount (reconcileA config a hashA st) = addedCount st /\
  removedCount (reconcileA config a hashA st) = removedCount st /\
  modifiedCount (reconcileA config a hashA st) = modifiedCount st /\
  modifiedFields (reconcileA config a hashA st) = modifiedFields st.
Proof.
  intros H. unfold reconcileA, searchCache. rewrite H. simpl.
  rewrite deepCopy_id. destruct (cacheA st !! hashA); simpl; repeat split.
Qed.

Lemma reconcileB_found config b hashB st altA :
  cacheA st !! hashB = Some altA ->
  cacheB (reconcileB config b hashB st) = cacheB st /\
  cacheA (reconcileB config b hashB st) = delete hashB (cacheA st) /\
  first (reconcileB config b hashB st) = first st /\
  compared config altA b b false st (reconcileB config b hashB st).
Proof.
  intros H. unfold reconcileB, searchCache, compared, areEquals. rewrite H. simpl.
  destruct (same (areEqualsCmp altA b config (modifiedFields st))) eqn:Hs; simpl.
  - destruct (common config) eqn:Hc; simpl;
      repeat split; left; repeat split; auto.
  - destruct (fieldsOf_delta _ _ _ _ Hs) as [r Hr]. rewrite Hr.
    repeat split; right; repeat split; eauto.
Qed.

Lemma reconcileB_pending config b hashB st :
  cacheA st !! hashB = None ->
  cacheB (reconcileB config b hashB st) = <[hashB := b]> (cacheB st) /\
  cacheA (reconcileB config b hashB st) = cacheA st /\
  first (reconcileB config b hashB st) = first st /\
  stdout (reconcileB config b hashB st) = stdout st /\
  addedCount (reconcileB config b hashB st) = addedCount st /\
  removedCount (reconcileB config b hashB st) = removedCount st /\
  modifiedCount (reconcileB config b hashB st) = modifiedCount st /\
  modifiedFields (reconcileB config b hashB st) = modifiedFields st.
Proof.
  intros H. unfold reconcileB, searchCache. rewrite H. simpl.
  rewrite deepCopy_id. destruct (cacheB st !! hashB); simpl; repeat split.
Qed.

(** ** Unchanged rows in the delta stream *)

Lemma appends_refl Q st st' : stdout st' = stdout st -> appends Q st st'.
Proof. intros H. exists []. rewrite app_nil_r. auto. Qed.

Lemma appends_trans Q st1 st2 st3 :
  appends Q st1 st2 -> appends Q st2 st3 -> appends Q st1 st3.
Proof.
  intros (n1 & E1 & F1) (n2 & E2 & F2). exists (n1 ++ n2).
  rewrite E2, E1, app_assoc. split; [reflexivity|].
  apply Forall_app; auto.
Qed.

Lemma appends_weaken (Q Q' : list string -> Prop) st st' :
  (forall row, Q row -> Q' row) -> appends Q st st' -> appends Q' st st'.
Proof.
  intros H (n & E & F). exists n. split; [exact E|].
  eapply List.Forall_impl; [|exact F]. exact H.
Qed.

Lemma compared_appends config x y echo hdr st st' :
  compared config x y echo hdr st st' ->
  appends (echoOnly (common config = true \/ hdr = true)) st st'.
Proof.
  intros (_ & _ & _ & [(_ & _ & [E | [E H]]) | (_ & _ & r & E)]).
  - apply appends_refl, E.
  - exists [delta echo "="]. split; [exact E|].
    constructor; [|constructor]. intros _. exact H.
  - exists ["#" :: r]. split; [exact E|].
    constructor; [|constructor]. intros H. discriminate.
Qed.

Lemma reconcileA_appends config a hashA st :
  first (reconcileA config a hashA st) = first st /\
  appends (echoOnly (common config = true)) st (reconcileA config a hashA st).
Proof.
  destruct (cacheB st !! hashA) as [altB|] eqn:H.
  - destruct (reconcileA_found config a hashA st altB H) as (_ & _ & Hf & Hc).
    split; [exact Hf|]. apply compared_appends in Hc.
    eapply appends_weaken; [|exact Hc].
    intros row Hrow Hm. destruct (Hrow Hm); [assumption | discriminate].
  - destruct (reconcileA_pending config a hashA st H) as (_ & _ & Hf & Ho & _).
    split; [exact Hf|]. apply appends_refl, Ho.
Qed.

Lemma reconcileB_appends config b hashB st :
  first (reconcileB config b hashB st) = first st /\
  appends (echoOnly (common config = true)) st (reconcileB config b hashB st).
Proof.
  destruct (cacheA st !! hashB) as [altA|] eqn:H.
  - destruct (reconcileB_found config b hashB st altA H) as (_ & _ & Hf & Hc).
    split; [exact Hf|]. apply compared_appends in Hc.
    eapply appends_weaken; [|exact Hc].
    intros row Hrow Hm. destruct (Hrow Hm); [assumption | discriminate].
  - destruct (reconcileB_pending config b hashB st H) as (_ & _ & Hf & Ho & _).
    split; [exact Hf|]. apply appends_refl, Ho.
Qed.

Lemma dispatch_appends config rowA hashA rowB hashB st :
  appends (echoRule config st (dispatch config rowA hashA rowB hashB st))
          st (dispatch config rowA hashA rowB hashB st).
Proof.
  unfold dispatch. destruct rowA as [a|]; [destruct rowB as [b|]|].
  - destruct (hashA =? hashB).
    + destruct (pairAligned_effect config a b st) as (_ & _ & Hf & Hc).
      apply compared_appends in Hc. eapply appends_weaken; [|exact Hc].
      intros row Hrow Hm. destruct (Hrow Hm) as [H|H]; [left; exact H|].
      right. apply andb_true_iff in H. destruct H as [Hn Hfst].
      apply negb_true_iff in Hn. auto.
    + destruct (reconcileA_appends config a hashA st) as [_ H1].
      destruct (reconcileB_appends config b hashB (reconcileA config a hashA st))
        as [_ H2].
      pose proof (appends_trans _ _ _ _ H1 H2) as H.
      eapply appends_weaken; [|exact H].
      intros row Hrow Hm. left. exact (Hrow Hm).
  - exists [delta a "-"]. split; [reflexivity|].
    constructor; [|constructor]. intros H; discriminate.
  - exists [delta (fieldsOf rowB) "+"]. split; [reflexivity|].
    constructor; [|constructor]. intros H; discriminate.
Qed.

Lemma classify_appends config rowA rowB st st' :
  classify config rowA rowB st = Ok st' -> appends (echoRule config st st') st st'.
Proof.
  assert (Hd : forall rA hA rB hB s0,
            stdout s0 = stdout st -> first s0 = first st ->
            appends (echoRule config st (dispatch config rA hA rB hB s0))
                    st (dispatch config rA hA rB hB s0)).
  { intros rA hA rB hB s0 Ho Hf.
    pose proof (dispatch_appends config rA hA rB hB s0) as H.
    unfold appends, echoRule in *. rewrite Ho, Hf in H. exact H. }
  unfold classify, bind, searchCache. intros H.
  destruct rowA as [a|], rowB as [b|];
    repeat (break_match; try discriminate);
    apply Ok_inj in H; subst st';
    try (apply appends_refl; reflexivity);
    apply Hd; simpl; auto.
Qed.

Lemma advance_stdout st rowA rowB st1 :
  advance st = (rowA, rowB, st1) -> stdout st1 = stdout st.
Proof.
  unfold advance.
  destruct (readRow (readerA st) (eofA st)) as [[rA eA] rdA]. simpl.
  destruct (readRow (readerB st) (eofB st)) as [[rB eB] rdB].
  intros H; inversion H; subst. reflexivity.
Qed.

Lemma dispatch_first_off config rowA hashA rowB hashB st :
  first st = false -> first (dispatch config rowA hashA rowB hashB st) = false.
Proof.
  intros Hf. unfold dispatch. destruct rowA as [a|]; [destruct rowB as [b|]|].
  - destruct (hashA =? hashB).
    + apply pairAligned_effect.
    + destruct (reconcileA_appends config a hashA st) as [H1 _].
      destruct (reconcileB_appends config b hashB (reconcileA config a hashA st))
        as [H2 _].
      congruence.
  - exact Hf.
  - exact Hf.
Qed.

Lemma classify_first_off config rowA rowB st st' :
  classify config rowA rowB st = Ok st' -> first st = false -> first st' = false.
Proof.
  unfold classify, bind, searchCache. intros H Hf. rewrite Hf in H.
  destruct rowA as [a|], rowB as [b|];
    repeat (break_match; try discriminate);
    apply Ok_inj in H; subst st'; try exact Hf;
    apply dispatch_first_off; exact Hf.
Qed.

(** C9 (amended). For a pair classified as equal the comparator produces no
    delta row.  In every turn of the loop, a row behind the marker [=] is
    written only when common rows were requested, or when the turn pairs the
    first aligned rows of the run and the inputs have a header: that one row
    is echoed behind [=] whatever the request, and [first] is off afterwards.
    Once off, [first] stays off, so the echo happens at most once in a run. *)
Theorem unchanged_rows_emission config :
  (forall rowA rowB mf rowDelta tv,
     areEquals rowA rowB config mf = (rowDelta, true, tv) -> rowDelta = None) /\
  (forall st st',
     iteration config st = Ok st' ->
     exists new, stdout st' = stdout st ++ new /\
       forall fields, In ("=" :: fields) new ->
         common config = true \/
         (noHeader config = false /\ first st = true /\ first st' = false)) /\
  (forall st st',
     iteration config st = Ok st' -> first st = false -> first st' = false).
Proof.
  split; [|split].
  - unfold areEquals. intros rowA rowB mf rd tv H. inversion H as [[Hd Hs Ht]].
    apply areEqualsCmp_same in Hs. destruct Hs as [_ ->]. reflexivity.
  - intros st st'. unfold iteration.
    destruct (advance st) as [[rowA rowB] st1] eqn:Ha. intros H.
    apply classify_appends in H. destruct H as (new & E & F).
    exists new. rewrite E, (advance_stdout _ _ _ _ Ha). split; [reflexivity|].
    intros fields Hin. rewrite List.Forall_forall in F.
    rewrite <- (advance_first _ _ _ _ Ha). apply (F _ Hin). reflexivity.
  - intros st st'. unfold iteration.
    destruct (advance st) as [[rowA rowB] st1] eqn:Ha. intros H Hf.
    eapply classify_first_off; [exact H|].
    rewrite (advance_first _ _ _ _ Ha). exact Hf.
Qed.

(** ** Configuration faults *)

Lemma rowLen_nonneg row : 0 <= rowLen row.
Proof. destruct row; simpl; lia. Qed.

Lemma keyOutOfRange_spec rowA rowB k :
  0 <= k < two64 ->
  keyOutOfRange rowA rowB k = true <->
  k < two63 /\ (rowLen rowA < k + 1 \/ rowLen rowB < k + 1).
Proof.
  intros Hk. unfold keyOutOfRange, int_of_uint64.
  pose proof (rowLen_nonneg rowA). pose proof (rowLen_nonneg rowB).
  rewrite orb_true_iff, !Z.leb_le.
  destruct (k <? two63) eqn:E;
    [apply Z.ltb_lt in E | apply Z.ltb_ge in E]; unfold two63, two64 in *; lia.
Qed.

Lemma fieldOutOfRange_spec rowA rowB f :
  fieldOutOfRange rowA rowB f = true <-> rowLen rowA < f + 1 \/ rowLen rowB < f + 1.
Proof.
  unfold fieldOutOfRange. rewrite orb_true_iff, !Z.leb_le. lia.
Qed.

Lemma checkRow_key config rowA rowB k :
  In k (keys config) -> keyOutOfRange rowA rowB k = true ->
  exists k', In k' (keys config) /\ keyOutOfRange rowA rowB k' = true /\
    checkRow rowA rowB config = Err (LogFatal (KeyIndexOutOfRange (wrap64 (k' + 1)))).
Proof.
  intros Hin Hk. unfold checkRow.
  destruct (List.find (keyOutOfRange rowA rowB) (keys config)) as [k'|] eqn:Hf.
  - apply find_some in Hf. destruct Hf. eauto.
  - exfalso. eapply find_none in Hf; [|exact Hin]. congruence.
Qed.

Lemma checkRow_field config rowA rowB f :
  f ∈ ignoredFields config -> fieldOutOfRange rowA rowB f = true ->
  (exists k', In k' (keys config) /\ keyOutOfRange rowA rowB k' = true /\
     checkRow rowA rowB config = Err (LogFatal (KeyIndexOutOfRange (wrap64 (k' + 1))))) \/
  (exists f', f' ∈ ignoredFields config /\ fieldOutOfRange rowA rowB f' = true /\
     checkRow rowA rowB config
     = Err (LogFatal (IgnoredFieldOutOfRange (wrap_int (f' + 1))))).
Proof.
  intros Hin Hf. unfold checkRow.
  destruct (List.find (keyOutOfRange rowA rowB) (keys config)) as [k'|] eqn:Hk.
  - left. apply find_some in Hk. destruct Hk. eauto.
  - right.
    destruct (List.find (fieldOutOfRange rowA rowB) (elements (ignoredFields config)))
      as [f'|] eqn:Hf'.
    + apply find_some in Hf'. destruct Hf' as [H1 H2].
      apply list_elem_of_In, elem_of_elements in H1. eauto.
    + exfalso. eapply find_none in Hf'; [|apply list_elem_of_In, elem_of_elements, Hin].
      congruence.
Qed.

Lemma advance_rows st rowA rowB st1 :
  advance st = (rowA, rowB, st1) ->
  (eofA st = true -> rowA = None) /\ (eofB st = true -> rowB = None).
Proof.
  unfold advance.
  destruct (readRow (readerA st) (eofA st)) as [[rA eA] rdA] eqn:HA. simpl.
  destruct (readRow (readerB st) (eofB st)) as [[rB eB] rdB] eqn:HB.
  intros H; inversion H; subst.
  split; intros E; [rewrite E in HA | rewrite E in HB];
    unfold readRow in *; congruence.
Qed.

Lemma classify_check_fails config rowA rowB st e :
  rowA <> None \/ rowB <> None -> first st = true ->
  checkRow rowA rowB config = Err e ->
  classify config rowA rowB st = Err e.
Proof.
  intros Hr Hf Hc. unfold classify. rewrite Hf, Hc.
  destruct rowA, rowB; simpl; try reflexivity. destruct Hr; congruence.
Qed.

Lemma loop_stops config fuel st e :
  negb (eofA st) || negb (eofB st) = true ->
  iteration config st = Err e ->
  loop (S fuel) config st = Some (Stopped e st).
Proof. intros Hc Hi. simpl. rewrite Hc, Hi. reflexivity. Qed.

(** C7 (amended). Take a turn of the loop entered before the first aligned
    pair was classified ([first] still on) that reads at least one row.  If
    some configured key index, or ignored-field index, of 1-based value [u]
    with [1 <= u < 2^63] exceeds the number of fields of one of the two rows
    of the turn, then the process stops in [log.Fatalf] before anything more
    is written: the loop ends in the state the turn started from, and the
    message carries a configured 1-based index [u'] that is out of range
    for one of the two rows. *)
Theorem config_fault_fatal config st rowA rowB st1 u :
  machineIndexes config ->
  advance st = (rowA, rowB, st1) ->
  first st = true ->
  rowA <> None \/ rowB <> None ->
  1 <= u < two63 ->
  In (u - 1) (keys config) \/ (u - 1) ∈ ignoredFields config ->
  rowLen rowA < u \/ rowLen rowB < u ->
  exists u' e,
    1 <= u' /\ (rowLen rowA < u' \/ rowLen rowB < u') /\
    ((In (u' - 1) (keys config) /\ e = KeyIndexOutOfRange u') \/
     ((u' - 1) ∈ ignoredFields config /\ e = IgnoredFieldOutOfRange u')) /\
    iteration config st = Err (LogFatal e) /\
    forall fuel, loop (S fuel) config st = Some (Stopped (LogFatal e) st).
Proof.
  intros [HK HI] Ha Hf Hr Hu Hin Hlen.
  assert (Hstop : forall e, checkRow rowA rowB config = Err (LogFatal e) ->
            iteration config st = Err (LogFatal e) /\
            forall fuel, loop (S fuel) config st = Some (Stopped (LogFatal e) st)).
  { intros e He.
    assert (iteration config st = Err (LogFatal e)) as Hi.
    { unfold iteration. rewrite Ha. apply classify_check_fails; auto.
      rewrite (advance_first _ _ _ _ Ha). exact Hf. }
    split; [exact Hi|]. intros fuel. apply loop_stops; [|exact Hi].
    destruct (advance_rows _ _ _ _ Ha) as [H1 H2].
    destruct (eofA st), (eofB st); simpl; try reflexivity.
    destruct Hr as [Hr|Hr]; exfalso; apply Hr; auto. }
  assert (Hkey : forall k', In k' (keys config) -> keyOutOfRange rowA rowB k' = true ->
            checkRow rowA rowB config
            = Err (LogFatal (KeyIndexOutOfRange (wrap64 (k' + 1)))) ->
            exists u' e,
              1 <= u' /\ (rowLen rowA < u' \/ rowLen rowB < u') /\
              ((In (u' - 1) (keys config) /\ e = KeyIndexOutOfRange u') \/
               ((u' - 1) ∈ ignoredFields config /\ e = IgnoredFieldOutOfRange u')) /\
              iteration config st = Err (LogFatal e) /\
              forall fuel, loop (S fuel) config st = Some (Stopped (LogFatal e) st)).
  { intros k' Hin' Hk' Hc.
    rewrite List.Forall_forall in HK. pose proof (HK _ Hin') as Hr'.
    apply keyOutOfRange_spec in Hk'; [|exact Hr']. destruct Hk' as [Hlt Hout].
    assert (wrap64 (k' + 1) = k' + 1) as Ew.
    { unfold wrap64. apply Z.mod_small. unfold two63, two64 in *. lia. }
    rewrite Ew in Hc. exists (k' + 1), (KeyIndexOutOfRange (k' + 1)).
    split; [lia|]. split; [exact Hout|]. split.
    - left. replace (k' + 1 - 1) with k' by lia. auto.
    - apply Hstop, Hc. }
  destruct Hin as [Hin|Hin].
  - destruct (checkRow_key config rowA rowB (u - 1) Hin) as (k' & Hin' & Hk' & Hc).
    { rewrite List.Forall_forall in HK.
      apply keyOutOfRange_spec; [apply HK, Hin|]. lia. }
    eapply Hkey; eassumption.
  - destruct (checkRow_field config rowA rowB (u - 1) Hin)
      as [(k' & Hin' & Hk' & Hc) | (f' & Hin' & Hf' & Hc)].
    { apply fieldOutOfRange_spec. lia. }
    + eapply Hkey; eassumption.
    + apply fieldOutOfRange_spec in Hf'.
      pose proof (HI _ Hin') as Hr'.
      pose proof (rowLen_nonneg rowA). pose proof (rowLen_nonneg rowB).
      assert (wrap_int (f' + 1) = f' + 1) as Ew.
      { unfold wrap_int. rewrite Z.mod_small; unfold two63, two64 in *; lia. }
      rewrite Ew in Hc. exists (f' + 1), (IgnoredFieldOutOfRange (f' + 1)).
      split; [lia|]. split; [exact Hf'|]. split.
      * right. replace (f' + 1 - 1) with f' by lia. auto.
      * apply Hstop, Hc.
Qed.

(** ** One input without rows *)

Lemma scanRecord_nonempty r buffer :
  r <> [] \/ buffer <> [] -> fst (fst (scanRecord r buffer)) <> [].
Proof.
  revert buffer. induction r as [|[field eor] r IH]; intros buffer H; simpl.
  - destruct H; congruence.
  - destruct eor; simpl.
    + destruct buffer; discriminate.
    + apply IH. right. destruct buffer; discriminate.
Qed.

Lemma readRow_nonempty r :
  r <> [] -> exists row eof r', row <> [] /\ readRow r false = (Some row, eof, r').
Proof.
  intros H. unfold readRow.
  pose proof (scanRecord_nonempty r [] (or_introl H)) as Hn.
  destruct (scanRecord r []) as [[buffer eof] r'] eqn:Hs. simpl in Hn.
  destruct buffer as [|f buffer]; [congruence|].
  exists (f :: buffer), eof, r'. split; [discriminate | reflexivity].
Qed.

Lemma readRow_empty : readRow [] false = (None, true, []).
Proof. reflexivity. Qed.

Lemma first_turn_abort config inA inB rowA rowB st1 e :
  advance (initial inA inB) = (rowA, rowB, st1) ->
  rowA <> None \/ rowB <> None ->
  checkRow rowA rowB config = Err e ->
  main config inA inB = Some (Abend e (initial inA inB)).
Proof.
  intros Ha Hr Hc. unfold main, run, turns.
  rewrite (loop_stops config _ (initial inA inB) e); [reflexivity|reflexivity|].
  unfold iteration. rewrite Ha. apply classify_check_fails; auto.
  rewrite (advance_first _ _ _ _ Ha). reflexivity.
Qed.

Lemma advance_eq st :
  advance st =
  let '(rowA, eofA', readerA') := readRow (readerA st) (eofA st) in
  let '(rowB, eofB', readerB') := readRow (readerB st) (eofB st) in
  (rowA, rowB,
   set_eofB eofB' (set_readerB readerB' (set_eofA eofA' (set_readerA readerA' st)))).
Proof.
  unfold advance. destruct (readRow (readerA st) (eofA st)) as [[rA eA] rdA].
  reflexivity.
Qed.

Lemma advance_initial_left inp :
  inp <> [] -> exists row st1, advance (initial [] inp) = (None, Some row, st1).
Proof.
  intros H. destruct (readRow_nonempty inp H) as (row & eof & r' & _ & Hr).
  rewrite advance_eq.
  change (readerA (initial [] inp)) with (@nil (string * bool)).
  change (readerB (initial [] inp)) with inp.
  change (eofA (initial [] inp)) with false.
  change (eofB (initial [] inp)) with false.
  rewrite readRow_empty, Hr. eauto.
Qed.

Lemma advance_initial_right inp :
  inp <> [] -> exists row st1, advance (initial inp []) = (Some row, None, st1).
Proof.
  intros H. destruct (readRow_nonempty inp H) as (row & eof & r' & _ & Hr).
  rewrite advance_eq.
  change (readerA (initial inp [])) with inp.
  change (readerB (initial inp [])) with (@nil (string * bool)).
  change (eofA (initial inp [])) with false.
  change (eofB (initial inp [])) with false.
  rewrite readRow_empty, Hr. eauto.
Qed.


(** ** Concrete runs *)

(** C8 (amended). The end-to-end example with key = field 1 and the piped
    format: whatever the other flags, the run writes the rows
    [# 1 Alice 30|-|31], [- 4 Dana 40] and [+ 3 Carol 22], and [= 2 Bob 25]
    before them exactly when common rows are requested, and ends with
    removed = 1, added = 1, modified = 1 (and exit status 1).  The two values
    of the changed field are joined by [|-|], not by a single [|]. *)
Theorem end_to_end_example (n q c v r : bool) :
  match parseArgs (commandLine "1" "" n q c v r) with
  | Ok config =>
      match main config (readerOf exampleA) (readerOf exampleB) with
      | Some (Exit status st) =>
          Permutation (stdout st)
            ((if c then [["="; "2"; "Bob"; "25"]] else [])
             ++ [["#"; "1"; "Alice"; "30|-|31"];
                 ["-"; "4"; "Dana"; "40"];
                 ["+"; "3"; "Carol"; "22"]]) /\
          removedCount st = 1 /\ addedCount st = 1 /\ modifiedCount st = 1 /\
          status = 1 /\ concat "30" "31" (format config) (symbol config) = "30|-|31"
      | _ => False
      end
  | Err _ => False
  end.
Proof.
  destruct n, q, c, v, r; vm_compute;
    (split; [apply Permutation_refl | repeat split]).
Qed.

(** No row [# 1 Alice 30|31] is written in the example. *)
Lemma end_to_end_single_bar_absent :
  match parseArgs (commandLine "1" "" false true true true false) with
  | Ok config =>
      match main config (readerOf exampleA) (readerOf exampleB) with
      | Some (Exit status st) =>
          ~ In ["#"; "1"; "Alice"; "30|31"] (stdout st) /\
          In ["#"; "1"; "Alice"; "30|-|31"] (stdout st)
      | _ => False
      end
  | Err _ => False
  end.
Proof.
  vm_compute. split.
  - intros [H|[H|[H|[H|[]]]]]; discriminate.
  - right. left. reflexivity.
Qed.

(** C6. Two inputs whose header rows differ in the key column.  The first
    pair classified is misaligned: after that turn no header is captured, the
    tracking vector is not sized and [first] is still on.  The capture
    happens on the second pair, the first aligned one, and takes the data
    row [1,x] for the header; the two header rows leave as a removal and an
    addition. *)
Theorem header_capture_misaligned_first_pair :
  let inA := readerOf [["id"; "name"]; ["1"; "x"]] in
  let inB := readerOf [["ID"; "name"]; ["1"; "x"]] in
  match iteration (plainConfig false false) (initial inA inB) with
  | Ok st1 =>
      totalCount st1 = 1 /\ headers st1 = None /\ modifiedFields st1 = None /\
      first st1 = true
  | Err _ => False
  end /\
  match main (plainConfig false false) inA inB with
  | Some (Exit status st) =>
      headers st = Some ["1"; "x"] /\ modifiedFields st = Some [false; false] /\
      stdout st = [["="; "1"; "x"]; ["-"; "id"; "name"]; ["+"; "ID"; "name"]] /\
      status = 1
  | _ => False
  end.
Proof. vm_compute. repeat split. Qed.



(** Index 0 and rows met after the first aligned pair escape the range check:
    [-i 0] is accepted and the run ends with status 0; [-k 0] ends in a
    run-time panic, not in [log.Fatalf]; with [-i 2] a later pair of
    one-field rows is compared without any fault. *)
Lemma unchecked_indexes :
  atouis "0" = Ok [18446744073709551615] /\
  match parseArgs (commandLine "1" "0" true true false true false) with
  | Ok config =>
      exists st, main config (readerOf [["a"]]) (readerOf [["a"]]) = Some (Exit 0 st)
  | Err _ => False
  end /\
  match parseArgs (commandLine "0" "" true true false true false) with
  | Ok config =>
      exists st, main config (readerOf [["a"]]) (readerOf [["a"]])
                 = Some (Abend RuntimePanic st)
  | Err _ => False
  end /\
  match parseArgs (commandLine "1" "2" true true false true false) with
  | Ok config =>
      exists st, main config (readerOf [["a"; "b"]; ["c"]]) (readerOf [["a"; "b"]; ["c"]])
                 = Some (Exit 0 st)
  | Err _ => False
  end.
Proof.
  split; [reflexivity|].
  split; [vm_compute; eexists; reflexivity|].
  split; vm_compute; eexists; reflexivity.
Qed.

(** Without a request for common rows, the header row of the first aligned
    pair is still written behind [=]. *)
Lemma header_echo_without_request :
  common (plainConfig false false) = false /\
  match main (plainConfig false false)
             (readerOf [["id"; "name"]]) (readerOf [["id"; "name"]]) with
  | Some (Exit status st) => stdout st = [["="; "id"; "name"]] /\ status = 0
  | _ => False
  end.
Proof. vm_compute. repeat split. Qed.


(** ** The theorems at concrete inputs *)

Lemma exit_code_law_witness :
  exists status st,
    main (plainConfig true false) (readerOf [["1"; "x"]]) (readerOf [["1"; "y"]])
    = Some (Exit status st) /\
    (status = 1 <-> 0 < addedCount st + removedCount st + modifiedCount st) /\
    (status = 0 <-> ~ 0 < addedCount st + removedCount st + modifiedCount st).
Proof.
  eexists _, _. split; [vm_compute; reflexivity|].
  apply (exit_code_law (plainConfig true false)
           (readerOf [["1"; "x"]]) (readerOf [["1"; "y"]])).
  vm_compute. reflexivity.
Defined.

Lemma dupState_reached :
  iteration (plainConfig true false)
            (initial (readerOf [["k1"; "a"]; ["k1"; "b"]]) (readerOf [["k2"]; ["k3"]]))
  = Ok dupState.
Proof. vm_compute. reflexivity. Qed.

Lemma duplicate_key_overwrite_witness :
  exists st',
    iteration (plainConfig true false) dupState = Ok st' /\
    cacheA st' !! 629957523660743873 = Some ["k1"; "b"] /\
    stderr st' = [DuplicateFirst ["k1"; "b"]] /\ stdout st' = [].
Proof.
  destruct (duplicate_key_overwrite (plainConfig true false) dupState
              ["k1"; "b"] ["k3"] (snd (advance dupState))
              629957523660743873 629955324637487451) as (H & _ & _).
  - vm_compute. reflexivity.
  - intros _. vm_compute. reflexivity.
  - vm_compute. reflexivity.
  - vm_compute. reflexivity.
  - discriminate.
  - eexists. split; [exact H|]. vm_compute. repeat split.
Defined.

Lemma config_fault_fatal_witness :
  exists u' e,
    1 <= u' /\
    iteration (indexedConfig [0; 2] ∅)
              (initial (readerOf [["a"; "b"]]) (readerOf [["a"; "b"]]))
    = Err (LogFatal e) /\
    (e = KeyIndexOutOfRange u' \/ e = IgnoredFieldOutOfRange u').
Proof.
  destruct (config_fault_fatal
              (indexedConfig [0; 2] ∅)
              (initial (readerOf [["a"; "b"]]) (readerOf [["a"; "b"]]))
              (Some ["a"; "b"]) (Some ["a"; "b"])
              (snd (advance (initial (readerOf [["a"; "b"]]) (readerOf [["a"; "b"]]))))
              3)
    as (u' & e & H1 & _ & H3 & H4 & _).
  - split; [repeat constructor; vm_compute; congruence|].
    intros f Hf. vm_compute in Hf. set_solver.
  - vm_compute. reflexivity.
  - reflexivity.
  - left. discriminate.
  - unfold two63. lia.
  - left. simpl. auto.
  - left. simpl. lia.
  - exists u', e. split; [exact H1|]. split; [exact H4|].
    destruct H3 as [[_ ->] | [_ ->]]; auto.
Defined.

Lemma unchanged_rows_emission_witness :
  areEquals ["id"; "name"] ["id"; "name"] (plainConfig false false) None
  = (None, true, None) /\
  exists new,
    stdout headerTurn = [] ++ new /\
    forall fields, In ("=" :: fields) new ->
      common (plainConfig false false) = true \/
      (noHeader (plainConfig false false) = false /\
       first (initial (readerOf [["id"; "name"]]) (readerOf [["id"; "name"]])) = true /\
       first headerTurn = false).
Proof.
  split; [vm_compute; reflexivity|].
  apply (proj1 (proj2 (unchanged_rows_emission (plainConfig false false)))
           (initial (readerOf [["id"; "name"]]) (readerOf [["id"; "name"]]))
           headerTurn).
  vm_compute. reflexivity.
Defined.


(** ** Runs over lists of rows *)

Lemma scanRecord_recordTokens row rest buffer :
  row <> [] ->
  scanRecord (recordTokens row ++ rest) buffer = (buffer ++ row, false, rest).
Proof.
  revert buffer. induction row as [|f row IH]; intros buffer H; [congruence|].
  destruct row as [|g row].
  - reflexivity.
  - change (recordTokens (f :: g :: row)) with ((f, false) :: recordTokens (g :: row)).
    simpl app. cbn [scanRecord]. rewrite IH by discriminate.
    rewrite <- app_assoc. reflexivity.
Qed.

Lemma readRow_cons row rows :
  row <> [] ->
  readRow (readerOf (row :: rows)) false = (Some row, false, readerOf rows).
Proof.
  intros H. unfold readRow, readerOf. simpl flat_map.
  rewrite scanRecord_recordTokens by exact H. simpl.
  destruct row; [congruence | reflexivity].
Qed.

Lemma readRow_feeds r eof rows :
  feeds r eof rows -> Forall (fun row => row <> []) rows ->
  exists eof' r',
    readRow r eof = (head rows, eof', r') /\ feeds r' eof' (tail rows) /\
    (rows = [] -> eof' = true).
Proof.
  unfold feeds. intros H Hne. destruct eof.
  - subst rows. exists true, r. repeat split.
  - subst r. destruct rows as [|row rows].
    + exists true, []. repeat split.
    + exists false, (readerOf rows). inversion Hne; subst.
      rewrite readRow_cons by assumption. repeat split. discriminate.
Qed.

Lemma advance_feeds st ra rb :
  feeds (readerA st) (eofA st) ra -> feeds (readerB st) (eofB st) rb ->
  Forall (fun row => row <> []) ra -> Forall (fun row => row <> []) rb ->
  exists st1,
    advance st = (head ra, head rb, st1) /\
    feeds (readerA st1) (eofA st1) (tail ra) /\
    feeds (readerB st1) (eofB st1) (tail rb) /\
    (ra = [] -> eofA st1 = true) /\ (rb = [] -> eofB st1 = true) /\
    sameData st st1.
Proof.
  intros HA HB NA NB.
  destruct (readRow_feeds _ _ _ HA NA) as (eA & rA & EA & FA & ZA).
  destruct (readRow_feeds _ _ _ HB NB) as (eB & rB & EB & FB & ZB).
  rewrite advance_eq, EA, EB. eexists. split; [reflexivity|].
  simpl. repeat split; assumption.
Qed.

Lemma classify_turn config rowA rowB st1 st' :
  classify config rowA rowB st1 = Ok st' -> turn config st1 rowA rowB st'.
Proof.
  unfold classify, bind. intros H.
  destruct rowA as [a|], rowB as [b|].
  - destruct (if first st1 then _ else _) as [[]|]; [|discriminate].
    destruct (hashRow a (keys config)) as [hA|] eqn:HA; [|discriminate].
    destruct (hashRow b (keys config)) as [hB|] eqn:HB; [|discriminate].
    apply Ok_inj in H. subst st'. unfold dispatch.
    destruct (hA =? hB) eqn:E.
    + apply Z.eqb_eq in E. subst hB. eapply turn_aligned; eassumption.
    + apply Z.eqb_neq in E. eapply turn_misaligned; eassumption.
  - destruct (if first st1 then _ else _) as [[]|]; [|discriminate].
    destruct (hashRow a (keys config)) as [hA|] eqn:HA; [|discriminate].
    unfold searchCache in H.
    destruct (cacheB st1 !! hA) as [b|] eqn:HB;
      change (cacheB (set_totalCount (incr (totalCount st1)) st1)) with (cacheB st1) in H;
      rewrite HB in H; apply Ok_inj in H; subst st'; unfold dispatch.
    + rewrite Z.eqb_refl. eapply turn_onlyA_match; eassumption.
    + eapply turn_onlyA_removed; eassumption.
  - destruct (if first st1 then _ else _) as [[]|]; [|discriminate].
    destruct (hashRow b (keys config)) as [hB|] eqn:HB; [|discriminate].
    unfold searchCache in H.
    destruct (cacheA st1 !! hB) as [a|] eqn:HA;
      change (cacheA (set_totalCount (incr (totalCount st1)) st1)) with (cacheA st1) in H;
      rewrite HA in H; apply Ok_inj in H; subst st'; unfold dispatch.
    + rewrite Z.eqb_refl. eapply turn_onlyB_match; eassumption.
    + eapply turn_onlyB_added; eassumption.
  - apply Ok_inj in H. subst st'. apply turn_idle.
Qed.

Lemma hashKeys_inRange row ks h :
  (forall k, In k ks -> 0 <= k < Z.of_nat (length row)) ->
  exists h', hashKeys h row ks = Ok h'.
Proof.
  revert h. induction ks as [|k ks IH]; intros h Hk; simpl; [eauto|].
  assert (0 <= k < Z.of_nat (length row)) as Hr by (apply Hk; left; reflexivity).
  unfold index.
  assert ((0 <=? k) && (k <? Z.of_nat (length row)) = true) as ->.
  { apply andb_true_iff. split; [apply Z.leb_le | apply Z.ltb_lt]; lia. }
  destruct (row !! Z.to_nat k) as [field|] eqn:E.
  - apply IH. intros k' Hin. apply Hk. right. exact Hin.
  - apply lookup_ge_None in E. lia.
Qed.

Lemma hashRow_inRange config row :
  inRange config row -> exists h, hashRow row (keys config) = Ok h.
Proof. intros [Hk _]. apply hashKeys_inRange, Hk. Qed.

Lemma checkRow_inRange config a b :
  inRange config a -> inRange config b ->
  checkRow (Some a) (Some b) config = Ok tt.
Proof.
  intros [Ka Fa] [Kb Fb]. unfold checkRow.
  destruct (List.find _ (keys config)) as [k|] eqn:Hk.
  { apply find_some in Hk. destruct Hk as [Hin Hk]. exfalso.
    pose proof (Ka _ Hin). pose proof (Kb _ Hin).
    unfold keyOutOfRange, int_of_uint64 in Hk. simpl in Hk.
    apply orb_true_iff in Hk.
    destruct (k <? two63); rewrite !Z.leb_le in Hk; unfold two64 in *; lia. }
  destruct (List.find _ (elements (ignoredFields config))) as [f|] eqn:Hf;
    [|reflexivity].
  apply find_some in Hf. destruct Hf as [Hin Hf]. exfalso.
  apply list_elem_of_In, elem_of_elements in Hin.
  pose proof (Fa _ Hin). pose proof (Fb _ Hin).
  unfold fieldOutOfRange in Hf. simpl in Hf.
  apply orb_true_iff in Hf. rewrite !Z.leb_le in Hf. lia.
Qed.

Lemma classify_inRange config a b st :
  inRange config a -> inRange config b ->
  exists st', classify config (Some a) (Some b) st = Ok st'.
Proof.
  intros Ha Hb. unfold classify.
  assert ((if first st then checkRow (Some a) (Some b) config else Ok tt) = Ok tt) as ->.
  { destruct (first st); [apply checkRow_inRange; assumption | reflexivity]. }
  destruct (hashRow_inRange _ _ Ha) as [hA ->].
  destruct (hashRow_inRange _ _ Hb) as [hB ->]. simpl. eauto.
Qed.

Lemma compared_refl config a echo hdr st st' :
  compared config a a echo hdr st st' ->
  addedCount st' = addedCount st /\ removedCount st' = removedCount st /\
  modifiedCount st' = modifiedCount st.
Proof.
  intros (Ha & Hr & _ & [(_ & Hm & _) | (Hs & _)]); [auto|].
  rewrite areEquals_refl in Hs. discriminate.
Qed.

Lemma NoDup_fmap_eq {A B : Type} (f : A -> B) (l : list A) x y :
  NoDup (f <$> l) -> x ∈ l -> y ∈ l -> f x = f y -> x = y.
Proof.
  induction l as [|z l IH]; intros Hn Hx Hy E; [inversion Hx|].
  rewrite fmap_cons in Hn. apply NoDup_cons in Hn. destruct Hn as [Hz Hn].
  apply elem_of_cons in Hx. apply elem_of_cons in Hy.
  destruct Hx as [->|Hx], Hy as [->|Hy]; auto.
  - exfalso. apply Hz. rewrite E. apply list_elem_of_fmap. eauto.
  - exfalso. apply Hz. rewrite <- E. apply list_elem_of_fmap. eauto.
Qed.

(** ** Identity: a dataset against a permuted copy of itself *)

Section Identity.

Variable config : Config.
Variable D : list (list string).

Hypothesis distinct : NoDup ((fun r => hashRow r (keys config)) <$> D).
Hypothesis fits : forall r, r ∈ D -> r <> [] /\ inRange config r.

Lemma distinct_inj r1 r2 :
  r1 ∈ D -> r2 ∈ D ->
  hashRow r1 (keys config) = hashRow r2 (keys config) -> r1 = r2.
Proof. intros H1 H2 E. eapply NoDup_fmap_eq; eauto. Qed.

Lemma pendingInv_swap cA cB ra rb :
  pendingInv config D cA cB ra rb -> pendingInv config D cB cA rb ra.
Proof.
  intros (OA & OB & Dj & NA & NB & SA & SB & CA & CB & Bal).
  unfold pendingInv. split_and!; auto.
  - intros h. destruct (Dj h); auto.
  - intros r h Hr Hh. symmetry. apply Bal; assumption.
Qed.

Lemma pendingInv_found cA cB a ra rb hA x :
  pendingInv config D cA cB (a :: ra) rb ->
  hashRow a (keys config) = Ok hA -> cB !! hA = Some x ->
  x = a /\ pendingInv config D cA (delete hA cB) ra rb.
Proof.
  intros (OA & OB & Dj & NA & NB & SA & SB & CA & CB & Bal) Ha Hx.
  apply NoDup_cons in NA. destruct NA as [Hnin NA].
  assert (a ∈ D) as HaD by (apply SA; left).
  assert (x = a) as ->.
  { destruct (OB _ _ Hx) as [HxD Hxh]. apply distinct_inj; congruence. }
  split; [reflexivity|]. unfold pendingInv. split_and!; auto.
  - intros h r Hl. apply (OB h r). apply lookup_delete_Some in Hl. tauto.
  - intros h. destruct (Dj h) as [E|E]; [left; exact E|].
    right. apply lookup_delete_None. auto.
  - intros r Hr. apply SA. right. exact Hr.
  - intros r h Hr Hh. eapply CA; [right; exact Hr | exact Hh].
  - intros r h Hr Hh. apply lookup_delete_None. right. eapply CB; eauto.
  - intros r h HrD Hh. split.
    + intros [Hr | Hc].
      * assert (r <> a) as Hne by (intros ->; contradiction).
        assert (h <> hA) as Hk by (intros ->; apply Hne, distinct_inj; congruence).
        destruct (proj1 (Bal r h HrD Hh) (or_introl (list_elem_of_further _ _ _ Hr)))
          as [E|E]; [left; exact E|].
        right. rewrite lookup_delete_ne by congruence. exact E.
      * assert (r <> a) as Hne.
        { intros ->. assert (h = hA) as -> by congruence.
          rewrite (CA a hA) in Hc; [discriminate | left | exact Ha]. }
        assert (h <> hA) as Hk by (intros ->; apply Hne, distinct_inj; congruence).
        destruct (proj1 (Bal r h HrD Hh) (or_intror Hc)) as [E|E]; [left; exact E|].
        right. rewrite lookup_delete_ne by congruence. exact E.
    + intros [Hr | Hc].
      * assert (r <> a) as Hne.
        { intros ->. assert (h = hA) as -> by congruence.
          rewrite (CB a hA) in Hx; [discriminate | exact Hr | exact Ha]. }
        destruct (proj2 (Bal r h HrD Hh) (or_introl Hr)) as [E|E]; [|right; exact E].
        apply elem_of_cons in E. destruct E as [E|E]; [contradiction | left; exact E].
      * apply lookup_delete_Some in Hc. destruct Hc as [Hk Hc].
        destruct (proj2 (Bal r h HrD Hh) (or_intror Hc)) as [E|E]; [|right; exact E].
        apply elem_of_cons in E. destruct E as [E|E]; [|left; exact E].
        subst r. congruence.
Qed.

Lemma pendingInv_insert cA cB a ra rb hA :
  pendingInv config D cA cB (a :: ra) rb ->
  hashRow a (keys config) = Ok hA -> cB !! hA = None ->
  pendingInv config D (<[hA := a]> cA) cB ra rb.
Proof.
  intros (OA & OB & Dj & NA & NB & SA & SB & CA & CB & Bal) Ha Hx.
  apply NoDup_cons in NA. destruct NA as [Hnin NA].
  assert (a ∈ D) as HaD by (apply SA; left).
  assert (Hother : forall r h, r ∈ D -> hashRow r (keys config) = Ok h ->
            r <> a -> h <> hA).
  { intros r h Hr Hh Hne ->. apply Hne, distinct_inj; congruence. }
  unfold pendingInv. split_and!; auto.
  - intros h r Hl. apply lookup_insert_Some in Hl.
    destruct Hl as [[<- <-] | [_ Hl]]; [split; assumption | apply (OA h r Hl)].
  - intros h. destruct (decide (h = hA)) as [->|Hne]; [right; exact Hx|].
    rewrite lookup_insert_ne by congruence. apply Dj.
  - intros r Hr. apply SA. right. exact Hr.
  - intros r h Hr Hh.
    assert (r <> a) as Hne by (intros ->; contradiction).
    rewrite lookup_insert_ne.
    + eapply CA; [right; exact Hr | exact Hh].
    + intros E. eapply Hother; [apply SA; right; exact Hr | exact Hh | exact Hne |].
      congruence.
  - intros r h HrD Hh. split.
    + intros Hl. destruct (decide (r = a)) as [->|Hne].
      * assert (h = hA) as -> by congruence.
        destruct (proj1 (Bal a hA HrD Hh) (or_introl (list_elem_of_here _ _)))
          as [E|E]; [left; exact E | congruence].
      * assert (h <> hA) as Hk by (eapply Hother; eauto).
        rewrite lookup_insert_ne in Hl by congruence.
        apply (Bal r h HrD Hh). destruct Hl as [Hl|Hl]; [left; right; exact Hl|].
        right. exact Hl.
    + intros Hr. destruct (decide (r = a)) as [->|Hne].
      * assert (h = hA) as -> by congruence. right. apply lookup_insert_eq.
      * assert (h <> hA) as Hk by (eapply Hother; eauto).
        rewrite lookup_insert_ne by congruence.
        destruct (proj2 (Bal r h HrD Hh) Hr) as [E|E]; [|right; exact E].
        apply elem_of_cons in E. destruct E as [E|E]; [contradiction | left; exact E].
Qed.

Lemma pendingInv_aligned cA cB a ra rb :
  pendingInv config D cA cB (a :: ra) (a :: rb) -> pendingInv config D cA cB ra rb.
Proof.
  intros (OA & OB & Dj & NA & NB & SA & SB & CA & CB & Bal).
  apply NoDup_cons in NA. destruct NA as [HninA NA].
  apply NoDup_cons in NB. destruct NB as [HninB NB].
  unfold pendingInv. split_and!; auto.
  - intros r Hr. apply SA. right. exact Hr.
  - intros r Hr. apply SB. right. exact Hr.
  - intros r h Hr Hh. eapply CA; [right; exact Hr | exact Hh].
  - intros r h Hr Hh. eapply CB; [right; exact Hr | exact Hh].
  - intros r h HrD Hh. split.
    + intros Hl.
      assert (r <> a) as Hne.
      { intros ->. destruct Hl as [Hl|Hl]; [contradiction|].
        rewrite (CA a h) in Hl; [discriminate | left | exact Hh]. }
      assert (r ∈ a :: ra \/ cA !! h = Some r) as Hl'
        by (destruct Hl; [left; right|right]; assumption).
      destruct (proj1 (Bal r h HrD Hh) Hl') as [E|E]; [|right; exact E].
      apply elem_of_cons in E. destruct E as [E|E]; [contradiction | left; exact E].
    + intros Hr.
      assert (r <> a) as Hne.
      { intros ->. destruct Hr as [Hr|Hr]; [contradiction|].
        rewrite (CB a h) in Hr; [discriminate | left | exact Hh]. }
      assert (r ∈ a :: rb \/ cB !! h = Some r) as Hr'
        by (destruct Hr; [left; right|right]; assumption).
      destruct (proj2 (Bal r h HrD Hh) Hr') as [E|E]; [|right; exact E].
      apply elem_of_cons in E. destruct E as [E|E]; [contradiction | left; exact E].
Qed.

Lemma pendingInv_end cA cB : pendingInv config D cA cB [] [] -> cA = ∅ /\ cB = ∅.
Proof.
  intros (OA & OB & Dj & _ & _ & _ & _ & _ & _ & Bal).
  split; apply map_empty; intros h.
  - destruct (cA !! h) as [r|] eqn:E; [|reflexivity]. exfalso.
    destruct (OA _ _ E) as [Hr Hh].
    destruct (proj1 (Bal r h Hr Hh) (or_intror E)) as [F|F]; [inversion F|].
    destruct (Dj h); congruence.
  - destruct (cB !! h) as [r|] eqn:E; [|reflexivity]. exfalso.
    destruct (OB _ _ E) as [Hr Hh].
    destruct (proj2 (Bal r h Hr Hh) (or_intror E)) as [F|F]; [inversion F|].
    destruct (Dj h); congruence.
Qed.

Lemma rows_nonempty (rows : list (list string)) :
  (forall r, r ∈ rows -> r ∈ D) -> Forall (fun row => row <> []) rows.
Proof.
  intros H. apply List.Forall_forall. intros r Hr.
  apply list_elem_of_In in Hr. apply (fits r (H r Hr)).
Qed.

Lemma identity_step st :
  identityInv config D st -> exists st', iteration config st = Ok st' /\ identityInv config D st'.
Proof.
  intros (ra & rb & FA & FB & Hlen & Ca & Cr & Cm & P).
  pose proof P as (_ & _ & _ & _ & _ & SA & SB & _).
  assert (Forall (fun row => row <> []) ra) as NA
    by (apply rows_nonempty, SA).
  assert (Forall (fun row => row <> []) rb) as NB
    by (apply rows_nonempty, SB).
  destruct (advance_feeds st ra rb FA FB NA NB)
    as (st1 & Hadv & FA1 & FB1 & _ & _ & SD).
  destruct SD as (EcA & EcB & _ & Ea & Em & Er & _).
  unfold iteration. rewrite Hadv.
  destruct ra as [|a ra], rb as [|b rb]; simpl in Hlen; try discriminate.
  - exists st1. split; [reflexivity|]. exists [], [].
    rewrite EcA, EcB, Ea, Em, Er. split_and!; auto.
  - assert (a ∈ D) as HaD by (apply SA; left).
    assert (b ∈ D) as HbD by (apply SB; left).
    destruct (classify_inRange config a b st1) as [st' Hc];
      [apply fits, HaD | apply fits, HbD |].
    exists st'. split; [exact Hc|].
    destruct (classify_input _ _ _ _ _ Hc) as (RA & RB & EA & EB).
    simpl in FA1, FB1. rewrite <- RA, <- EA in FA1. rewrite <- RB, <- EB in FB1.
    exists ra, rb. split; [exact FA1|]. split; [exact FB1|].
    split; [congruence|].
    rewrite <- EcA, <- EcB in P. clear FA1 FB1 RA RB EA EB.
    apply classify_turn in Hc.
    inversion Hc as [ | a' b' h Ha Hb | a' b' hA hB Ha Hb Hne | | | | ]; subst.
    + assert (a = b) as -> by (apply distinct_inj; congruence).
      destruct (pairAligned_effect config b b (counted st1)) as (E1 & E2 & _ & Hcmp).
      apply compared_refl in Hcmp. destruct Hcmp as (X1 & X2 & X3).
      rewrite E1, E2, X1, X2, X3. simpl.
      split_and!; try congruence. eapply pendingInv_aligned, P.
    + assert (exists s2, s2 = reconcileA config a hA (counted st1) /\
                addedCount s2 = 0 /\ removedCount s2 = 0 /\ modifiedCount s2 = 0 /\
                pendingInv config D (cacheA s2) (cacheB s2) ra (b :: rb)) as (s2 & <- & Y).
      { eexists. split; [reflexivity|].
        destruct (cacheB st1 !! hA) as [x|] eqn:Hx.
        - destruct (pendingInv_found _ _ _ _ _ _ _ P Ha Hx) as [-> P'].
          destruct (reconcileA_found config a hA (counted st1) a Hx)
            as (E1 & E2 & _ & Hcmp).
          apply compared_refl in Hcmp. destruct Hcmp as (X1 & X2 & X3).
          rewrite E1, E2, X1, X2, X3. simpl. split_and!; try congruence; try exact P'.
        - pose proof (pendingInv_insert _ _ _ _ _ _ P Ha Hx) as P'.
          destruct (reconcileA_pending config a hA (counted st1) Hx)
            as (E1 & E2 & _ & _ & X1 & X2 & X3 & _).
          rewrite E1, E2, X1, X2, X3. simpl. split_and!; try congruence; try exact P'. }
      destruct Y as (Y1 & Y2 & Y3 & P2). apply pendingInv_swap in P2.
      destruct (cacheA s2 !! hB) as [x|] eqn:Hx.
      * destruct (pendingInv_found _ _ _ _ _ _ _ P2 Hb Hx) as [-> P'].
        destruct (reconcileB_found config b hB s2 b Hx) as (E1 & E2 & _ & Hcmp).
        apply compared_refl in Hcmp. destruct Hcmp as (X1 & X2 & X3).
        rewrite E1, E2, X1, X2, X3. split_and!; try congruence;
          try apply pendingInv_swap, P'.
      * pose proof (pendingInv_insert _ _ _ _ _ _ P2 Hb Hx) as P'.
        destruct (reconcileB_pending config b hB s2 Hx)
          as (E1 & E2 & _ & _ & X1 & X2 & X3 & _).
        rewrite E1, E2, X1, X2, X3. split_and!; try congruence;
          try apply pendingInv_swap, P'.
Qed.

Lemma identity_loop fuel st :
  identityInv config D st -> (measure st <= fuel)%nat ->
  exists st', loop fuel config st = Some (Completed st') /\
              identityInv config D st' /\ eofA st' = true /\ eofB st' = true.
Proof.
  revert st. induction fuel as [|fuel IH]; intros st Hinv Hm; simpl.
  - destruct (negb (eofA st) || negb (eofB st)) eqn:Hc.
    + exfalso. unfold measure in Hm.
      destruct (eofA st), (eofB st); simpl in *; try discriminate; lia.
    + exists st. destruct (eofA st), (eofB st); try discriminate. auto.
  - destruct (negb (eofA st) || negb (eofB st)) eqn:Hc.
    + destruct (identity_step st Hinv) as (st1 & Hi & Hinv1). rewrite Hi.
      apply IH; [exact Hinv1|].
      pose proof (iteration_measure _ _ _ Hc Hi). lia.
    + exists st. destruct (eofA st), (eofB st); try discriminate. auto.
Qed.

Lemma identity_run pA pB :
  Permutation pA D -> Permutation pB D ->
  exists st, main config (readerOf pA) (readerOf pB) = Some (Exit 0 st) /\
             addedCount st = 0 /\ removedCount st = 0 /\ modifiedCount st = 0.
Proof.
  intros HA HB.
  assert (NoDup D) as ND by (eapply NoDup_fmap_1, distinct).
  destruct (identity_loop (turns (readerOf pA) (readerOf pB))
              (initial (readerOf pA) (readerOf pB)))
    as (st & Hl & Hinv & EA & EB).
  - exists pA, pB. simpl. split_and!; try reflexivity.
    + rewrite (Permutation_length HA), (Permutation_length HB). reflexivity.
    + unfold pendingInv. split_and!.
      * intros h r Hr. rewrite lookup_empty in Hr. discriminate.
      * intros h r Hr. rewrite lookup_empty in Hr. discriminate.
      * intros h. left. apply lookup_empty.
      * rewrite HA. exact ND.
      * rewrite HB. exact ND.
      * intros r Hr. rewrite <- HA. exact Hr.
      * intros r Hr. rewrite <- HB. exact Hr.
      * intros. apply lookup_empty.
      * intros. apply lookup_empty.
      * intros r h Hr Hh. rewrite !lookup_empty, HA, HB. tauto.
  - unfold measure, turns. simpl. lia.
  - destruct Hinv as (ra & rb & FA & FB & _ & Ca & Cr & Cm & P).
    unfold feeds in FA, FB. rewrite EA in FA. rewrite EB in FB. subst ra rb.
    apply pendingInv_end in P. destruct P as [PA PB].
    unfold main, run. rewrite Hl.
    assert (drainA st = st) as ->.
    { unfold drainA. rewrite PA, map_to_list_empty. reflexivity. }
    assert (drainB st = st) as ->.
    { unfold drainB. rewrite PB, map_to_list_empty. reflexivity. }
    unfold finish. rewrite Ca, Cr, Cm. simpl.
    exists st. split_and!; auto.
Qed.

End Identity.



(** ** Rows without a counterpart *)

Lemma occurrences_app row out1 out2 :
  occurrences row (out1 ++ out2) = (occurrences row out1 + occurrences row out2)%nat.
Proof. unfold occurrences. rewrite List.filter_app, length_app. reflexivity. Qed.

Lemma marked_app sign out1 out2 :
  marked sign (out1 ++ out2) = (marked sign out1 + marked sign out2)%nat.
Proof. unfold marked. rewrite List.filter_app, length_app. reflexivity. Qed.

Lemma occurrences_other row x : x <> row -> occurrences row [x] = 0%nat.
Proof.
  intros H. unfold occurrences. simpl.
  rewrite bool_decide_eq_false_2 by exact H. reflexivity.
Qed.

Lemma occurrences_same row : occurrences row [row] = 1%nat.
Proof.
  unfold occurrences. simpl. rewrite bool_decide_eq_true_2 by reflexivity.
  reflexivity.
Qed.

(** What a comparison writes is neither a removal nor an addition. *)
Lemma compared_written config x y echo hdr st st' :
  compared config x y echo hdr st st' ->
  exists new, stdout st' = stdout st ++ new /\
    forall row sign, In row new -> sign <> "="%char -> sign <> "#"%char ->
                     head row <> Some (String sign EmptyString).
Proof.
  intros (_ & _ & _ & [(_ & _ & [E | [E _]]) | (_ & _ & r & E)]).
  - exists []. rewrite app_nil_r. split; [exact E|]. intros row sign [].
  - exists [delta echo "="]. split; [exact E|].
    intros row sign [<-|[]] H1 H2. simpl. congruence.
  - exists ["#" :: r]. split; [exact E|].
    intros row sign [<-|[]] H1 H2. simpl. congruence.
Qed.

Lemma compared_occurrences config x y echo hdr st st' r sign :
  compared config x y echo hdr st st' ->
  sign <> "="%char -> sign <> "#"%char ->
  occurrences (delta r sign) (stdout st') = occurrences (delta r sign) (stdout st) /\
  marked sign (stdout st') = marked sign (stdout st).
Proof.
  intros H H1 H2. apply compared_written in H. destruct H as (new & -> & Hn).
  rewrite occurrences_app, marked_app.
  assert (occurrences (delta r sign) new = 0%nat /\ marked sign new = 0%nat) as [-> ->];
    [|split; lia].
  unfold occurrences, marked.
  induction new as [|row new IH]; simpl; [split; reflexivity|].
  assert (head row <> Some (String sign EmptyString)) as Hrow
    by (apply Hn; [left; reflexivity | assumption | assumption]).
  rewrite (bool_decide_eq_false_2 (row = delta r sign)),
          (bool_decide_eq_false_2 (head row = _)); try assumption.
  - apply IH. intros row' sign' Hin. apply Hn. right. exact Hin.
  - intros ->. apply Hrow. reflexivity.
Qed.

Section Tracking.

Variable config : Config.
Variable sign : ascii.
Variable r : list string.
Variable h : Z.
Variable post : list (list string).

Hypothesis r_hash : hashRow r (keys config) = Ok h.

Hypothesis post_other : Forall (other config h) post.

Lemma other_ne x k : other config h x -> hashRow x (keys config) = Ok k -> k <> h.
Proof. unfold other. intros H E ->. contradiction. Qed.

Lemma trackInv_out cOwn cOther rOwn rOther out out' :
  occurrences (delta r sign) out' = occurrences (delta r sign) out ->
  trackInv config sign r h post cOwn cOther rOwn rOther out -> trackInv config sign r h post cOwn cOther rOwn rOther out'.
Proof.
  intros E (K & N & F & S). unfold trackInv. rewrite E. auto.
Qed.

Lemma keyed_insert c k x :
  keyed config c -> hashRow x (keys config) = Ok k -> keyed config (<[k := x]> c).
Proof.
  intros K Hx k' x' Hl. apply lookup_insert_Some in Hl.
  destruct Hl as [[<- <-] | [_ Hl]]; [exact Hx | apply (K _ _ Hl)].
Qed.

Lemma keyed_delete c k : keyed config c -> keyed config (delete k c).
Proof.
  intros K k' x' Hl. apply lookup_delete_Some in Hl. apply (K k' x'), Hl.
Qed.

(** The own row [x] arrives while the other side still delivers rows. *)
Lemma trackInv_own_found cOwn cOther x rOwn rOther out hx y :
  trackInv config sign r h post cOwn cOther (x :: rOwn) rOther out ->
  hashRow x (keys config) = Ok hx -> cOther !! hx = Some y ->
  trackInv config sign r h post cOwn (delete hx cOther) rOwn rOther out.
Proof.
  intros (K & N & F & S) Hx Hy.
  assert (hx <> h) as Hne by (intros ->; congruence).
  unfold trackInv. split_and!; auto.
  - rewrite lookup_delete_ne by exact Hne. exact N.
  - destruct S as [(pre & E & Fp & S) | [(Fo & S) | (Fo & S)]].
    + destruct pre as [|p pre]; simpl in E; injection E as -> ->.
      * congruence.
      * left. exists pre. inversion Fp; subst. auto.
    + right. left. inversion Fo; subst. auto.
    + right. right. inversion Fo; subst. auto.
Qed.

Lemma trackInv_own_pending cOwn cOther x rOwn rOther out hx :
  trackInv config sign r h post cOwn cOther (x :: rOwn) rOther out ->
  hashRow x (keys config) = Ok hx ->
  trackInv config sign r h post (<[hx := x]> cOwn) cOther rOwn rOther out.
Proof.
  intros (K & N & F & S) Hx.
  unfold trackInv. split_and!; auto using keyed_insert.
  destruct S as [(pre & E & Fp & S1 & S2) | [(Fo & S) | (Fo & S)]].
  - destruct pre as [|p pre]; simpl in E; injection E as -> ->.
    + right. left. assert (hx = h) as -> by congruence.
      rewrite lookup_insert_eq. auto.
    + left. exists pre. inversion Fp as [|? ? Hp Fp']; subst.
      rewrite lookup_insert_ne by (eapply other_ne; eauto). auto.
  - right. left. inversion Fo as [|? ? Hp Fp']; subst.
    rewrite lookup_insert_ne by (eapply other_ne; eauto). auto.
  - right. right. inversion Fo as [|? ? Hp Fp']; subst.
    rewrite lookup_insert_ne by (eapply other_ne; eauto). auto.
Qed.

(** A row [y] of the other side arrives. *)
Lemma trackInv_other_found cOwn cOther rOwn y rOther out hy :
  trackInv config sign r h post cOwn cOther rOwn (y :: rOther) out ->
  hashRow y (keys config) = Ok hy ->
  trackInv config sign r h post (delete hy cOwn) cOther rOwn rOther out.
Proof.
  intros (K & N & F & S) Hy. inversion F as [|? ? Hp F']; subst.
  assert (hy <> h) as Hne by (eapply other_ne; eauto).
  unfold trackInv. rewrite lookup_delete_ne by exact Hne.
  split_and!; auto using keyed_delete.
Qed.

Lemma trackInv_other_pending cOwn cOther rOwn y rOther out hy :
  trackInv config sign r h post cOwn cOther rOwn (y :: rOther) out ->
  hashRow y (keys config) = Ok hy ->
  trackInv config sign r h post cOwn (<[hy := y]> cOther) rOwn rOther out.
Proof.
  intros (K & N & F & S) Hy. inversion F as [|? ? Hp F']; subst.
  assert (hy <> h) as Hne by (eapply other_ne; eauto).
  unfold trackInv. rewrite lookup_insert_ne by exact Hne.
  split_and!; auto.
Qed.

(** An aligned pair: the two rows leave, nothing else changes. *)
Lemma trackInv_aligned cOwn cOther x rOwn y rOther out k :
  trackInv config sign r h post cOwn cOther (x :: rOwn) (y :: rOther) out ->
  hashRow x (keys config) = Ok k -> hashRow y (keys config) = Ok k ->
  trackInv config sign r h post cOwn cOther rOwn rOther out.
Proof.
  intros (K & N & F & S) Hx Hy. inversion F as [|? ? Hp F']; subst.
  assert (k <> h) as Hne by (eapply other_ne; eauto).
  unfold trackInv. split_and!; auto.
  destruct S as [(pre & E & Fp & S) | [(Fo & S) | (Fo & S)]].
  - destruct pre as [|p pre]; simpl in E; injection E as -> ->.
    + congruence.
    + left. exists pre. inversion Fp; subst. auto.
  - right. left. inversion Fo; subst. auto.
  - right. right. inversion Fo; subst. auto.
Qed.

(** The own row [x] arrives after the other side ended and finds no match:
    it is written at once behind [sign]. *)
Lemma trackInv_own_written cOwn cOther x rOwn out hx :
  trackInv config sign r h post cOwn cOther (x :: rOwn) [] out ->
  hashRow x (keys config) = Ok hx ->
  trackInv config sign r h post cOwn cOther rOwn [] (out ++ [delta x sign]).
Proof.
  intros (K & N & F & S) Hx.
  unfold trackInv. rewrite occurrences_app. split_and!; auto.
  assert (forall p, other config h p -> occurrences (delta r sign) [delta p sign] = 0%nat)
    as Hocc.
  { intros p Hp. apply occurrences_other. intros E. injection E as ->.
    contradiction. }
  destruct S as [(pre & E & Fp & S1 & S2) | [(Fo & S1 & S2) | (Fo & S1 & S2)]].
  - destruct pre as [|p pre]; simpl in E; injection E as -> ->.
    + right. right. rewrite occurrences_same, S2. auto.
    + left. exists pre. inversion Fp as [|? ? Hp Fp']; subst.
      rewrite (Hocc _ Hp), S2. auto.
  - right. left. inversion Fo as [|? ? Hp Fp']; subst.
    rewrite (Hocc _ Hp), S2. auto.
  - right. right. inversion Fo as [|? ? Hp Fp']; subst.
    rewrite (Hocc _ Hp), S2. auto.
Qed.

(** A row of the other side is written behind the other marker. *)
Lemma trackInv_other_written cOwn cOther rOwn y rOther out sign' :
  sign' <> sign ->
  trackInv config sign r h post cOwn cOther rOwn (y :: rOther) out ->
  trackInv config sign r h post cOwn cOther rOwn rOther (out ++ [delta y sign']).
Proof.
  intros Hs (K & N & F & S). inversion F as [|? ? Hp F']; subst.
  assert (occurrences (delta r sign) (out ++ [delta y sign'])
          = occurrences (delta r sign) out) as E.
  { rewrite occurrences_app, occurrences_other; [lia|].
    intros E. injection E as E1 E2. congruence. }
  unfold trackInv. rewrite E. auto.
Qed.

(** At the end of the input nothing is still to come. *)
Lemma trackInv_end cOwn cOther out :
  trackInv config sign r h post cOwn cOther [] [] out ->
  keyed config cOwn /\
  ((cOwn !! h = Some r /\ occurrences (delta r sign) out = 0%nat) \/
   (cOwn !! h = None /\ occurrences (delta r sign) out = 1%nat)).
Proof.
  intros (K & N & F & S). split; [exact K|].
  destruct S as [(pre & E & _) | [(_ & S) | (_ & S)]]; auto.
  destruct pre; discriminate.
Qed.

(** The drain of the own cache writes [r] once if it is pending, and not at
    all otherwise. *)
Lemma drained_occurrences (c : gmap Z (list string)) :
  keyed config c ->
  occurrences (delta r sign)
    (List.map (fun e : Z * list string => delta (snd e) sign) (map_to_list c))
  = if decide (c !! h = Some r) then 1%nat else 0%nat.
Proof.
  induction c as [|k x c Hk Hfirst IH] using map_first_key_ind; intros K.
  - rewrite map_to_list_empty, lookup_empty. reflexivity.
  - rewrite (map_to_list_insert_first_key c k x Hk Hfirst). simpl List.map.
    change (delta x sign :: ?l) with ([delta x sign] ++ l).
    rewrite occurrences_app, IH.
    2:{ intros k' x' Hl. apply (K k' x'). rewrite lookup_insert_ne; [exact Hl|].
        intros <-. congruence. }
    assert (hashRow x (keys config) = Ok k) as Hx
      by (apply (K k x), lookup_insert_eq).
    destruct (decide (x = r)) as [->|Hne].
    + assert (k = h) as -> by congruence.
      rewrite occurrences_same, lookup_insert_eq, Hk.
      repeat case_decide; try congruence; reflexivity.
    + rewrite occurrences_other by (intros E; injection E as ->; congruence).
      destruct (decide (k = h)) as [->|Hkh].
      * rewrite lookup_insert_eq, Hk.
        repeat case_decide; try congruence; reflexivity.
      * rewrite lookup_insert_ne by exact Hkh. reflexivity.
Qed.

End Tracking.

Lemma Forall_tail {A : Type} (P : A -> Prop) (l : list A) :
  Forall P l -> Forall P (tail l).
Proof. intros H. destruct l; [exact H | inversion H; assumption]. Qed.

Lemma minus_not_special : "-"%char <> "="%char /\ "-"%char <> "#"%char.
Proof. split; discriminate. Qed.

Lemma plus_not_special : "+"%char <> "="%char /\ "+"%char <> "#"%char.
Proof. split; discriminate. Qed.

Lemma trackA_turn config r h post st1 ra rb st' :
  hashRow r (keys config) = Ok h -> Forall (other config h) post ->
  trackInv config "-" r h post (cacheA st1) (cacheB st1) ra rb (stdout st1) ->
  turn config st1 (head ra) (head rb) st' ->
  trackInv config "-" r h post (cacheA st') (cacheB st') (tail ra) (tail rb)
           (stdout st').
Proof.
  intros Hr Hpost T Ht. destruct minus_not_special as [M1 M2].
  assert (Hout : forall x y echo hdr s s' cO cT rO rT,
            compared config x y echo hdr s s' ->
            trackInv config "-" r h post cO cT rO rT (stdout s) ->
            trackInv config "-" r h post cO cT rO rT (stdout s')).
  { intros x y echo hdr s s' cO cT rO rT Hc. eapply trackInv_out.
    apply (compared_occurrences _ _ _ _ _ _ _ r "-" Hc M1 M2). }
  destruct ra as [|a ra], rb as [|b rb]; simpl in Ht |- *;
    inversion Ht as [ | a' b' k Ha Hb | a' b' hA hB Ha Hb Hne
                    | a' hA b' Ha Hy | a' hA Ha Hy
                    | b' hB a' Hb Hx | b' hB Hb Hx ]; subst.
  - exact T.
  - destruct (pairAligned_effect config a' b
                (set_cacheA (delete hB (cacheA st1)) (counted st1)))
      as (E1 & E2 & _ & Hc).
    rewrite E1, E2. eapply Hout; [exact Hc|]. simpl.
    eapply trackInv_other_found; eassumption.
  - simpl. eapply trackInv_other_written; [discriminate | exact T].
  - destruct (pairAligned_effect config a b'
                (set_cacheB (delete hA (cacheB st1)) (counted st1)))
      as (E1 & E2 & _ & Hc).
    rewrite E1, E2. eapply Hout; [exact Hc|]. simpl.
    eapply trackInv_own_found; eassumption.
  - simpl. eapply trackInv_own_written; eassumption.
  - destruct (pairAligned_effect config a b (counted st1)) as (E1 & E2 & _ & Hc).
    rewrite E1, E2. eapply Hout; [exact Hc|]. simpl.
    eapply trackInv_aligned; eassumption.
  - assert (trackInv config "-" r h post
              (cacheA (reconcileA config a hA (counted st1)))
              (cacheB (reconcileA config a hA (counted st1)))
              ra (b :: rb) (stdout (reconcileA config a hA (counted st1)))) as T2.
    { destruct (cacheB st1 !! hA) as [y|] eqn:Hy.
      - destruct (reconcileA_found config a hA (counted st1) y Hy)
          as (E1 & E2 & _ & Hc).
        rewrite E1, E2. eapply Hout; [exact Hc|]. simpl.
        eapply trackInv_own_found; eassumption.
      - destruct (reconcileA_pending config a hA (counted st1) Hy)
          as (E1 & E2 & _ & E3 & _).
        rewrite E1, E2, E3. simpl.
        eapply trackInv_own_pending; eassumption. }
    set (s2 := reconcileA config a hA (counted st1)) in *.
    destruct (cacheA s2 !! hB) as [x|] eqn:Hx.
    + destruct (reconcileB_found config b hB s2 x Hx) as (E1 & E2 & _ & Hc).
      rewrite E1, E2. eapply Hout; [exact Hc|].
      eapply trackInv_other_found; eassumption.
    + destruct (reconcileB_pending config b hB s2 Hx) as (E1 & E2 & _ & E3 & _).
      rewrite E1, E2, E3. eapply trackInv_other_pending; eassumption.
Qed.

Lemma trackB_turn config r h post st1 ra rb st' :
  hashRow r (keys config) = Ok h -> Forall (other config h) post ->
  trackInv config "+" r h post (cacheB st1) (cacheA st1) rb ra (stdout st1) ->
  turn config st1 (head ra) (head rb) st' ->
  trackInv config "+" r h post (cacheB st') (cacheA st') (tail rb) (tail ra)
           (stdout st').
Proof.
  intros Hr Hpost T Ht. destruct plus_not_special as [M1 M2].
  assert (Hout : forall x y echo hdr s s' cO cT rO rT,
            compared config x y echo hdr s s' ->
            trackInv config "+" r h post cO cT rO rT (stdout s) ->
            trackInv config "+" r h post cO cT rO rT (stdout s')).
  { intros x y echo hdr s s' cO cT rO rT Hc. eapply trackInv_out.
    apply (compared_occurrences _ _ _ _ _ _ _ r "+" Hc M1 M2). }
  destruct ra as [|a ra], rb as [|b rb]; simpl in Ht |- *;
    inversion Ht as [ | a' b' k Ha Hb | a' b' hA hB Ha Hb Hne
                    | a' hA b' Ha Hy | a' hA Ha Hy
                    | b' hB a' Hb Hx | b' hB Hb Hx ]; subst.
  - exact T.
  - destruct (pairAligned_effect config a' b
                (set_cacheA (delete hB (cacheA st1)) (counted st1)))
      as (E1 & E2 & _ & Hc).
    rewrite E1, E2. eapply Hout; [exact Hc|]. simpl.
    eapply trackInv_own_found; eassumption.
  - simpl. eapply trackInv_own_written; eassumption.
  - destruct (pairAligned_effect config a b'
                (set_cacheB (delete hA (cacheB st1)) (counted st1)))
      as (E1 & E2 & _ & Hc).
    rewrite E1, E2. eapply Hout; [exact Hc|]. simpl.
    eapply trackInv_other_found; eassumption.
  - simpl. eapply trackInv_other_written; [discriminate | exact T].
  - destruct (pairAligned_effect config a b (counted st1)) as (E1 & E2 & _ & Hc).
    rewrite E1, E2. eapply Hout; [exact Hc|]. simpl.
    eapply trackInv_aligned; eassumption.
  - assert (trackInv config "+" r h post
              (cacheB (reconcileA config a hA (counted st1)))
              (cacheA (reconcileA config a hA (counted st1)))
              (b :: rb) ra (stdout (reconcileA config a hA (counted st1)))) as T2.
    { destruct (cacheB st1 !! hA) as [y|] eqn:Hy.
      - destruct (reconcileA_found config a hA (counted st1) y Hy)
          as (E1 & E2 & _ & Hc).
        rewrite E1, E2. eapply Hout; [exact Hc|]. simpl.
        eapply trackInv_other_found; eassumption.
      - destruct (reconcileA_pending config a hA (counted st1) Hy)
          as (E1 & E2 & _ & E3 & _).
        rewrite E1, E2, E3. simpl.
        eapply trackInv_other_pending; eassumption. }
    set (s2 := reconcileA config a hA (counted st1)) in *.
    destruct (cacheA s2 !! hB) as [x|] eqn:Hx.
    + destruct (reconcileB_found config b hB s2 x Hx) as (E1 & E2 & _ & Hc).
      rewrite E1, E2. eapply Hout; [exact Hc|].
      eapply trackInv_own_found; eassumption.
    + destruct (reconcileB_pending config b hB s2 Hx) as (E1 & E2 & _ & E3 & _).
      rewrite E1, E2, E3. eapply trackInv_own_pending; eassumption.
Qed.

(** A turn keeps the two tracking invariants. *)
Lemma iteration_feeds config st st' ra rb :
  feeds (readerA st) (eofA st) ra -> feeds (readerB st) (eofB st) rb ->
  Forall (fun row => row <> []) ra -> Forall (fun row => row <> []) rb ->
  iteration config st = Ok st' ->
  exists st1,
    sameData st st1 /\ turn config st1 (head ra) (head rb) st' /\
    feeds (readerA st') (eofA st') (tail ra) /\
    feeds (readerB st') (eofB st') (tail rb).
Proof.
  intros FA FB NA NB Hi.
  destruct (advance_feeds st ra rb FA FB NA NB)
    as (st1 & Hadv & FA1 & FB1 & _ & _ & SD).
  unfold iteration in Hi. rewrite Hadv in Hi.
  destruct (classify_input _ _ _ _ _ Hi) as (RA & RB & EA & EB).
  exists st1. split; [exact SD|]. split; [apply classify_turn, Hi|].
  rewrite RA, RB, EA, EB. auto.
Qed.

Lemma trackA_iteration config r h post st st' :
  hashRow r (keys config) = Ok h -> Forall (other config h) post ->
  trackA config r h post st -> iteration config st = Ok st' ->
  trackA config r h post st'.
Proof.
  intros Hr Hpost (ra & rb & FA & FB & NA & NB & T) Hi.
  destruct (iteration_feeds _ _ _ _ _ FA FB NA NB Hi)
    as (st1 & SD & Ht & FA' & FB').
  destruct SD as (EcA & EcB & _ & _ & _ & _ & _ & _ & _ & Eo & _).
  rewrite <- EcA, <- EcB, <- Eo in T.
  exists (tail ra), (tail rb). split_and!; auto using Forall_tail.
  eapply trackA_turn; eassumption.
Qed.

Lemma trackB_iteration config r h post st st' :
  hashRow r (keys config) = Ok h -> Forall (other config h) post ->
  trackB config r h post st -> iteration config st = Ok st' ->
  trackB config r h post st'.
Proof.
  intros Hr Hpost (ra & rb & FA & FB & NA & NB & T) Hi.
  destruct (iteration_feeds _ _ _ _ _ FA FB NA NB Hi)
    as (st1 & SD & Ht & FA' & FB').
  destruct SD as (EcA & EcB & _ & _ & _ & _ & _ & _ & _ & Eo & _).
  rewrite <- EcA, <- EcB, <- Eo in T.
  exists (tail ra), (tail rb). split_and!; auto using Forall_tail.
  eapply trackB_turn; eassumption.
Qed.

Lemma tallies_compared config x y echo hdr s s' :
  compared config x y echo hdr s s' -> tallies s -> tallies s'.
Proof.
  intros Hc [Hr Ha]. destruct minus_not_special as [M1 M2].
  destruct plus_not_special as [P1 P2].
  destruct (compared_occurrences _ _ _ _ _ _ _ [] "-" Hc M1 M2) as [_ Em].
  destruct (compared_occurrences _ _ _ _ _ _ _ [] "+" Hc P1 P2) as [_ Ep].
  destruct Hc as (Ea & Er & _).
  unfold tallies. rewrite Em, Ep, Ea, Er. auto.
Qed.

Lemma marked_same sign row : marked sign [delta row sign] = 1%nat.
Proof.
  unfold marked. simpl. rewrite bool_decide_eq_true_2 by reflexivity. reflexivity.
Qed.

Lemma marked_other sign sign' row :
  sign' <> sign -> marked sign [delta row sign'] = 0%nat.
Proof.
  intros H. unfold marked. simpl.
  rewrite bool_decide_eq_false_2; [reflexivity|]. intros E. congruence.
Qed.

Lemma tallies_removed st row :
  tallies st -> tallies (countRemoved (writeRow (delta row "-") st)).
Proof.
  intros [Hr Ha]. unfold tallies. simpl.
  rewrite !marked_app, marked_same, marked_other, Hr, Ha by discriminate. split.
  - rewrite incr_wrap64. f_equal. lia.
  - f_equal. lia.
Qed.

Lemma tallies_added st row :
  tallies st -> tallies (countAdded (writeRow (delta row "+") st)).
Proof.
  intros [Hr Ha]. unfold tallies. simpl.
  rewrite !marked_app, marked_same, marked_other, Hr, Ha by discriminate. split.
  - f_equal. lia.
  - rewrite incr_wrap64. f_equal. lia.
Qed.

Lemma tallies_same st st' :
  stdout st' = stdout st -> removedCount st' = removedCount st ->
  addedCount st' = addedCount st -> tallies st -> tallies st'.
Proof. intros Eo Er Ea [Hr Ha]. unfold tallies. rewrite Eo, Er, Ea. auto. Qed.

Lemma tallies_turn config st1 rowA rowB st' :
  turn config st1 rowA rowB st' -> tallies st1 -> tallies st'.
Proof.
  intros Ht T.
  assert (tallies (counted st1)) as Tc
    by (eapply tallies_same; [| | |exact T]; reflexivity).
  inversion Ht as [ | a b k Ha Hb | a b hA hB Ha Hb Hne
                  | a hA b Ha Hy | a hA Ha Hy
                  | b hB a Hb Hx | b hB Hb Hx ]; subst.
  - exact T.
  - destruct (pairAligned_effect config a b (counted st1)) as (_ & _ & _ & Hc).
    eapply tallies_compared; eassumption.
  - assert (tallies (reconcileA config a hA (counted st1))) as T2.
    { destruct (cacheB st1 !! hA) as [y|] eqn:Hy.
      - destruct (reconcileA_found config a hA (counted st1) y Hy) as (_ & _ & _ & Hc).
        eapply tallies_compared; eassumption.
      - destruct (reconcileA_pending config a hA (counted st1) Hy)
          as (_ & _ & _ & Eo & Ea & Er & _).
        eapply tallies_same; eassumption. }
    set (s2 := reconcileA config a hA (counted st1)) in *.
    destruct (cacheA s2 !! hB) as [x|] eqn:Hx.
    + destruct (reconcileB_found config b hB s2 x Hx) as (_ & _ & _ & Hc).
      eapply tallies_compared; eassumption.
    + destruct (reconcileB_pending config b hB s2 Hx)
        as (_ & _ & _ & Eo & Ea & Er & _).
      eapply tallies_same; eassumption.
  - destruct (pairAligned_effect config a b
                (set_cacheB (delete hA (cacheB st1)) (counted st1)))
      as (_ & _ & _ & Hc).
    eapply tallies_compared; [exact Hc|].
    eapply tallies_same; [| | |exact T]; reflexivity.
  - apply tallies_removed. eapply tallies_same; [| | |exact T]; reflexivity.
  - destruct (pairAligned_effect config a b
                (set_cacheA (delete hB (cacheA st1)) (counted st1)))
      as (_ & _ & _ & Hc).
    eapply tallies_compared; [exact Hc|].
    eapply tallies_same; [| | |exact T]; reflexivity.
  - apply tallies_added. eapply tallies_same; [| | |exact T]; reflexivity.
Qed.

Lemma advance_sameData st rowA rowB st1 :
  advance st = (rowA, rowB, st1) -> sameData st st1.
Proof.
  rewrite advance_eq.
  destruct (readRow (readerA st) (eofA st)) as [[rA eA] rdA].
  destruct (readRow (readerB st) (eofB st)) as [[rB eB] rdB].
  intros H. inversion H; subst. unfold sameData. simpl. split_and!; reflexivity.
Qed.

Lemma tallies_iteration config st st' :
  tallies st -> iteration config st = Ok st' -> tallies st'.
Proof.
  unfold iteration. destruct (advance st) as [[rowA rowB] st1] eqn:Ha.
  intros T Hc. apply classify_turn in Hc.
  apply advance_sameData in Ha.
  destruct Ha as (_ & _ & _ & Ea & _ & Er & _ & _ & _ & Eo & _).
  eapply tallies_turn; [exact Hc|].
  eapply tallies_same; eassumption.
Qed.

(** The drain. *)
Lemma drain_fold (f : list string -> list string) (count : State -> State)
    (l : list (Z * list string)) (st : State) :
  (forall s, stdout (count s) = stdout s /\ cacheA (count s) = cacheA s /\
             cacheB (count s) = cacheB s) ->
  let st' := fold_left (fun s e => count (writeRow (f (snd e)) s)) l st in
  stdout st' = stdout st ++ List.map (fun e => f (snd e)) l /\
  cacheA st' = cacheA st /\ cacheB st' = cacheB st.
Proof.
  intros Hcount. revert st. induction l as [|e l IH]; intros st; simpl.
  - rewrite app_nil_r. auto.
  - destruct (IH (count (writeRow (f (snd e)) st))) as (E1 & E2 & E3).
    destruct (Hcount (writeRow (f (snd e)) st)) as (C1 & C2 & C3).
    rewrite E1, E2, E3, C1, C2, C3. simpl. rewrite <- app_assoc. auto.
Qed.

Lemma drainA_effect st :
  stdout (drainA st)
  = stdout st ++ List.map (fun e : Z * list string => delta (snd e) "-")
                          (map_to_list (cacheA st)) /\
  cacheA (drainA st) = cacheA st /\ cacheB (drainA st) = cacheB st.
Proof.
  apply (drain_fold (fun row => delta row "-") countRemoved).
  intros s. repeat split.
Qed.

Lemma drainB_effect st :
  stdout (drainB st)
  = stdout st ++ List.map (fun e : Z * list string => delta (snd e) "+")
                          (map_to_list (cacheB st)) /\
  cacheA (drainB st) = cacheA st /\ cacheB (drainB st) = cacheB st.
Proof.
  apply (drain_fold (fun row => delta row "+") countAdded).
  intros s. repeat split.
Qed.

Lemma tallies_drain st : tallies st -> tallies (drainB (drainA st)).
Proof.
  intros T. unfold drainB, drainA.
  apply fold_left_invariant; [intros s e; apply tallies_added|].
  apply fold_left_invariant; [intros s e; apply tallies_removed|]. exact T.
Qed.

Lemma finish_stdout st status st' :
  finish st = Exit status st' ->
  stdout st' = stdout st /\ removedCount st' = removedCount st /\
  addedCount st' = addedCount st.
Proof.
  unfold finish. repeat (break_match; simpl);
    intros H; injection H as <- <-; repeat split.
Qed.

Lemma occurrences_other_sign r sign sign' (l : list (Z * list string)) :
  sign' <> sign ->
  occurrences (delta r sign)
    (List.map (fun e : Z * list string => delta (snd e) sign') l) = 0%nat.
Proof.
  intros Hs. induction l as [|e l IH]; [reflexivity|]. simpl List.map.
  change (delta (snd e) sign' :: ?t) with ([delta (snd e) sign'] ++ t).
  rewrite occurrences_app, IH, occurrences_other; [reflexivity|].
  intros E. injection E as E1 E2. congruence.
Qed.

Lemma trackA_initial config r h pre post (A B : list (list string)) :
  A = pre ++ r :: post ->
  Forall (fun row => row <> []) A -> Forall (fun row => row <> []) B ->
  Forall (other config h) pre -> Forall (other config h) B ->
  trackA config r h post (initial (readerOf A) (readerOf B)).
Proof.
  intros EA NA NB Fp FB. exists A, B. simpl. split_and!; auto.
  unfold trackInv. split_and!; auto.
  - intros k x Hl. rewrite lookup_empty in Hl. discriminate.
  - left. exists pre. split_and!; auto.
Qed.

Lemma trackB_initial config r h pre post (A B : list (list string)) :
  B = pre ++ r :: post ->
  Forall (fun row => row <> []) A -> Forall (fun row => row <> []) B ->
  Forall (other config h) pre -> Forall (other config h) A ->
  trackB config r h post (initial (readerOf A) (readerOf B)).
Proof.
  intros EB NA NB Fp FA. exists A, B. simpl. split_and!; auto.
  unfold trackInv. split_and!; auto.
  - intros k x Hl. rewrite lookup_empty in Hl. discriminate.
  - left. exists pre. split_and!; auto.
Qed.

Lemma classify_only_A config r h st1 st' :
  hashRow r (keys config) = Ok h -> cacheB st1 !! h = None ->
  classify config (Some r) None st1 = Ok st' ->
  stdout st' = stdout st1 ++ [delta r "-"] /\
  removedCount st' = incr (removedCount st1).
Proof.
  intros Hr Hc H. apply classify_turn in H.
  inversion H as [ | | | a hA b Ha Hy | a hA Ha Hy | | ]; subst.
  - assert (hA = h) as -> by congruence. congruence.
  - split; reflexivity.
Qed.

Lemma classify_only_B config r h st1 st' :
  hashRow r (keys config) = Ok h -> cacheA st1 !! h = None ->
  classify config None (Some r) st1 = Ok st' ->
  stdout st' = stdout st1 ++ [delta r "+"] /\
  addedCount st' = incr (addedCount st1).
Proof.
  intros Hr Hc H. apply classify_turn in H.
  inversion H as [ | | | | | b hB a Hb Hx | b hB Hb Hx ]; subst.
  - assert (hB = h) as -> by congruence. congruence.
  - split; reflexivity.
Qed.



(** * Further properties of the code *)

(** ** Command line *)

Lemma decimalFrom_mono acc s :
  0 <= acc -> allDigits s = true -> acc <= decimalFrom acc s.
Proof.
  revert acc. induction s as [|c s IH]; intros acc Ha Hd; simpl; [lia|].
  simpl in Hd. apply andb_true_iff in Hd. destruct Hd as [Hc Hd].
  unfold isDigit in Hc. apply andb_true_iff in Hc. destruct Hc as [H0 H9].
  apply Z.leb_le in H0, H9.
  assert (0 <= acc * 10 + (Z.of_nat (nat_of_ascii c) - 48)) as Hpos by lia.
  pose proof (IH _ Hpos Hd). lia.
Qed.

Lemma parseDigits_spec acc s f :
  0 <= acc < two64 ->
  parseDigits acc s = Some f <->
  allDigits s = true /\ decimalFrom acc s < two64 /\ f = decimalFrom acc s.
Proof.
  revert acc. induction s as [|c s IH]; intros acc Ha; simpl.
  - split.
    + intros H. injection H as <-. repeat split; lia.
    + intros (_ & _ & ->). reflexivity.
  - fold (isDigit c).
    destruct (isDigit c) eqn:Hc; simpl.
    + assert (0 <= acc * 10 + (Z.of_nat (nat_of_ascii c) - 48)) as Hpos.
      { unfold isDigit in Hc. apply andb_true_iff in Hc. destruct Hc as [H0 _].
        apply Z.leb_le in H0. lia. }
      destruct (acc * 10 + (Z.of_nat (nat_of_ascii c) - 48) <? two64) eqn:Hlt.
      * apply Z.ltb_lt in Hlt. apply IH. lia.
      * apply Z.ltb_ge in Hlt. split; [discriminate|].
        intros (Hd & Hv & _). exfalso.
        pose proof (decimalFrom_mono _ s Hpos Hd). lia.
    + split; [discriminate|]. intros (Hd & _). discriminate.
Qed.

Lemma ParseUint_spec v f :
  ParseUint v = Some f <->
  v <> EmptyString /\ allDigits v = true /\ decimal v < two64 /\ f = decimal v.
Proof.
  unfold ParseUint, decimal. destruct v as [|c v].
  - split; [discriminate|]. intros (H & _). congruence.
  - rewrite parseDigits_spec by (unfold two64; lia).
    split; [intros H; split; [discriminate | exact H] | intros (_ & H); exact H].
Qed.

Lemma atouisValues_spec raw values :
  atouisValues raw = Ok values <-> Forall2 accepted raw values.
Proof.
  revert values. induction raw as [|v raw IH]; intros values; simpl.
  - split.
    + intros H. apply Ok_inj in H. subst. constructor.
    + intros H. inversion H. reflexivity.
  - destruct (ParseUint v) as [f|] eqn:Hp.
    + apply ParseUint_spec in Hp. destruct Hp as (H1 & H2 & H3 & ->).
      destruct (atouisValues raw) as [rest|e] eqn:Hr; simpl.
      * split.
        -- intros H. apply Ok_inj in H. subst.
           constructor; [repeat split; assumption | apply IH; reflexivity].
        -- intros H. inversion H as [|? y ? ys Ha Hf]; subst.
           apply IH in Hf. apply Ok_inj in Hf. subst.
           destruct Ha as (_ & _ & _ & ->). reflexivity.
      * split; [discriminate|].
        intros H. inversion H as [|? y ? ys Ha Hf]; subst.
        apply IH in Hf. discriminate.
    + split; [discriminate|].
      intros H. inversion H as [|? y ? ys Ha Hf]; subst.
      destruct Ha as (H1 & H2 & H3 & _).
      assert (ParseUint v = Some (decimal v)) as E
        by (apply ParseUint_spec; repeat split; assumption).
      congruence.
Qed.

(** X1. [atouis] accepts exactly the arguments whose comma-separated pieces
    are all non-empty strings of decimal digits denoting a number below
    [2^64], and stores for each piece that number minus one, modulo [2^64]:
    one index per piece, in the order of the pieces, index 0 stored as
    [2^64 - 1]. *)
Theorem atouis_accepts (s : string) (values : list Z) :
  atouis s = Ok values <-> Forall2 accepted (Split s) values.
Proof. unfold atouis. apply atouisValues_spec. Qed.

Lemma atouisValues_error raw e :
  atouisValues raw = Err e ->
  exists good bad rest,
    raw = good ++ bad :: rest /\
    Forall (fun piece => exists v, accepted piece v) good /\
    ParseUint bad = None /\ e = LogFatal (InvalidFieldIndex bad).
Proof.
  induction raw as [|v raw IH]; simpl; [discriminate|].
  destruct (ParseUint v) as [f|] eqn:Hp.
  - destruct (atouisValues raw) as [rest|e'] eqn:Hr; simpl; [discriminate|].
    intros H. injection H as <-.
    destruct (IH eq_refl) as (good & bad & rest & -> & Hg & Hb & He).
    exists (v :: good), bad, rest. split; [reflexivity|]. split; [|auto].
    constructor; [|exact Hg].
    apply ParseUint_spec in Hp. destruct Hp as (H1 & H2 & H3 & _).
    exists (wrap64 (decimal v - 1)). repeat split; assumption.
  - intros H. injection H as <-.
    exists [], v, raw. repeat split; auto.
Qed.

(** X2. When [atouis] fails it is with "Invalid field index" on the first
    piece, from the left, that is empty, holds a character that is no decimal
    digit, or denotes a number of [2^64] or more; it fails in no other way. *)
Theorem atouis_rejects (s : string) (e : Abort) :
  atouis s = Err e ->
  exists good bad rest,
    Split s = good ++ bad :: rest /\
    Forall (fun piece => exists v, accepted piece v) good /\
    (bad = EmptyString \/ allDigits bad = false \/ two64 <= decimal bad) /\
    e = LogFatal (InvalidFieldIndex bad).
Proof.
  unfold atouis. intros H.
  destruct (atouisValues_error _ _ H) as (good & bad & rest & E & Hg & Hb & He).
  exists good, bad, rest. split; [exact E|]. split; [exact Hg|]. split; [|exact He].
  destruct bad as [|c bad]; [left; reflexivity|]. right.
  destruct (allDigits (String c bad)) eqn:Hd; [|left; reflexivity]. right.
  destruct (Z.lt_ge_cases (decimal (String c bad)) two64) as [Hlt|Hge]; [|exact Hge].
  exfalso.
  assert (ParseUint (String c bad) = Some (decimal (String c bad))) as E'
    by (apply ParseUint_spec; repeat split; [discriminate | assumption..]).
  congruence.
Qed.

Lemma atouis_rejects_witness :
  exists good bad rest,
    Split "1,,3" = good ++ bad :: rest /\
    Forall (fun piece => exists v, accepted piece v) good /\
    (bad = EmptyString \/ allDigits bad = false \/ two64 <= decimal bad) /\
    LogFatal (InvalidFieldIndex "") = LogFatal (InvalidFieldIndex bad).
Proof.
  apply (atouis_rejects "1,,3" (LogFatal (InvalidFieldIndex ""))).
  vm_compute. reflexivity.
Defined.

Lemma Split_nonempty s : Split s <> [].
Proof.
  induction s as [|c s IH]; simpl; [discriminate|].
  destruct (Ascii.eqb c ","%char); [discriminate|].
  destruct (Split s); discriminate.
Qed.

Lemma atouis_indexes s values :
  atouis s = Ok values ->
  values <> [] /\ Forall (fun k => 0 <= k < two64) values.
Proof.
  intros H. apply atouisValues_spec in H. split.
  - intros ->. inversion H as [E|]. symmetry in E. revert E. apply Split_nonempty.
  - induction H as [|piece v pieces vs Ha _ IH]; constructor; [|exact IH].
    destruct Ha as (_ & _ & _ & ->). unfold wrap64, two64.
    apply Z.mod_pos_bound. lia.
Qed.

Lemma int_of_uint64_range u :
  0 <= u < two64 -> - two63 <= int_of_uint64 u < two63.
Proof.
  intros H. unfold int_of_uint64.
  destruct (u <? two63) eqn:E;
    [apply Z.ltb_lt in E | apply Z.ltb_ge in E]; unfold two63, two64 in *; lia.
Qed.

Lemma atouis_no_panic s : atouis s <> Err RuntimePanic.
Proof.
  intros H. apply atouisValues_error in H.
  destruct H as (good & bad & rest & _ & _ & _ & H). discriminate.
Qed.

(** X3. Every configuration [parseArgs] returns has at least one key index,
    key indexes within [uint64], ignored positions within [int], and a symbol
    for the two-value encoding that is [|] or [!] and differs from the field
    separator. *)
Theorem parseArgs_wellformed (fl : Flags) (config : Config) :
  parseArgs fl = Ok config ->
  keys config <> [] /\
  Forall (fun k => 0 <= k < two64) (keys config) /\
  (forall f, f ∈ ignoredFields config -> - two63 <= f < two63) /\
  symbol config <> sep config /\
  (symbol config = "|"%char \/ symbol config = "!"%char).
Proof.
  unfold parseArgs, bind. intros H.
  destruct (if (flag_s fl =? "\t")%string then _ else _) as [sep'|]; [|discriminate].
  destruct (0 <? Z.of_nat (String.length (flag_k fl))); [|discriminate].
  destruct (atouis (flag_k fl)) as [ks|] eqn:Hk; [|discriminate].
  apply atouis_indexes in Hk. destruct Hk as [Hne Hr].
  destruct (0 <? Z.of_nat (String.length (flag_i fl))).
  - destruct (atouis (flag_i fl)) as [vs|] eqn:Hi; [|discriminate].
    apply atouis_indexes in Hi. destruct Hi as [_ Hvs].
    destruct sep' as [|c rest]; [discriminate|].
    apply Ok_inj in H. subst config. simpl. split_and!; auto.
    + intros f Hf. apply elem_of_list_to_set in Hf.
      apply list_elem_of_In, in_map_iff in Hf. destruct Hf as (u & <- & Hu).
      apply int_of_uint64_range. rewrite List.Forall_forall in Hvs. auto.
    + destruct (Ascii.eqb c "|"%char) eqn:E.
      * apply Ascii.eqb_eq in E. subst c. discriminate.
      * apply Ascii.eqb_neq in E. congruence.
    + destruct (Ascii.eqb c "|"%char); auto.
  - destruct sep' as [|c rest]; [discriminate|].
    apply Ok_inj in H. subst config. simpl. split_and!; auto.
    + intros f Hf. set_solver.
    + destruct (Ascii.eqb c "|"%char) eqn:E.
      * apply Ascii.eqb_eq in E. subst c. discriminate.
      * apply Ascii.eqb_neq in E. congruence.
    + destruct (Ascii.eqb c "|"%char); auto.
Qed.

Lemma parseArgs_wellformed_witness :
  exists config,
    parseArgs (commandLine "1,3" "2" false true false true false) = Ok config /\
    keys config <> [] /\
    Forall (fun k => 0 <= k < two64) (keys config) /\
    (forall f, f ∈ ignoredFields config -> - two63 <= f < two63) /\
    symbol config <> sep config /\
    (symbol config = "|"%char \/ symbol config = "!"%char).
Proof.
  eexists. split; [vm_compute; reflexivity|].
  apply (parseArgs_wellformed (commandLine "1,3" "2" false true false true false)).
  vm_compute. reflexivity.
Defined.


(** ** The key hasher *)

Lemma fnvWrite_app h a b :
  fnvWrite h (String.append a b) = fnvWrite (fnvWrite h a) b.
Proof.
  revert h. induction a as [|c a IH]; intros h; simpl; [reflexivity|]. apply IH.
Qed.

Lemma fnvWrite_range h data : 0 <= h < two64 -> 0 <= fnvWrite h data < two64.
Proof.
  revert h. induction data as [|c data IH]; intros h Hh; simpl; [exact Hh|].
  apply IH. unfold fnvByte, wrap64, two64. apply Z.mod_pos_bound. lia.
Qed.

Lemma index_Some row k f :
  index row k = Some f -> 0 <= k < Z.of_nat (length row).
Proof.
  unfold index.
  destruct ((0 <=? k) && (k <? Z.of_nat (length row))) eqn:E; [|discriminate].
  intros _. apply andb_true_iff in E. destruct E as [E1 E2].
  apply Z.leb_le in E1. apply Z.ltb_lt in E2. lia.
Qed.

Lemma index_None row k :
  index row k = None <-> ~ (0 <= k < Z.of_nat (length row)).
Proof.
  unfold index.
  destruct ((0 <=? k) && (k <? Z.of_nat (length row))) eqn:E.
  - apply andb_true_iff in E. destruct E as [E1 E2].
    apply Z.leb_le in E1. apply Z.ltb_lt in E2. split.
    + intros H. apply lookup_ge_None in H. lia.
    + intros H. exfalso. apply H. lia.
  - split; [|reflexivity]. intros _ [H1 H2].
    apply andb_false_iff in E. destruct E as [E|E];
      [apply Z.leb_gt in E | apply Z.ltb_ge in E]; lia.
Qed.

Lemma hashKeys_spec h row ks h' :
  hashKeys h row ks = Ok h' <->
  exists fields, Forall2 (keyField row) ks fields /\ h' = fnvWrite h (keyBytes fields).
Proof.
  revert h. induction ks as [|k ks IH]; intros h; simpl.
  - split.
    + intros H. apply Ok_inj in H. subst. exists []. split; [constructor | reflexivity].
    + intros (fields & HF & ->). inversion HF; subst. reflexivity.
  - destruct (index row k) as [field|] eqn:E.
    + rewrite IH. split.
      * intros (fields & HF & ->). exists (field :: fields). split.
        -- constructor; [exact E | exact HF].
        -- simpl. rewrite fnvWrite_app. reflexivity.
      * intros (fields & HF & ->). inversion HF as [|k' f' ks' fs' Hk HF']; subst.
        unfold keyField in Hk. rewrite E in Hk. apply Some_inj in Hk. subst f'.
        exists fs'. split; [exact HF'|]. simpl. rewrite fnvWrite_app. reflexivity.
    + split; [discriminate|].
      intros (fields & HF & _). inversion HF as [|k' f' ks' fs' Hk HF']; subst.
      unfold keyField in Hk. congruence.
Qed.

(** X5. [hashRow] returns a hash exactly when every key index is a position
    of the row, and the hash is then the 64-bit FNV-1a hash of the key fields
    written one after the other, in the order of the key list and with
    nothing between them. *)
Theorem hashRow_concat (row : list string) (ks : list Z) (h : Z) :
  hashRow row ks = Ok h <->
  exists fields,
    Forall2 (keyField row) ks fields /\ h = fnvWrite offset64 (keyBytes fields).
Proof. unfold hashRow. apply hashKeys_spec. Qed.

(** X6. The hash of a composite key does not see the field boundaries: two
    rows whose key fields give the same bytes when written one after the
    other get the same hash, although the key fields differ. *)
Theorem hashRow_boundaries (rowA rowB : list string) (ks : list Z)
    (fieldsA fieldsB : list string) :
  Forall2 (keyField rowA) ks fieldsA ->
  Forall2 (keyField rowB) ks fieldsB ->
  keyBytes fieldsA = keyBytes fieldsB ->
  exists h, hashRow rowA ks = Ok h /\ hashRow rowB ks = Ok h.
Proof.
  intros HA HB E. exists (fnvWrite offset64 (keyBytes fieldsA)). split.
  - apply hashKeys_spec. eauto.
  - apply hashKeys_spec. exists fieldsB. rewrite E. auto.
Qed.

Lemma hashRow_boundaries_witness :
  ["ab"; "c"; "x"] <> ["a"; "bc"; "x"] /\
  exists h, hashRow ["ab"; "c"; "x"] [0; 1] = Ok h /\
            hashRow ["a"; "bc"; "x"] [0; 1] = Ok h.
Proof.
  split; [discriminate|].
  apply (hashRow_boundaries ["ab"; "c"; "x"] ["a"; "bc"; "x"] [0; 1]
           ["ab"; "c"] ["a"; "bc"]).
  - repeat constructor.
  - repeat constructor.
  - reflexivity.
Defined.

Lemma hashKeys_error h row ks e :
  hashKeys h row ks = Err e <->
  e = RuntimePanic /\ exists k, In k ks /\ ~ (0 <= k < Z.of_nat (length row)).
Proof.
  revert h. induction ks as [|k ks IH]; intros h; simpl.
  - split; [discriminate|]. intros (_ & k & [] & _).
  - destruct (index row k) as [field|] eqn:E.
    + rewrite IH. split.
      * intros (-> & k' & Hin & Hk'). split; [reflexivity|]. eauto.
      * intros (-> & k' & [<-|Hin] & Hk'); [|eauto].
        apply index_Some in E. contradiction.
    + split.
      * intros H. injection H as <-. split; [reflexivity|].
        exists k. split; [auto|]. apply index_None, E.
      * intros (-> & _). reflexivity.
Qed.

(** X7. [hashRow] has two outcomes: a value of the type [uint64], or the
    run-time panic of an index out of range, and the panic occurs exactly when
    some key index is not a position of the row. *)
Theorem hashRow_outcomes (row : list string) (ks : list Z) :
  (forall h, hashRow row ks = Ok h -> 0 <= h < two64) /\
  (forall e, hashRow row ks = Err e <->
     e = RuntimePanic /\ exists k, In k ks /\ ~ (0 <= k < Z.of_nat (length row))).
Proof.
  split.
  - intros h H. apply hashKeys_spec in H. destruct H as (fields & _ & ->).
    apply fnvWrite_range. unfold offset64, two64. lia.
  - intros e. apply hashKeys_error.
Qed.

(** ** The range check *)

Lemma keyOutOfRange_false rowA rowB k :
  keyOutOfRange rowA rowB k = false <-> keyPasses rowA rowB k.
Proof.
  unfold keyOutOfRange, keyPasses. rewrite orb_false_iff, !Z.leb_gt. tauto.
Qed.

Lemma fieldOutOfRange_false rowA rowB f :
  fieldOutOfRange rowA rowB f = false <-> fieldPasses rowA rowB f.
Proof.
  unfold fieldOutOfRange, fieldPasses. rewrite orb_false_iff, !Z.leb_gt. tauto.
Qed.

(** X8. [checkRow] returns exactly when every key index, read as an [int],
    and every ignored position is below the number of fields of both rows.
    Otherwise it ends in [log.Fatalf], never in a panic; the key indexes are
    tested first and in the order of the key list, so the message names the
    first key index that fails, and an ignored position is named only when
    all key indexes pass. *)
Theorem checkRow_outcomes (rowA rowB : option (list string)) (config : Config) :
  (checkRow rowA rowB config = Ok tt <->
     (forall k, In k (keys config) -> keyPasses rowA rowB k) /\
     (forall f, f ∈ ignoredFields config -> fieldPasses rowA rowB f)) /\
  (forall e, checkRow rowA rowB config = Err e ->
     (exists pre k post,
        keys config = pre ++ k :: post /\ Forall (keyPasses rowA rowB) pre /\
        ~ keyPasses rowA rowB k /\
        e = LogFatal (KeyIndexOutOfRange (wrap64 (k + 1)))) \/
     (Forall (keyPasses rowA rowB) (keys config) /\
      exists f, f ∈ ignoredFields config /\ ~ fieldPasses rowA rowB f /\
        e = LogFatal (IgnoredFieldOutOfRange (wrap_int (f + 1))))).
Proof.
  assert (Hfirst : forall l k, List.find (keyOutOfRange rowA rowB) l = Some k ->
            exists pre post, l = pre ++ k :: post /\ Forall (keyPasses rowA rowB) pre /\
                             ~ keyPasses rowA rowB k).
  { induction l as [|x l IH]; intros k; simpl; [discriminate|].
    destruct (keyOutOfRange rowA rowB x) eqn:Ex.
    - intros H. apply Some_inj in H. subst x. exists [], l.
      split; [reflexivity|]. split; [constructor|].
      intros Hp. apply keyOutOfRange_false in Hp. congruence.
    - intros H. destruct (IH _ H) as (pre & post & -> & Hpre & Hk).
      exists (x :: pre), post. split; [reflexivity|]. split; [|exact Hk].
      constructor; [apply keyOutOfRange_false, Ex | exact Hpre]. }
  assert (Hnone : forall l, List.find (keyOutOfRange rowA rowB) l = None ->
            Forall (keyPasses rowA rowB) l).
  { intros l H. apply List.Forall_forall. intros k Hin.
    apply keyOutOfRange_false. eapply find_none in H; [exact H | exact Hin]. }
  unfold checkRow. split.
  - destruct (List.find (keyOutOfRange rowA rowB) (keys config)) as [k|] eqn:Hk.
    + split; [discriminate|]. intros [HK _]. exfalso.
      apply find_some in Hk. destruct Hk as [Hin Hk].
      apply HK, keyOutOfRange_false in Hin. congruence.
    + destruct (List.find (fieldOutOfRange rowA rowB) (elements (ignoredFields config)))
        as [f|] eqn:Hf.
      * split; [discriminate|]. intros [_ HF]. exfalso.
        apply find_some in Hf. destruct Hf as [Hin Hf].
        apply list_elem_of_In, elem_of_elements in Hin.
        apply HF, fieldOutOfRange_false in Hin. congruence.
      * split; [|reflexivity]. intros _. split.
        -- intros k Hin. apply Hnone in Hk.
           rewrite List.Forall_forall in Hk. apply Hk, Hin.
        -- intros f Hin. apply fieldOutOfRange_false.
           eapply find_none in Hf; [exact Hf|].
           apply list_elem_of_In, elem_of_elements, Hin.
  - intros e.
    destruct (List.find (keyOutOfRange rowA rowB) (keys config)) as [k|] eqn:Hk.
    + intros H. injection H as <-. left.
      destruct (Hfirst _ _ Hk) as (pre & post & E & Hpre & Hnk).
      exists pre, k, post. auto.
    + destruct (List.find (fieldOutOfRange rowA rowB) (elements (ignoredFields config)))
        as [f|] eqn:Hf; [|discriminate].
      intros H. injection H as <-. right. split; [apply Hnone, Hk|].
      apply find_some in Hf. destruct Hf as [Hin Hf].
      apply list_elem_of_In, elem_of_elements in Hin.
      exists f. split; [exact Hin|]. split; [|reflexivity].
      intros Hp. apply fieldOutOfRange_false in Hp. congruence.
Qed.

(** X9. What the range check is worth to the hasher.  After [checkRow] has
    passed a pair of rows, [hashRow] returns on the row of input A exactly
    when every key index is below 2^63; a key index from 2^63 on, which is
    what [-k 0] stores, is negative as an [int], passes the check and makes
    [hashRow] panic. *)
Theorem checkRow_guards_hashRow (a b : list string) (config : Config) :
  Forall (fun k => 0 <= k < two64) (keys config) ->
  Z.of_nat (length a) < two63 ->
  checkRow (Some a) (Some b) config = Ok tt ->
  ((exists h, hashRow a (keys config) = Ok h) <->
   Forall (fun k => k < two63) (keys config)).
Proof.
  intros HK Hlen Hc.
  assert (Hpass : forall k, In k (keys config) -> keyPasses (Some a) (Some b) k).
  { unfold checkRow in Hc.
    destruct (List.find _ (keys config)) as [k'|] eqn:Hk; [discriminate|].
    intros k Hin. apply keyOutOfRange_false.
    eapply find_none in Hk; [exact Hk | exact Hin]. }
  rewrite List.Forall_forall in HK. split.
  - intros [h Hh]. apply List.Forall_forall. intros k Hin.
    destruct (Z.lt_ge_cases k two63) as [Hlt|Hge]; [exact Hlt|]. exfalso.
    assert (hashRow a (keys config) = Err RuntimePanic) as He.
    { unfold hashRow. apply hashKeys_error. split; [reflexivity|].
      exists k. split; [exact Hin|]. lia. }
    congruence.
  - intros Hlt. rewrite List.Forall_forall in Hlt.
    apply hashKeys_inRange. intros k Hin.
    pose proof (HK _ Hin) as Hr. pose proof (Hlt _ Hin) as Hl.
    destruct (Hpass _ Hin) as [Hp _]. unfold int_of_uint64 in Hp.
    assert ((k <? two63) = true) as E by (apply Z.ltb_lt; exact Hl).
    rewrite E in Hp. simpl in Hp. lia.
Qed.

Lemma checkRow_guards_hashRow_witness :
  checkRow (Some ["k"; "x"]) (Some ["k"; "y"])
           (indexedConfig [18446744073709551615] ∅) = Ok tt /\
  ~ (exists h, hashRow ["k"; "x"] [18446744073709551615] = Ok h).
Proof.
  assert (Hc : checkRow (Some ["k"; "x"]) (Some ["k"; "y"])
                 (indexedConfig [18446744073709551615] ∅) = Ok tt)
    by (vm_compute; reflexivity).
  split; [exact Hc|].
  intros H.
  apply (checkRow_guards_hashRow ["k"; "x"] ["k"; "y"]
           (indexedConfig [18446744073709551615] ∅)) in H.
  - inversion H as [|k l Hk Hl]; subst. unfold two63 in Hk. lia.
  - repeat constructor; unfold two64; lia.
  - simpl. unfold two63. lia.
  - exact Hc.
Defined.

(** ** The comparator, position by position *)

Lemma copyAt_lookup src dst off j :
  copyAt dst off src !! j =
  if decide (off <= j < off + length src /\ j < length dst)%nat
  then src !! (j - off)%nat else dst !! j.
Proof.
  revert dst off. induction src as [|x src IH]; intros dst off; simpl.
  - case_decide; [lia | reflexivity].
  - rewrite IH, length_insert, list_lookup_insert.
    destruct (decide (j = off)) as [->|Hne].
    + rewrite Nat.sub_diag. simpl.
      repeat case_decide; try lia; try reflexivity.
    + destruct (decide (off < j)%nat) as [Hlt|Hge].
      * replace (j - off)%nat with (S (j - S off)) by lia. simpl.
        repeat case_decide; try lia; reflexivity.
      * repeat case_decide; try lia; reflexivity.
Qed.

Lemma lookup_nth (row : list string) j :
  (j < length row)%nat -> row !! j = Some (nth j row EmptyString).
Proof.
  intros H. rewrite nth_lookup.
  destruct (row !! j) eqn:E; [reflexivity|]. apply lookup_ge_None in E. lia.
Qed.

Lemma marksUpTo_0 rowA rowB config mf : marksUpTo rowA rowB config 0 mf = mf.
Proof.
  unfold marksUpTo. destruct mf as [v|]; simpl; [|reflexivity]. f_equal.
  apply list_eq. intros j. rewrite list_lookup_imap.
  destruct (v !! j); simpl; [|reflexivity]. rewrite orb_false_r. reflexivity.
Qed.

Lemma marksUpTo_skip rowA rowB config i mf :
  differs rowA rowB config i = false ->
  marksUpTo rowA rowB config (S i) mf = marksUpTo rowA rowB config i mf.
Proof.
  intros D. unfold marksUpTo. destruct mf as [v|]; simpl; [|reflexivity]. f_equal.
  apply imap_ext. intros j b _. f_equal.
  destruct (decide (j = i)) as [->|Hne].
  - rewrite D, !andb_false_r. reflexivity.
  - f_equal. destruct (Nat.ltb_spec j (S i)), (Nat.ltb_spec j i); try reflexivity; lia.
Qed.

Lemma marksUpTo_update rowA rowB config i mf :
  differs rowA rowB config i = true ->
  update (marksUpTo rowA rowB config i mf) i = marksUpTo rowA rowB config (S i) mf.
Proof.
  intros D. unfold marksUpTo, update. destruct mf as [v|]; simpl; [|reflexivity].
  rewrite length_imap.
  destruct (Nat.ltb_spec i (length v)) as [Hlt|Hge]; f_equal; apply list_eq; intros j.
  - rewrite list_lookup_insert, length_imap, !list_lookup_imap.
    case_decide as Hj.
    + destruct Hj as [<- _].
      destruct (v !! i) as [b|] eqn:E; [|apply lookup_ge_None in E; lia]. simpl.
      rewrite D. assert ((i <? S i)%nat = true) as -> by (apply Nat.ltb_lt; lia).
      rewrite orb_true_r. reflexivity.
    + destruct (v !! j) as [b|] eqn:E; simpl; [|reflexivity].
      assert (j <> i) by (intros ->; apply Hj; split; [reflexivity | exact Hlt]).
      do 3 f_equal.
      destruct (Nat.ltb_spec j (S i)), (Nat.ltb_spec j i); try reflexivity; lia.
  - rewrite !list_lookup_imap.
    destruct (v !! j) as [b|] eqn:E; simpl; [|reflexivity].
    apply lookup_lt_Some in E. do 3 f_equal.
    destruct (Nat.ltb_spec j (S i)), (Nat.ltb_spec j i); try reflexivity; lia.
Qed.

Lemma differs_below rowA rowB config i :
  differs rowA rowB config i = true ->
  (i < Nat.max (length rowA) (length rowB))%nat.
Proof.
  unfold differs. intros H. apply andb_true_iff in H. destruct H as [_ H].
  destruct (Nat.ltb_spec i (Nat.min (length rowA) (length rowB))); [lia|].
  apply Nat.ltb_lt in H. exact H.
Qed.

Lemma marksUpTo_all rowA rowB config mf :
  marksUpTo rowA rowB config (Nat.max (length rowA) (length rowB)) mf
  = marks rowA rowB config mf.
Proof.
  unfold marksUpTo, marks. destruct mf as [v|]; simpl; [|reflexivity]. f_equal.
  apply imap_ext. intros j b _. f_equal.
  destruct (differs rowA rowB config j) eqn:D; [|apply andb_false_r].
  apply differs_below in D. rewrite andb_true_r. apply Nat.ltb_lt, D.
Qed.

Lemma marks_none rowA rowB config mf :
  (forall j, differs rowA rowB config j = false) -> marks rowA rowB config mf = mf.
Proof.
  intros H. unfold marks. destruct mf as [v|]; simpl; [|reflexivity]. f_equal.
  apply list_eq. intros j. rewrite list_lookup_imap.
  destruct (v !! j); simpl; [|reflexivity]. rewrite H, orb_false_r. reflexivity.
Qed.

Lemma compareField_upTo rowA rowB config mf i acc :
  (i < Nat.min (length rowA) (length rowB))%nat ->
  comparedUpTo rowA rowB config mf i acc ->
  comparedUpTo rowA rowB config mf (S i)
    (compareField rowA rowB config (Nat.max (length rowA) (length rowB)) acc i).
Proof.
  intros Hi [Ht Hs].
  assert (Hmin : (i <? Nat.min (length rowA) (length rowB))%nat = true)
    by (apply Nat.ltb_lt, Hi).
  assert (Hd : negb (isIgnored config i)
               && negb (nth i rowA EmptyString =? nth i rowB EmptyString)%string
               = differs rowA rowB config i).
  { unfold differs. rewrite Hmin. reflexivity. }
  assert (Hkeep : forall j, (j < i)%nat -> differs rowA rowB config j = false ->
            rowA !! j = Some (deltaField rowA rowB config j)).
  { intros j Hj Dj. unfold deltaField.
    assert ((j <? Nat.min (length rowA) (length rowB))%nat = true) as ->
      by (apply Nat.ltb_lt; lia).
    rewrite Dj. apply lookup_nth. lia. }
  unfold compareField. cbv zeta. rewrite Hd.
  destruct (differs rowA rowB config i) eqn:D; simpl.
  - unfold comparedUpTo. simpl. split; [rewrite Ht; apply marksUpTo_update, D|].
    split; [right; exists i; split; [lia | exact D]|].
    assert (Hnew : deltaField rowA rowB config i
                   = concat (nth i rowA EmptyString) (nth i rowB EmptyString)
                            (format config) (symbol config)).
    { unfold deltaField. rewrite Hmin, D. reflexivity. }
    destruct (same acc) eqn:Sa.
    + destruct Hs as (E & Hrd & Hno).
      unfold newDelta. simpl. rewrite copyAt_cons. simpl.
      eexists. split; [reflexivity|].
      split; [rewrite length_insert, copyAt_length, length_replicate; reflexivity|].
      split.
      * intros j Hj. destruct (decide (j = i)) as [->|Hne].
        -- rewrite list_lookup_insert_eq
             by (rewrite copyAt_length, length_replicate; lia).
           rewrite Hnew. reflexivity.
        -- rewrite list_lookup_insert_ne by auto.
           rewrite copyAt_lookup, length_take, length_replicate.
           case_decide as Hc; [|lia].
           rewrite Nat.sub_0_r, lookup_take_lt by lia.
           apply Hkeep; [lia|]. apply Hno. lia.
      * intros j Hj. rewrite list_lookup_insert_ne by lia.
        rewrite copyAt_lookup, length_take, length_replicate.
        case_decide as Hc; [lia|]. apply lookup_replicate_2. lia.
    + destruct Hs as (_ & r & Hrd & Hlen & Hlow & Hhigh).
      rewrite Hrd. simpl. eexists. split; [reflexivity|].
      split; [rewrite length_insert; exact Hlen|]. split.
      * intros j Hj. destruct (decide (j = i)) as [->|Hne].
        -- rewrite list_lookup_insert_eq by lia. rewrite Hnew. reflexivity.
        -- rewrite list_lookup_insert_ne by auto. apply Hlow. lia.
      * intros j Hj. rewrite list_lookup_insert_ne by lia. apply Hhigh. lia.
  - assert (Hold : deltaField rowA rowB config i = nth i rowA EmptyString).
    { unfold deltaField. rewrite Hmin, D. reflexivity. }
    destruct (same acc) eqn:Sa; simpl.
    + unfold comparedUpTo. rewrite Sa.
      split; [rewrite marksUpTo_skip by exact D; exact Ht|].
      destruct Hs as (E & Hrd & Hno). split_and!; auto.
      intros j Hj. destruct (decide (j = i)) as [->|Hne]; [exact D|]. apply Hno. lia.
    + unfold comparedUpTo. simpl.
      split; [rewrite marksUpTo_skip by exact D; exact Ht|].
      destruct Hs as (Hwhy & r & Hrd & Hlen & Hlow & Hhigh). split.
      * destruct Hwhy as [Hne | (j & Hj & Dj)]; [left; exact Hne|].
        right. exists j. split; [lia | exact Dj].
      * rewrite Hrd. simpl. eexists. split; [reflexivity|].
        split; [rewrite length_insert; exact Hlen|]. split.
        -- intros j Hj. destruct (decide (j = i)) as [->|Hne].
           ++ rewrite list_lookup_insert_eq by lia. rewrite Hold. reflexivity.
           ++ rewrite list_lookup_insert_ne by auto. apply Hlow. lia.
        -- intros j Hj. rewrite list_lookup_insert_ne by lia. apply Hhigh. lia.
Qed.

Lemma padField_upTo rowA rowB config mf i acc :
  (Nat.min (length rowA) (length rowB) <= i < Nat.max (length rowA) (length rowB))%nat ->
  comparedUpTo rowA rowB config mf i acc ->
  comparedUpTo rowA rowB config mf (S i)
    (padField rowA rowB config (if (length rowB <? length rowA)%nat then 1 else 2) acc i).
Proof.
  intros Hi [Ht Hs].
  assert (Hmin : (i <? Nat.min (length rowA) (length rowB))%nat = false)
    by (apply Nat.ltb_ge; lia).
  assert (Hd : differs rowA rowB config i = negb (isIgnored config i)).
  { unfold differs. rewrite Hmin.
    assert ((i <? Nat.max (length rowA) (length rowB))%nat = true) as ->
      by (apply Nat.ltb_lt; lia).
    apply andb_true_r. }
  destruct (same acc) eqn:Sa; [destruct Hs as (E & _); lia|].
  destruct Hs as (Hwhy & r & Hrd & Hlen & Hlow & Hhigh).
  assert (Hwhy' : length rowA <> length rowB \/
                  exists j, (j < S i)%nat /\ differs rowA rowB config j = true)
    by (left; lia).
  unfold padField. destruct (isIgnored config i) eqn:Ig; simpl in Hd.
  - unfold comparedUpTo. rewrite Sa.
    split; [rewrite marksUpTo_skip by exact Hd; exact Ht|].
    split; [exact Hwhy'|]. exists r. split_and!; auto.
    + intros j Hj. destruct (decide (j = i)) as [->|Hne]; [|apply Hlow; lia].
      rewrite Hhigh by lia. unfold deltaField. rewrite Hmin, Ig. reflexivity.
    + intros j Hj. apply Hhigh. lia.
  - destruct (length rowB <? length rowA)%nat eqn:L; simpl;
      unfold comparedUpTo; simpl; rewrite Sa;
      (split; [rewrite Ht; apply marksUpTo_update, Hd|]);
      (split; [exact Hwhy'|]); rewrite Hrd; simpl;
      (eexists; split; [reflexivity|]);
      (split; [rewrite length_insert; exact Hlen|]); split.
    + intros j Hj. destruct (decide (j = i)) as [->|Hne].
      * rewrite list_lookup_insert_eq by lia.
        unfold deltaField. rewrite Hmin, Ig, L. reflexivity.
      * rewrite list_lookup_insert_ne by auto. apply Hlow. lia.
    + intros j Hj. rewrite list_lookup_insert_ne by lia. apply Hhigh. lia.
    + intros j Hj. destruct (decide (j = i)) as [->|Hne].
      * rewrite list_lookup_insert_eq by lia.
        unfold deltaField. rewrite Hmin, Ig, L. reflexivity.
      * rewrite list_lookup_insert_ne by auto. apply Hlow. lia.
    + intros j Hj. rewrite list_lookup_insert_ne by lia. apply Hhigh. lia.
Qed.

Lemma fold_seq_upTo (P : nat -> Cmp -> Prop) (f : Cmp -> nat -> Cmp) k :
  forall s acc,
    (forall i a, (s <= i < s + k)%nat -> P i a -> P (S i) (f a i)) ->
    P s acc -> P (s + k)%nat (fold_left f (seq s k) acc).
Proof.
  induction k as [|k IH]; intros s acc Hstep H0; simpl.
  - rewrite Nat.add_0_r. exact H0.
  - replace (s + S k)%nat with (S s + k)%nat by lia. apply IH.
    + intros i a Hi. apply Hstep. lia.
    + apply Hstep; [lia | exact H0].
Qed.

Lemma fold_upTo rowA rowB config mf maxLen minLen longest acc :
  maxLen = Nat.max (length rowA) (length rowB) ->
  minLen = Nat.min (length rowA) (length rowB) ->
  longest = (if (length rowB <? length rowA)%nat then 1 else 2) \/ maxLen = minLen ->
  comparedUpTo rowA rowB config mf 0 acc ->
  comparedUpTo rowA rowB config mf maxLen
    (fold_left (padField rowA rowB config longest) (seq minLen (maxLen - minLen))
       (fold_left (compareField rowA rowB config maxLen) (seq 0 minLen) acc)).
Proof.
  intros Em En Hl H0.
  assert (Hc : comparedUpTo rowA rowB config mf minLen
                 (fold_left (compareField rowA rowB config maxLen) (seq 0 minLen) acc)).
  { change minLen with (0 + minLen)%nat at 1.
    apply (fold_seq_upTo (comparedUpTo rowA rowB config mf)); [|exact H0].
    intros i a Hi. rewrite Em. apply compareField_upTo. lia. }
  destruct Hl as [-> | E].
  - replace maxLen with (minLen + (maxLen - minLen))%nat at 1 by lia.
    apply (fold_seq_upTo (comparedUpTo rowA rowB config mf)); [|exact Hc].
    intros i a Hi. apply padField_upTo. lia.
  - rewrite E, Nat.sub_diag. simpl. rewrite E in Hc. exact Hc.
Qed.

Lemma areEqualsCmp_upTo rowA rowB config mf :
  comparedUpTo rowA rowB config mf (Nat.max (length rowA) (length rowB))
    (areEqualsCmp rowA rowB config mf).
Proof.
  assert (Hinit : forall m, m = Nat.max (length rowA) (length rowB) ->
            length rowA <> length rowB ->
            comparedUpTo rowA rowB config mf 0
              {| rowDelta := Some (newDelta m); same := false; tracked := mf |}).
  { intros m Em Hne. unfold comparedUpTo. simpl.
    split; [symmetry; apply marksUpTo_0|]. split; [left; exact Hne|].
    exists (replicate m EmptyString). split; [reflexivity|].
    split; [rewrite length_replicate; exact Em|]. split; [intros j Hj; lia|].
    intros j Hj. apply lookup_replicate_2. lia. }
  unfold areEqualsCmp.
  destruct (length rowB <? length rowA)%nat eqn:E1;
    [|destruct (length rowA <? length rowB)%nat eqn:E2]; cbv zeta iota beta.
  - apply Nat.ltb_lt in E1.
    replace (Nat.max (length rowA) (length rowB)) with (length rowA) at 1 by lia.
    apply fold_upTo; [lia | lia | left; rewrite (proj2 (Nat.ltb_lt _ _) E1); reflexivity|].
    apply Hinit; lia.
  - apply Nat.ltb_ge in E1. apply Nat.ltb_lt in E2.
    replace (Nat.max (length rowA) (length rowB)) with (length rowB) at 1 by lia.
    apply fold_upTo; [lia | lia | left; rewrite (proj2 (Nat.ltb_ge _ _) E1); reflexivity|].
    apply Hinit; lia.
  - apply Nat.ltb_ge in E1, E2.
    replace (Nat.max (length rowA) (length rowB)) with (length rowB) at 1 by lia.
    apply fold_upTo; [lia | lia | right; lia|].
    unfold comparedUpTo. simpl. split; [symmetry; apply marksUpTo_0|].
    split; [lia|]. split; [reflexivity|]. intros j Hj. lia.
Qed.

Lemma list_of_lookups (f : nat -> string) (r : list string) s :
  (forall j, (j < length r)%nat -> r !! j = Some (f (s + j)%nat)) ->
  r = map f (seq s (length r)).
Proof.
  revert s. induction r as [|x r IH]; intros s H; simpl; [reflexivity|]. f_equal.
  - specialize (H 0%nat ltac:(simpl; lia)). simpl in H. apply Some_inj in H.
    rewrite Nat.add_0_r in H. exact H.
  - apply IH. intros j Hj. specialize (H (S j) ltac:(simpl; lia)). simpl in H.
    rewrite H. f_equal. f_equal. lia.
Qed.

Lemma unchanged_spec rowA rowB config :
  unchanged rowA rowB config = true <->
  length rowA = length rowB /\ forall j, differs rowA rowB config j = false.
Proof.
  unfold unchanged. rewrite andb_true_iff, Nat.eqb_eq, forallb_forall. split.
  - intros [E H]. split; [exact E|]. intros j.
    destruct (differs rowA rowB config j) eqn:D; [|reflexivity].
    apply differs_below in D as Hj.
    assert (In j (seq 0 (length rowA))) as Hin by (apply in_seq; lia).
    apply H in Hin. rewrite D in Hin. discriminate.
  - intros [E H]. split; [exact E|]. intros j _. rewrite H. reflexivity.
Qed.

Lemma areEqualsCmp_spec rowA rowB config mf :
  areEqualsCmp rowA rowB config mf =
  if unchanged rowA rowB config
  then {| rowDelta := None; same := true; tracked := mf |}
  else {| rowDelta :=
            Some ("#" :: map (deltaField rowA rowB config)
                            (seq 0 (Nat.max (length rowA) (length rowB))));
          same := false;
          tracked := marks rowA rowB config mf |}.
Proof.
  destruct (areEqualsCmp_upTo rowA rowB config mf) as [Ht Hs].
  rewrite marksUpTo_all in Ht.
  destruct (areEqualsCmp rowA rowB config mf) as [rd sm tr]. simpl in *. subst tr.
  destruct sm.
  - destruct Hs as (E & -> & Hno).
    assert (forall j, differs rowA rowB config j = false) as Hall.
    { intros j. destruct (differs rowA rowB config j) eqn:D; [|reflexivity].
      apply differs_below in D as Hj. rewrite <- D. apply Hno, Hj. }
    rewrite (proj2 (unchanged_spec rowA rowB config)) by auto.
    rewrite marks_none by exact Hall. reflexivity.
  - destruct Hs as (Hwhy & r & -> & Hlen & Hlow & _).
    destruct (unchanged rowA rowB config) eqn:U.
    + exfalso. apply unchanged_spec in U. destruct U as [E Hall].
      destruct Hwhy as [Hne | (j & _ & Dj)]; [contradiction|].
      rewrite Hall in Dj. discriminate.
    + do 3 f_equal. rewrite <- Hlen. apply list_of_lookups.
      intros j Hj. simpl. apply Hlow. lia.
Qed.

(** X10. What [areEquals] returns, in full.  Rows of one length without a
    changed position are equal: no delta row, the tracking vector as it was.
    Otherwise the delta row is the marker [#] followed by one field for each
    position of the longer row: the value of input A where the position is
    ignored or the two fields agree, the two-value encoding where they
    differ, the encoding with [_] in the place of the missing value where
    only the longer row has the position, and an empty field there when the
    position is ignored; and each changed position the tracking vector has is
    set in it, the others left as they were. *)
Theorem areEquals_spec (rowA rowB : list string) (config : Config)
    (mf : option (list bool)) :
  areEquals rowA rowB config mf =
  if unchanged rowA rowB config then (None, true, mf)
  else (Some ("#" :: map (deltaField rowA rowB config)
                        (seq 0 (Nat.max (length rowA) (length rowB)))),
        false, marks rowA rowB config mf).
Proof.
  unfold areEquals. rewrite areEqualsCmp_spec.
  destruct (unchanged rowA rowB config); reflexivity.
Qed.

Lemma differs_sym rowA rowB config i :
  differs rowA rowB config i = differs rowB rowA config i.
Proof.
  unfold differs. rewrite (Nat.min_comm (length rowB)), (Nat.max_comm (length rowB)).
  rewrite (String.eqb_sym (nth i rowB EmptyString)). reflexivity.
Qed.

Lemma unchanged_sym rowA rowB config :
  unchanged rowA rowB config = unchanged rowB rowA config.
Proof.
  apply eq_true_iff_eq. rewrite !unchanged_spec. split; intros [E H];
    (split; [congruence|]); intros j; [rewrite <- differs_sym | rewrite differs_sym];
    apply H.
Qed.

(** X11. The verdict of [areEquals] and the positions it records do not
    depend on which of the two rows comes from which input; only the delta
    row does. *)
Theorem areEquals_symmetric (rowA rowB : list string) (config : Config)
    (mf : option (list bool)) :
  snd (fst (areEquals rowA rowB config mf)) = snd (fst (areEquals rowB rowA config mf)) /\
  snd (areEquals rowA rowB config mf) = snd (areEquals rowB rowA config mf).
Proof.
  unfold areEquals. rewrite !areEqualsCmp_spec, (unchanged_sym rowB rowA).
  destruct (unchanged rowA rowB config); simpl; [auto|].
  split; [reflexivity|]. unfold marks. destruct mf as [v|]; simpl; [|reflexivity].
  f_equal. apply imap_ext. intros j b _. rewrite differs_sym. reflexivity.
Qed.

(** X12. The verdict in terms of the rows: [areEquals] reports a pair as
    equal exactly when the two rows have the same number of fields and every
    position at which they differ is ignored, whatever the tracking vector
    holds. *)
Theorem areEquals_verdict (rowA rowB : list string) (config : Config)
    (mf : option (list bool)) :
  snd (fst (areEquals rowA rowB config mf)) = true <->
  length rowA = length rowB /\
  forall i, rowA !! i <> rowB !! i -> Z.of_nat i ∈ ignoredFields config.
Proof.
  unfold areEquals. rewrite areEqualsCmp_spec.
  assert (unchanged rowA rowB config = true <->
          length rowA = length rowB /\
          forall i, rowA !! i <> rowB !! i -> Z.of_nat i ∈ ignoredFields config) as U.
  { rewrite unchanged_spec. split; intros [E H]; (split; [exact E|]).
    - intros i Hne. specialize (H i). unfold differs in H.
      destruct (isIgnored config i) eqn:Ig;
        [apply bool_decide_eq_true in Ig; exact Ig|]. exfalso. simpl in H.
      destruct (Nat.ltb_spec i (Nat.min (length rowA) (length rowB))) as [Hi|Hi].
      + apply negb_false_iff, String.eqb_eq in H.
        apply Hne. rewrite !lookup_nth by lia. congruence.
      + apply Nat.ltb_ge in H. apply Hne.
        rewrite (proj2 (lookup_ge_None rowA i)), (proj2 (lookup_ge_None rowB i)) by lia.
        reflexivity.
    - intros j. unfold differs.
      destruct (isIgnored config j) eqn:Ig; [reflexivity|]. simpl.
      destruct (Nat.ltb_spec j (Nat.min (length rowA) (length rowB))) as [Hj|Hj].
      + apply negb_false_iff, String.eqb_eq.
        destruct (decide (rowA !! j = rowB !! j)) as [Heq|Hne].
        * rewrite !lookup_nth in Heq by lia. congruence.
        * apply H in Hne. unfold isIgnored in Ig.
          apply bool_decide_eq_false in Ig. contradiction.
      + apply Nat.ltb_ge. lia. }
  destruct (unchanged rowA rowB config); simpl.
  - split; [intros _; apply U; reflexivity | reflexivity].
  - split; [discriminate|]. intros H. apply U in H. discriminate.
Qed.

(** ** The states of a run *)

Lemma reachable_invariant (P : State -> Prop) config st0 :
  P st0 ->
  (forall st st', P st -> iteration config st = Ok st' -> P st') ->
  forall st, reachable config st0 st -> P st.
Proof.
  intros H0 Hstep st Hr. induction Hr as [|st st' _ IH _ Hi]; [exact H0|].
  eapply Hstep; eassumption.
Qed.

Lemma loop_reachable config fuel st0 st e :
  reachable config st0 st -> loop fuel config st = Some e ->
  match e with
  | Completed st' => reachable config st0 st' /\ eofA st' = true /\ eofB st' = true
  | Stopped _ st' => reachable config st0 st'
  end.
Proof.
  revert st. induction fuel as [|fuel IH]; intros st Hr; simpl.
  - destruct (negb (eofA st) || negb (eofB st)) eqn:Hc; [discriminate|].
    intros H. apply Some_inj in H. subst e.
    destruct (eofA st), (eofB st); simpl in Hc; try discriminate; auto.
  - destruct (negb (eofA st) || negb (eofB st)) eqn:Hc.
    + destruct (iteration config st) as [st1|a] eqn:Hi.
      * apply IH. eapply reach_turn; eassumption.
      * intros H. apply Some_inj in H. subst e. exact Hr.
    + intros H. apply Some_inj in H. subst e.
      destruct (eofA st), (eofB st); simpl in Hc; try discriminate; auto.
Qed.

Lemma iteration_turn config st st' :
  iteration config st = Ok st' ->
  exists rowA rowB st1, sameData st st1 /\ turn config st1 rowA rowB st'.
Proof.
  unfold iteration. destruct (advance st) as [[rowA rowB] st1] eqn:Ha.
  intros Hc. exists rowA, rowB, st1.
  split; [eapply advance_sameData, Ha | apply classify_turn, Hc].
Qed.

(** ** Header row and tracking vector *)

Lemma tracksMore_refl mf : tracksMore mf mf.
Proof. destruct mf; simpl; auto. Qed.

Lemma tracksMore_trans mf1 mf2 mf3 :
  tracksMore mf1 mf2 -> tracksMore mf2 mf3 -> tracksMore mf1 mf3.
Proof.
  destruct mf1, mf2, mf3; simpl; try tauto.
  intros [L1 H1] [L2 H2]. split; [congruence | auto].
Qed.

Lemma areEqualsCmp_tracks a b config mf :
  tracksMore mf (tracked (areEqualsCmp a b config mf)).
Proof.
  rewrite areEqualsCmp_spec. destruct (unchanged a b config); simpl;
    [apply tracksMore_refl|].
  unfold marks. destruct mf as [v|]; simpl; [|exact I].
  split; [apply length_imap|]. intros i Hi.
  rewrite list_lookup_imap, Hi. reflexivity.
Qed.

Lemma pairAligned_capture config a b st :
  (first st = false ->
   first (pairAligned config a b st) = false /\
   headers (pairAligned config a b st) = headers st /\
   tracksMore (modifiedFields st) (modifiedFields (pairAligned config a b st))) /\
  (first st = true ->
   first (pairAligned config a b st) = false /\
   exists n, modifiedFields (pairAligned config a b st) = makeBools n /\
     if noHeader config then headers (pairAligned config a b st) = headers st
     else exists h, headers (pairAligned config a b st) = Some h /\ length h = n).
Proof.
  pose proof (areEqualsCmp_tracks a b config (modifiedFields st)) as Ht.
  unfold pairAligned, areEquals.
  destruct (same (areEqualsCmp a b config (modifiedFields st))) eqn:Hs;
    destruct (first st) eqn:Hf; simpl; rewrite ?Hf; simpl;
    destruct (noHeader config) eqn:Hn; destruct (common config) eqn:Hc; simpl;
    (split; intros Hx; [try discriminate | try discriminate]);
    try (split_and!; auto; fail);
    (split; [reflexivity|]); (eexists; split; [reflexivity|]);
    try reflexivity;
    rewrite deepCopy_id; (eexists; split; [reflexivity|]);
    rewrite ?length_drop; reflexivity.
Qed.

Lemma reconcileA_capture config a h st :
  first (reconcileA config a h st) = first st /\
  headers (reconcileA config a h st) = headers st /\
  tracksMore (modifiedFields st) (modifiedFields (reconcileA config a h st)).
Proof.
  unfold reconcileA, searchCache, areEquals.
  destruct (cacheB st !! h) as [altB|]; simpl.
  - pose proof (areEqualsCmp_tracks a altB config (modifiedFields st)) as Ht.
    destruct (same (areEqualsCmp a altB config (modifiedFields st))); simpl;
      [destruct (common config); simpl|]; auto.
  - destruct (cacheA st !! h); simpl; auto using tracksMore_refl.
Qed.

Lemma reconcileB_capture config b h st :
  first (reconcileB config b h st) = first st /\
  headers (reconcileB config b h st) = headers st /\
  tracksMore (modifiedFields st) (modifiedFields (reconcileB config b h st)).
Proof.
  unfold reconcileB, searchCache, areEquals.
  destruct (cacheA st !! h) as [altA|]; simpl.
  - pose proof (areEqualsCmp_tracks altA b config (modifiedFields st)) as Ht.
    destruct (same (areEqualsCmp altA b config (modifiedFields st))); simpl;
      [destruct (common config); simpl|]; auto.
  - destruct (cacheB st !! h); simpl; auto using tracksMore_refl.
Qed.

Lemma turn_capture config st1 rowA rowB st' :
  turn config st1 rowA rowB st' ->
  (first st' = first st1 /\ headers st' = headers st1 /\
   tracksMore (modifiedFields st1) (modifiedFields st')) \/
  (first st1 = true /\ first st' = false /\
   exists n, modifiedFields st' = makeBools n /\
     if noHeader config then headers st' = headers st1
     else exists h, headers st' = Some h /\ length h = n).
Proof.
  assert (Hpair : forall a b s,
            first s = first st1 -> headers s = headers st1 ->
            modifiedFields s = modifiedFields st1 ->
            (first (pairAligned config a b s) = first st1 /\
             headers (pairAligned config a b s) = headers st1 /\
             tracksMore (modifiedFields st1) (modifiedFields (pairAligned config a b s))) \/
            (first st1 = true /\ first (pairAligned config a b s) = false /\
             exists n, modifiedFields (pairAligned config a b s) = makeBools n /\
               if noHeader config then headers (pairAligned config a b s) = headers st1
               else exists h, headers (pairAligned config a b s) = Some h /\ length h = n)).
  { intros a b s Ef Eh Em. destruct (pairAligned_capture config a b s) as [Hoff Hon].
    rewrite Ef, Eh, Em in *. destruct (first st1) eqn:Hf.
    - right. destruct (Hon eq_refl) as (F & n & M & H). split; [reflexivity|].
      split; [exact F|]. exists n. auto.
    - left. apply Hoff. reflexivity. }
  intros Ht.
  inversion Ht as [ | a b k Ha Hb | a b hA hB Ha Hb Hne
                  | a hA b Ha Hy | a hA Ha Hy
                  | b hB a Hb Hx | b hB Hb Hx ]; subst;
    try (apply Hpair; reflexivity);
    try (left; simpl; auto using tracksMore_refl; fail).
  left.
  destruct (reconcileA_capture config a hA (counted st1)) as (F1 & H1 & T1).
  destruct (reconcileB_capture config b hB (reconcileA config a hA (counted st1)))
    as (F2 & H2 & T2).
  rewrite F2, F1, H2, H1. split_and!; try reflexivity.
  eapply tracksMore_trans; [exact T1 | exact T2].
Qed.

Lemma iteration_capture config st st' :
  iteration config st = Ok st' ->
  (first st' = first st /\ headers st' = headers st /\
   tracksMore (modifiedFields st) (modifiedFields st')) \/
  (first st = true /\ first st' = false /\
   exists n, modifiedFields st' = makeBools n /\
     if noHeader config then headers st' = headers st
     else exists h, headers st' = Some h /\ length h = n).
Proof.
  intros Hi. destruct (iteration_turn _ _ _ Hi) as (rowA & rowB & st1 & SD & Ht).
  destruct SD as (_ & _ & Eh & _ & _ & _ & _ & Em & Ef & _).
  rewrite <- Eh, <- Em, <- Ef. eapply turn_capture, Ht.
Qed.



(** X14. The pair that switches [first] off is not recorded by position.  A
    turn entered with [first] on and left with [first] off leaves a tracking
    vector without any mark, however many fields of its pair differ; the
    header row it captures, when headers are expected, has the length of that
    vector. *)
Theorem first_pair_unrecorded (config : Config) (st st' : State) :
  iteration config st = Ok st' ->
  first st = true -> first st' = false ->
  exists n, modifiedFields st' = makeBools n /\
    if noHeader config then headers st' = headers st
    else exists h, headers st' = Some h /\ length h = n.
Proof.
  intros Hi Hon Hoff. destruct (iteration_capture _ _ _ Hi) as [(F & _) | (_ & _ & H)].
  - congruence.
  - exact H.
Qed.

Lemma first_pair_unrecorded_witness :
  exists st',
    iteration (plainConfig true false)
              (initial (readerOf [["1"; "x"; "p"]]) (readerOf [["1"; "y"; "q"]])) = Ok st' /\
    modifiedCount st' = 1 /\
    exists n, modifiedFields st' = makeBools n /\ headers st' = None.
Proof.
  destruct (iteration (plainConfig true false)
              (initial (readerOf [["1"; "x"; "p"]]) (readerOf [["1"; "y"; "q"]])))
    as [st'|e] eqn:Hi; [|vm_compute in Hi; discriminate].
  exists st'. split; [reflexivity|].
  assert (Hst : Ok st' = Ok st') by reflexivity.
  rewrite <- Hi in Hst at 1. vm_compute in Hst. apply Ok_inj in Hst.
  split; [subst st'; reflexivity|].
  apply (first_pair_unrecorded (plainConfig true false) _ st' Hi);
    [reflexivity | subst st'; reflexivity].
Defined.

(** ** From the loop to the exit *)

Lemma keepsCapture_refl st : keepsCapture st st.
Proof. unfold keepsCapture. split_and!; reflexivity. Qed.

Lemma keepsCapture_trans st1 st2 st3 :
  keepsCapture st1 st2 -> keepsCapture st2 st3 -> keepsCapture st1 st3.
Proof. unfold keepsCapture. intuition congruence. Qed.

Lemma drain_keepsCapture st : keepsCapture st (drainB (drainA st)).
Proof.
  unfold drainB, drainA.
  apply (fold_left_invariant (keepsCapture st)).
  { intros s e H. eapply keepsCapture_trans; [exact H|].
    unfold keepsCapture. simpl. split_and!; reflexivity. }
  apply (fold_left_invariant (keepsCapture st)).
  { intros s e H. eapply keepsCapture_trans; [exact H|].
    unfold keepsCapture. simpl. split_and!; reflexivity. }
  apply keepsCapture_refl.
Qed.

Lemma finish_keepsCapture st : keepsCapture st (stateOf (finish st)).
Proof.
  unfold finish. repeat (break_match; simpl);
    unfold keepsCapture; simpl; split_and!; reflexivity.
Qed.

Lemma main_outcome config inA inB o :
  main config inA inB = Some o ->
  exists s, reachable config (initial inA inB) s /\ keepsCapture s (stateOf o) /\
    match o with
    | Exit _ _ => eofA s = true /\ eofB s = true /\ o = finish (drainB (drainA s))
    | Abend e st => st = s /\ iteration config s = Err e
    end.
Proof.
  unfold main, run. intros H.
  destruct (loop _ config _) as [[s|e s]|] eqn:Hl; try discriminate.
  - apply Some_inj in H. subst o.
    apply (loop_reachable config _ (initial inA inB)) in Hl; [|apply reach_start].
    destruct Hl as (Hr & E1 & E2). exists s. split; [exact Hr|]. split.
    + eapply keepsCapture_trans; [apply drain_keepsCapture | apply finish_keepsCapture].
    + destruct (finish (drainB (drainA s))) eqn:Hf.
      * auto.
      * unfold finish in Hf. repeat break_match; discriminate.
  - apply Some_inj in H. subst o. simpl.
    assert (Hr : reachable config (initial inA inB) s)
      by (apply (loop_reachable config _ (initial inA inB)) in Hl;
          [exact Hl | apply reach_start]).
    exists s. split; [exact Hr|]. split; [apply keepsCapture_refl|].
    split; [reflexivity|].
    clear Hr. revert Hl. generalize (initial inA inB) as s0.
    induction (turns inA inB) as [|fuel IH]; intros s0; simpl.
    + destruct (negb (eofA s0) || negb (eofB s0)); discriminate.
    + destruct (negb (eofA s0) || negb (eofB s0)); [|discriminate].
      destruct (iteration config s0) as [s1|e1] eqn:Hi.
      * apply IH.
      * intros H. injection H as <- <-. auto.
Qed.

(** ** The caches *)

Lemma reconcileA_caches config a hA st :
  hashRow a (keys config) = Ok hA ->
  keyed config (cacheA st) -> keyed config (cacheB st) -> disjointCaches st ->
  keyed config (cacheA (reconcileA config a hA st)) /\
  keyed config (cacheB (reconcileA config a hA st)) /\
  disjointCaches (reconcileA config a hA st).
Proof.
  intros Ha KA KB D. unfold disjointCaches.
  destruct (cacheB st !! hA) as [y|] eqn:Hy.
  - destruct (reconcileA_found config a hA st y Hy) as (EA & EB & _).
    rewrite EA, EB. split; [exact KA|]. split; [apply keyed_delete, KB|].
    intros h. destruct (D h) as [H|H]; [left; exact H|].
    right. apply lookup_delete_None. auto.
  - destruct (reconcileA_pending config a hA st Hy) as (EA & EB & _).
    rewrite EA, EB. split; [apply keyed_insert; assumption|]. split; [exact KB|].
    intros h. destruct (decide (h = hA)) as [->|Hne]; [right; exact Hy|].
    destruct (D h) as [H|H]; [|right; exact H].
    left. rewrite lookup_insert_ne by auto. exact H.
Qed.

Lemma reconcileB_caches config b hB st :
  hashRow b (keys config) = Ok hB ->
  keyed config (cacheA st) -> keyed config (cacheB st) -> disjointCaches st ->
  keyed config (cacheA (reconcileB config b hB st)) /\
  keyed config (cacheB (reconcileB config b hB st)) /\
  disjointCaches (reconcileB config b hB st).
Proof.
  intros Hb KA KB D. unfold disjointCaches.
  destruct (cacheA st !! hB) as [x|] eqn:Hx.
  - destruct (reconcileB_found config b hB st x Hx) as (EB & EA & _).
    rewrite EA, EB. split; [apply keyed_delete, KA|]. split; [exact KB|].
    intros h. destruct (D h) as [H|H]; [|right; exact H].
    left. apply lookup_delete_None. auto.
  - destruct (reconcileB_pending config b hB st Hx) as (EB & EA & _).
    rewrite EA, EB. split; [exact KA|]. split; [apply keyed_insert; assumption|].
    intros h. destruct (decide (h = hB)) as [->|Hne]; [left; exact Hx|].
    destruct (D h) as [H|H]; [left; exact H|].
    right. rewrite lookup_insert_ne by auto. exact H.
Qed.

Lemma turn_caches config st1 rowA rowB st' :
  turn config st1 rowA rowB st' ->
  keyed config (cacheA st1) -> keyed config (cacheB st1) -> disjointCaches st1 ->
  keyed config (cacheA st') /\ keyed config (cacheB st') /\ disjointCaches st'.
Proof.
  intros Ht KA KB D.
  inversion Ht as [ | a b k Ha Hb | a b hA hB Ha Hb Hne
                  | a hA b Ha Hy | a hA Ha Hy
                  | b hB a Hb Hx | b hB Hb Hx ]; subst.
  - auto.
  - destruct (pairAligned_effect config a b (counted st1)) as (EA & EB & _).
    unfold disjointCaches. rewrite EA, EB. auto.
  - destruct (reconcileA_caches config a hA (counted st1) Ha KA KB D) as (KA2 & KB2 & D2).
    apply reconcileB_caches; assumption.
  - destruct (pairAligned_effect config a b
                (set_cacheB (delete hA (cacheB st1)) (counted st1))) as (EA & EB & _).
    unfold disjointCaches. rewrite EA, EB. simpl.
    split; [exact KA|]. split; [apply keyed_delete, KB|].
    intros h. destruct (D h) as [H|H]; [left; exact H|].
    right. apply lookup_delete_None. auto.
  - auto.
  - destruct (pairAligned_effect config a b
                (set_cacheA (delete hB (cacheA st1)) (counted st1))) as (EA & EB & _).
    unfold disjointCaches. rewrite EA, EB. simpl.
    split; [apply keyed_delete, KA|]. split; [exact KB|].
    intros h. destruct (D h) as [H|H]; [|right; exact H].
    left. apply lookup_delete_None. auto.
  - auto.
Qed.

(** X15. The two caches of pending rows, in every state a run passes
    through: each pending row is kept under its own key hash, and no key hash
    is pending on both sides at once. *)
Theorem cache_invariant (config : Config) (inA inB : list (string * bool))
    (st : State) :
  reachable config (initial inA inB) st ->
  keyed config (cacheA st) /\ keyed config (cacheB st) /\ disjointCaches st.
Proof.
  apply (reachable_invariant
           (fun s => keyed config (cacheA s) /\ keyed config (cacheB s) /\
                     disjointCaches s)).
  - simpl. split_and!.
    + intros k x H. rewrite lookup_empty in H. discriminate.
    + intros k x H. rewrite lookup_empty in H. discriminate.
    + intros h. left. apply lookup_empty.
  - intros s s' (KA & KB & D) Hi.
    destruct (iteration_turn _ _ _ Hi) as (rowA & rowB & s1 & SD & Ht).
    destruct SD as (EA & EB & _).
    eapply turn_caches; [exact Ht | | |].
    + rewrite EA. exact KA.
    + rewrite EB. exact KB.
    + unfold disjointCaches. rewrite EA, EB. exact D.
Qed.

Lemma cache_invariant_witness :
  keyed (plainConfig true false) (cacheA dupState) /\
  keyed (plainConfig true false) (cacheB dupState) /\ disjointCaches dupState.
Proof.
  apply (cache_invariant (plainConfig true false)
           (readerOf [["k1"; "a"]; ["k1"; "b"]]) (readerOf [["k2"]; ["k3"]])).
  eapply reach_turn; [apply reach_start | reflexivity | vm_compute; reflexivity].
Defined.

(** ** The summary *)

Lemma captureInv_iteration config st st' :
  captureInv st -> iteration config st = Ok st' -> captureInv st'.
Proof.
  unfold captureInv. intros C Hi.
  destruct (iteration_capture _ _ _ Hi) as [(F & H & T) | (Fon & Foff & n & M & H)].
  - rewrite F, H. destruct (first st).
    + destruct C as [C1 C2]. split; [exact C1|]. rewrite C2 in T.
      destruct (modifiedFields st'); simpl in T; [contradiction | reflexivity].
    + destruct C as (v & Ev & Hh). rewrite Ev in T.
      destruct (modifiedFields st') as [v'|]; simpl in T; [|contradiction].
      destruct T as [L _]. exists v'. split; [reflexivity|].
      intros h Eh. rewrite L. apply Hh, Eh.
  - rewrite Fon in C. destruct C as [C1 _]. rewrite Foff.
    exists (replicate n false). split; [exact M|]. intros h Eh.
    rewrite length_replicate. destruct (noHeader config).
    + congruence.
    + destruct H as (h' & Eh' & L). congruence.
Qed.

(** X16. How a run ends, with or without a fault, as to the header row and
    the tracking vector.  If no pair was ever aligned there is neither, so
    the summary names no modified field whatever the count of modifications;
    otherwise there is a tracking vector and a captured header row has
    exactly its length, so the summary finds a header for every position it
    names. *)
Theorem summary_state (config : Config) (inA inB : list (string * bool))
    (o : Outcome) :
  main config inA inB = Some o -> captureInv (stateOf o).
Proof.
  intros H. destruct (main_outcome _ _ _ _ H) as (s & Hr & K & _).
  assert (captureInv s) as C.
  { apply (reachable_invariant captureInv config (initial inA inB)); [| |exact Hr].
    - unfold captureInv. simpl. auto.
    - intros s0 s1. apply captureInv_iteration. }
  destruct K as (F & Hh & M & _). unfold captureInv in *.
  rewrite F, Hh, M. exact C.
Qed.

Lemma summary_state_witness :
  exists st,
    main (plainConfig false false) (readerOf crossedA) (readerOf crossedB)
    = Some (Exit 1 st) /\
    modifiedCount st = 2 /\ first st = true /\ captureInv st.
Proof.
  destruct (main (plainConfig false false) (readerOf crossedA) (readerOf crossedB))
    as [o|] eqn:Hm; [|vm_compute in Hm; discriminate].
  pose proof (summary_state _ _ _ _ Hm) as C.
  assert (Ho : Some o = Some o) by reflexivity.
  rewrite <- Hm in Ho at 1. vm_compute in Ho. apply Some_inj in Ho.
  exists (stateOf o). subst o. simpl. split; [reflexivity|].
  split; [reflexivity|]. split; [reflexivity | exact C].
Defined.

Lemma modifiedLabels_from hdrs s v :
  modifiedLabels hdrs s v
  = map (fieldLabel hdrs)
        (List.filter (fun i => nth (i - s) v false) (seq s (length v))).
Proof.
  revert s. induction v as [|b v IH]; intros s; simpl; [reflexivity|].
  rewrite Nat.sub_diag. rewrite IH.
  assert (List.filter (fun i => nth (i - S s) v false) (seq (S s) (length v))
          = List.filter (fun i => match (i - s)%nat with
                                   | O => b
                                   | S m => nth m v false
                                   end) (seq (S s) (length v))) as ->.
  { apply List.filter_ext_in. intros i Hi. apply in_seq in Hi.
    replace (i - s)%nat with (S (i - S s)) by lia. reflexivity. }
  destruct b; reflexivity.
Qed.

Lemma modifiedLabels_marked hdrs v :
  modifiedLabels hdrs 0 v = map (fieldLabel hdrs) (markedPositions v).
Proof.
  rewrite modifiedLabels_from. unfold markedPositions. f_equal.
  apply List.filter_ext. intros i. rewrite Nat.sub_0_r. reflexivity.
Qed.

Lemma markedPositions_spec v i : In i (markedPositions v) <-> v !! i = Some true.
Proof.
  unfold markedPositions. rewrite filter_In, in_seq. split.
  - intros [Hi Hn]. rewrite nth_lookup in Hn.
    destruct (v !! i) as [b|]; simpl in Hn; congruence.
  - intros Hl. split; [apply lookup_lt_Some in Hl; lia|].
    rewrite nth_lookup, Hl. reflexivity.
Qed.

(** X17. The summary of a run that counted a modification.  The last two
    lines on standard error are the totals, with the counters as the run
    leaves them, and the line of the modified fields; that line lists
    exactly the positions that hold a mark in the tracking vector, in
    ascending order, each with its 1-based number and, when a header row was
    captured, with the header field of that position, which the header row
    always has. *)
Theorem summary_line (config : Config) (inA inB : list (string * bool))
    (status : Z) (st : State) :
  main config inA inB = Some (Exit status st) ->
  0 < modifiedCount st ->
  let v := match modifiedFields st with Some v => v | None => [] end in
  (exists before,
     stderr st
     = before ++ [Total (totalCount st) (removedCount st) (addedCount st)
                        (modifiedCount st);
                  ModifiedFieldsLine (map (fieldLabel (headers st)) (markedPositions v))]) /\
  (forall i, In i (markedPositions v) <-> v !! i = Some true) /\
  (forall i h, In i (markedPositions v) -> headers st = Some h ->
               h !! i = Some (nth i h EmptyString)) /\
  status = 1.
Proof.
  intros Hm Hpos v.
  destruct (main_outcome _ _ _ _ Hm) as (s & Hr & K & _ & _ & Ho).
  assert (captureInv s) as C.
  { apply (reachable_invariant captureInv config (initial inA inB)); [| |exact Hr].
    - unfold captureInv. simpl. auto.
    - intros s0 s1. apply captureInv_iteration. }
  simpl in K. destruct K as (F & Hh & M & Mc & _).
  unfold captureInv in C. rewrite <- F, <- Hh, <- M in C.
  set (s2 := drainB (drainA s)) in *.
  assert (Mc2 : modifiedCount s2 = modifiedCount st).
  { rewrite Mc. destruct (drain_keepsCapture s) as (_ & _ & _ & E & _). exact E. }
  unfold finish in Ho.
  assert ((0 <? modifiedCount s2) = true) as Hlt by (apply Z.ltb_lt; lia).
  rewrite Hlt, orb_true_r in Ho. simpl in Ho. rewrite Hlt in Ho.
  injection Ho as -> ->. simpl. split_and!.
  - exists (stderr s2). rewrite <- app_assoc. simpl.
    rewrite modifiedLabels_marked. reflexivity.
  - intros i. apply markedPositions_spec.
  - intros i h Hi Eh. apply lookup_nth.
    unfold v in Hi. simpl in *. apply markedPositions_spec in Hi.
    apply lookup_lt_Some in Hi.
    destruct (first s2).
    + destruct C as [C1 _]. congruence.
    + destruct C as (v' & Ev & Hl). rewrite Ev in Hi. rewrite (Hl h Eh). exact Hi.
  - reflexivity.
Qed.

Lemma summary_line_witness :
  exists st,
    main (plainConfig false false)
         (readerOf [["id"; "name"; "age"]; ["1"; "a"; "30"]; ["2"; "b"; "40"]])
         (readerOf [["id"; "name"; "age"]; ["1"; "a"; "31"]; ["2"; "c"; "40"]])
    = Some (Exit 1 st) /\
    exists before,
      stderr st
      = before ++ [Total 3 0 0 2;
                   ModifiedFieldsLine [(Some "name", 2); (Some "age", 3)]].
Proof.
  destruct (main (plainConfig false false)
              (readerOf [["id"; "name"; "age"]; ["1"; "a"; "30"]; ["2"; "b"; "40"]])
              (readerOf [["id"; "name"; "age"]; ["1"; "a"; "31"]; ["2"; "c"; "40"]]))
    as [[status st|e st]|] eqn:Hm;
    try (vm_compute in Hm; discriminate).
  assert (Ho : Some (Exit status st) = Some (Exit status st)) by reflexivity.
  rewrite <- Hm in Ho at 1. vm_compute in Ho. apply Some_inj in Ho.
  injection Ho as Es Est.
  assert (Hpos : 0 < modifiedCount st) by (rewrite <- Est; simpl; lia).
  destruct (summary_line _ _ _ _ _ Hm Hpos) as ((before & Hb) & _ & _ & E1).
  exists st. split; [rewrite E1; reflexivity|].
  exists before. rewrite Hb. rewrite <- Est. reflexivity.
Defined.

(** ** The count of the turns *)

Lemma pairAligned_totalCount config a b st :
  totalCount (pairAligned config a b st) = totalCount st.
Proof.
  unfold pairAligned, areEquals. repeat (break_match; simpl); reflexivity.
Qed.

Lemma reconcileA_totalCount config a h st :
  totalCount (reconcileA config a h st) = totalCount st.
Proof.
  unfold reconcileA, searchCache, areEquals. repeat (break_match; simpl); reflexivity.
Qed.

Lemma reconcileB_totalCount config b h st :
  totalCount (reconcileB config b h st) = totalCount st.
Proof.
  unfold reconcileB, searchCache, areEquals. repeat (break_match; simpl); reflexivity.
Qed.

Lemma turn_totalCount config st1 rowA rowB st' :
  turn config st1 rowA rowB st' ->
  totalCount st'
  = match rowA, rowB with
    | None, None => totalCount st1
    | _, _ => incr (totalCount st1)
    end.
Proof.
  intros Ht.
  inversion Ht as [ | a b k Ha Hb | a b hA hB Ha Hb Hne
                  | a hA b Ha Hy | a hA Ha Hy
                  | b hB a Hb Hx | b hB Hb Hx ]; subst;
    rewrite ?reconcileB_totalCount, ?reconcileA_totalCount, ?pairAligned_totalCount;
    reflexivity.
Qed.

Lemma turnsCounted_iteration M config st st' :
  turnsCounted M st -> iteration config st = Ok st' -> turnsCounted M st'.
Proof.
  intros (ra & rb & FA & FB & NA & NB & T) Hi.
  destruct (iteration_feeds config st st' ra rb FA FB NA NB Hi)
    as (st1 & SD & Ht & FA' & FB').
  destruct SD as (_ & _ & _ & _ & _ & _ & Et & _).
  exists (tail ra), (tail rb). split; [exact FA'|]. split; [exact FB'|].
  split; [apply Forall_tail, NA|]. split; [apply Forall_tail, NB|].
  rewrite (turn_totalCount _ _ _ _ _ Ht), Et, T.
  destruct ra as [|a ra], rb as [|b rb]; simpl head; simpl tail;
    try reflexivity; rewrite incr_wrap64; f_equal; simpl length; lia.
Qed.

(** X18. What the summary calls the total.  In a run that ends without a
    fault, on inputs whose rows have at least one field, the total counter
    is the number of rows of the longer input (as a 64-bit unsigned counter):
    it counts the turns of the loop that read a row, not the rows read. *)
Theorem total_counts_turns (config : Config) (A B : list (list string))
    (status : Z) (st : State) :
  Forall (fun row => row <> []) A -> Forall (fun row => row <> []) B ->
  main config (readerOf A) (readerOf B) = Some (Exit status st) ->
  totalCount st = wrap64 (Z.of_nat (Nat.max (length A) (length B))).
Proof.
  intros NA NB Hm.
  destruct (main_outcome _ _ _ _ Hm) as (s & Hr & K & E1 & E2 & _).
  assert (turnsCounted (Nat.max (length A) (length B)) s) as T.
  { apply (reachable_invariant (turnsCounted (Nat.max (length A) (length B)))
             config (initial (readerOf A) (readerOf B))); [| |exact Hr].
    - exists A, B. simpl. split_and!; auto.
      rewrite Z.sub_diag. reflexivity.
    - intros s0 s1. apply turnsCounted_iteration. }
  destruct T as (ra & rb & FA & FB & _ & _ & T).
  unfold feeds in FA, FB. rewrite E1 in FA. rewrite E2 in FB. subst ra rb.
  simpl in K. destruct K as (_ & _ & _ & _ & Et & _).
  rewrite Et, T. f_equal. simpl. lia.
Qed.

Lemma total_counts_turns_witness :
  length exampleA = 3%nat /\ length exampleB = 3%nat /\
  totalCount exampleExit = 3.
Proof.
  split; [reflexivity|]. split; [reflexivity|].
  apply (total_counts_turns (plainConfig true false) exampleA exampleB 1 exampleExit).
  - repeat constructor; discriminate.
  - repeat constructor; discriminate.
  - vm_compute. reflexivity.
Defined.

(** ** The rows of the delta stream *)

Lemma hasMarker_delta row sign :
  sign = "="%char \/ sign = "#"%char \/ sign = "-"%char \/ sign = "+"%char ->
  hasMarker (delta row sign).
Proof. intros H. exists sign, row. split; [reflexivity | exact H]. Qed.

Lemma deltaStream_same st st' :
  stdout st' = stdout st -> modifiedCount st' = modifiedCount st ->
  deltaStream st -> deltaStream st'.
Proof. unfold deltaStream. intros -> ->. auto. Qed.

Lemma deltaStream_written st st' row sign :
  sign = "="%char \/ sign = "-"%char \/ sign = "+"%char ->
  stdout st' = stdout st ++ [delta row sign] ->
  modifiedCount st' = modifiedCount st ->
  deltaStream st -> deltaStream st'.
Proof.
  unfold deltaStream. intros Hs -> -> [F M]. split.
  - apply Forall_app. split; [exact F|]. constructor; [|constructor].
    apply hasMarker_delta. tauto.
  - rewrite marked_app, marked_other, Nat.add_0_r; [exact M|].
    destruct Hs as [-> | [-> | ->]]; discriminate.
Qed.

Lemma deltaStream_compared config x y echo hdr st st' :
  compared config x y echo hdr st st' -> deltaStream st -> deltaStream st'.
Proof.
  intros (_ & _ & _ & [(_ & Em & [E | [E _]]) | (_ & Em & r & E)]) D.
  - eapply deltaStream_same; eassumption.
  - eapply deltaStream_written; [| exact E | exact Em | exact D]. auto.
  - destruct D as [F M]. unfold deltaStream. rewrite E, Em, M. split.
    + apply Forall_app. split; [exact F|]. constructor; [|constructor].
      exists "#"%char, r. auto.
    + rewrite marked_app. change ("#" :: r) with (delta r "#").
      rewrite marked_same, incr_wrap64. f_equal. lia.
Qed.

Lemma deltaStream_turn config st1 rowA rowB st' :
  turn config st1 rowA rowB st' -> deltaStream st1 -> deltaStream st'.
Proof.
  intros Ht D.
  inversion Ht as [ | a b k Ha Hb | a b hA hB Ha Hb Hne
                  | a hA b Ha Hy | a hA Ha Hy
                  | b hB a Hb Hx | b hB Hb Hx ]; subst.
  - exact D.
  - destruct (pairAligned_effect config a b (counted st1)) as (_ & _ & _ & Hc).
    eapply deltaStream_compared; [exact Hc | exact D].
  - assert (deltaStream (reconcileA config a hA (counted st1))) as D2.
    { destruct (cacheB st1 !! hA) as [y|] eqn:Hy.
      - destruct (reconcileA_found config a hA (counted st1) y Hy) as (_ & _ & _ & Hc).
        eapply deltaStream_compared; [exact Hc | exact D].
      - destruct (reconcileA_pending config a hA (counted st1) Hy)
          as (_ & _ & _ & Eo & _ & _ & Em & _).
        eapply deltaStream_same; [exact Eo | exact Em | exact D]. }
    set (s2 := reconcileA config a hA (counted st1)) in *.
    destruct (cacheA s2 !! hB) as [x|] eqn:Hx.
    + destruct (reconcileB_found config b hB s2 x Hx) as (_ & _ & _ & Hc).
      eapply deltaStream_compared; eassumption.
    + destruct (reconcileB_pending config b hB s2 Hx)
        as (_ & _ & _ & Eo & _ & _ & Em & _).
      eapply deltaStream_same; eassumption.
  - destruct (pairAligned_effect config a b
                (set_cacheB (delete hA (cacheB st1)) (counted st1)))
      as (_ & _ & _ & Hc).
    eapply deltaStream_compared; [exact Hc | exact D].
  - eapply deltaStream_written; [| | |exact D]; [right; left|..]; reflexivity.
  - destruct (pairAligned_effect config a b
                (set_cacheA (delete hB (cacheA st1)) (counted st1)))
      as (_ & _ & _ & Hc).
    eapply deltaStream_compared; [exact Hc | exact D].
  - eapply deltaStream_written; [| | |exact D]; [right; right|..]; reflexivity.
Qed.

Lemma deltaStream_iteration config st st' :
  deltaStream st -> iteration config st = Ok st' -> deltaStream st'.
Proof.
  intros D Hi. destruct (iteration_turn _ _ _ Hi) as (rowA & rowB & st1 & SD & Ht).
  destruct SD as (_ & _ & _ & _ & Em & _ & _ & _ & _ & Eo & _).
  eapply deltaStream_turn; [exact Ht|].
  eapply deltaStream_same; [exact Eo | exact Em | exact D].
Qed.

Lemma deltaStream_drain st : deltaStream st -> deltaStream (drainB (drainA st)).
Proof.
  intros D. unfold drainB, drainA.
  apply fold_left_invariant.
  { intros s e Hs. eapply deltaStream_written; [| | |exact Hs];
      [right; right|..]; reflexivity. }
  apply fold_left_invariant; [|exact D].
  intros s e Hs. eapply deltaStream_written; [| | |exact Hs];
    [right; left|..]; reflexivity.
Qed.

(** X19. The delta stream of a run, with or without a fault: every row
    written starts with one of the four markers [=], [#], [-] and [+], and
    the modified counter is the number of rows written behind [#] (as a
    64-bit unsigned counter). *)
Theorem delta_stream_markers (config : Config) (inA inB : list (string * bool))
    (o : Outcome) :
  main config inA inB = Some o ->
  Forall hasMarker (stdout (stateOf o)) /\
  modifiedCount (stateOf o) = wrap64 (Z.of_nat (marked "#" (stdout (stateOf o)))).
Proof.
  intros Hm. destruct (main_outcome _ _ _ _ Hm) as (s & Hr & K & Ho).
  assert (deltaStream s) as D.
  { apply (reachable_invariant deltaStream config (initial inA inB)); [| |exact Hr].
    - split; [constructor | reflexivity].
    - intros s0 s1. apply deltaStream_iteration. }
  destruct o as [status st|e st]; simpl in *.
  - destruct Ho as (_ & _ & Ho). apply deltaStream_drain in D.
    symmetry in Ho. destruct (finish_stdout _ _ _ Ho) as (Eo & _).
    destruct (finish_keepsCapture (drainB (drainA s))) as (_ & _ & _ & Em & _).
    rewrite Ho in Em. simpl in Em. destruct D as [F M].
    rewrite Eo, Em. auto.
  - destruct Ho as [-> _]. exact D.
Qed.

Lemma delta_stream_markers_witness :
  Forall hasMarker (stdout exampleExit) /\
  modifiedCount exampleExit = wrap64 (Z.of_nat (marked "#" (stdout exampleExit))).
Proof.
  apply (delta_stream_markers (plainConfig true false)
           (readerOf exampleA) (readerOf exampleB) (Exit 1 exampleExit)).
  vm_compute. reflexivity.
Defined.

(** ** Two copies of one input *)

Lemma pairAligned_refl config r st :
  stdout (pairAligned config r r st)
  = stdout st ++ (if (first st && negb (noHeader config)) || common config
                  then [delta r "="] else []) /\
  first (pairAligned config r r st) = false /\
  addedCount (pairAligned config r r st) = addedCount st /\
  removedCount (pairAligned config r r st) = removedCount st /\
  modifiedCount (pairAligned config r r st) = modifiedCount st /\
  stderr (pairAligned config r r st) = stderr st /\
  cacheA (pairAligned config r r st) = cacheA st /\
  cacheB (pairAligned config r r st) = cacheB st.
Proof.
  unfold pairAligned. rewrite areEquals_refl.
  destruct (first st) eqn:Hf, (noHeader config), (common config); simpl;
    rewrite ?Hf; simpl; rewrite ?app_nil_r; split_and!; simpl;
    rewrite ?Hf, ?app_nil_r; reflexivity.
Qed.

Lemma echoed_snoc config done r :
  echoed config (done ++ [r])
  = echoed config done
    ++ (if (match done with [] => true | _ => false end && negb (noHeader config))
           || common config
        then [delta r "="] else []).
Proof.
  destruct done as [|d ds]; simpl.
  - destruct (noHeader config), (common config); reflexivity.
  - destruct (common config); simpl; rewrite ?app_nil_r; [|reflexivity].
    rewrite List.map_app, <- !app_assoc. reflexivity.
Qed.

Lemma twinInv_step config D st :
  Forall (fun r => r <> [] /\ inRange config r) D ->
  twinInv config D st ->
  exists st', iteration config st = Ok st' /\ twinInv config D st'.
Proof.
  intros HD (done & rest & ED & FA & FB & Eo & Ef & Ea & Er & Em & Ee & CA & CB).
  assert (Hrest : Forall (fun r => r <> [] /\ inRange config r) rest).
  { rewrite ED in HD. apply Forall_app in HD. apply HD. }
  assert (Forall (fun row => row <> []) rest) as NR.
  { eapply List.Forall_impl; [|exact Hrest]. intros r [H _]. exact H. }
  destruct (advance_feeds st rest rest FA FB NR NR)
    as (st1 & Hadv & FA1 & FB1 & _ & _ & SD).
  destruct SD as (EcA & EcB & _ & Ea1 & Em1 & Er1 & _ & _ & Ef1 & Eo1 & Ee1).
  unfold iteration. rewrite Hadv.
  destruct rest as [|r rest]; simpl in *.
  - exists st1. split; [reflexivity|]. exists done, [].
    split_and!; auto; congruence.
  - inversion Hrest as [|x l [_ Hr] Hl]; subst x l.
    destruct (classify_inRange config r r st1 Hr Hr) as [st' Hc].
    exists st'. split; [exact Hc|].
    destruct (classify_input _ _ _ _ _ Hc) as (RA & RB & EA & EB).
    rewrite <- RA, <- EA in FA1. rewrite <- RB, <- EB in FB1.
    apply classify_turn in Hc.
    assert (st' = pairAligned config r r (counted st1)) as ->.
    { inversion Hc as [ | a' b' h Ha Hb | a' b' hA hB Ha Hb Hne | | | | ]; subst;
        [reflexivity|]. exfalso. apply Hne. congruence. }
    destruct (pairAligned_refl config r (counted st1))
      as (Xo & Xf & Xa & Xr & Xm & Xe & XA & XB).
    exists (done ++ [r]), rest. split; [rewrite <- app_assoc; exact ED|].
    split; [exact FA1|]. split; [exact FB1|].
    rewrite Xo, Xf, Xa, Xr, Xm, Xe, XA, XB. simpl.
    rewrite Eo1, Ef1, Eo, Ef, echoed_snoc.
    split_and!; try congruence. destruct done; reflexivity.
Qed.



(** ** The end of the loop *)

Lemma loop_more config fuel :
  forall fuel' st e,
    loop fuel config st = Some e -> (fuel <= fuel')%nat ->
    loop fuel' config st = Some e.
Proof.
  induction fuel as [|fuel IH]; intros fuel' st e; simpl.
  - destruct (negb (eofA st) || negb (eofB st)) eqn:Hc; [discriminate|].
    intros H _. destruct fuel'; simpl; rewrite Hc; exact H.
  - destruct (negb (eofA st) || negb (eofB st)) eqn:Hc.
    + intros H Hle. destruct fuel' as [|fuel']; [lia|]. simpl. rewrite Hc.
      destruct (iteration config st) as [st1|a]; [|exact H].
      apply IH; [exact H | lia].
    + intros H _. destruct fuel'; simpl; rewrite Hc; exact H.
Qed.

(** X21. The loop of [main] ends on all inputs: one turn for each token of
    the two streams and two more are always enough, so the run exits or stops
    in a fault, and more turns than that change nothing. *)
Theorem run_ends (config : Config) (inA inB : list (string * bool)) (fuel : nat) :
  (turns inA inB <= fuel)%nat ->
  exists o, main config inA inB = Some o /\ run fuel config inA inB = Some o.
Proof.
  intros Hle. destruct (main_total config inA inB) as [o Hm].
  exists o. split; [exact Hm|]. unfold main, run in *.
  destruct (loop (turns inA inB) config (initial inA inB)) as [e|] eqn:Hl;
    [|discriminate].
  rewrite (loop_more _ _ _ _ _ Hl Hle). exact Hm.
Qed.

Lemma run_ends_witness :
  exists o,
    main (plainConfig true false) (readerOf exampleA) (readerOf exampleB) = Some o /\
    run 100 (plainConfig true false) (readerOf exampleA) (readerOf exampleB) = Some o.
Proof.
  apply (run_ends (plainConfig true false) (readerOf exampleA) (readerOf exampleB) 100).
  unfold turns. simpl. lia.
Defined.

(** ** The reader *)

Lemma scanRecord_spec r :
  forall buffer row eof r',
    scanRecord r buffer = (row, eof, r') ->
    exists taken,
      r = taken ++ r' /\ row = buffer ++ map fst taken /\
      if eof then r' = [] /\ unterminated taken else oneRecord taken.
Proof.
  induction r as [|[field eor] r IH]; intros buffer row eof r'; simpl.
  - intros H. injection H as <- <- <-. exists []. simpl. rewrite app_nil_r.
    split_and!; auto. constructor.
  - destruct eor.
    + intros H. injection H as <- <- <-. exists [(field, true)].
      split_and!; auto. exists [], (field, true). split_and!; auto. constructor.
    + intros H. destruct (IH _ _ _ _ H) as (taken & -> & -> & Hk).
      exists ((field, false) :: taken). split; [reflexivity|].
      split; [simpl; rewrite <- app_assoc; reflexivity|].
      destruct eof.
      * destruct Hk as [-> Hu]. split; [reflexivity|]. constructor; [reflexivity | exact Hu].
      * destruct Hk as (init & last & -> & Hu & Hl).
        exists ((field, false) :: init), last. split_and!; auto.
        constructor; [reflexivity | exact Hu].
Qed.



(** ** The account of the rows *)

Lemma size_found (c : gmap Z (list string)) k x :
  c !! k = Some x -> size c = S (size (delete k c)).
Proof.
  intros H. rewrite <- (insert_delete_id c k x H) at 1.
  apply map_size_insert_None, lookup_delete_eq.
Qed.

Lemma compared_ledger config x y echo hdr s s' :
  compared config x y echo hdr s s' ->
  marked "-" (stdout s') = marked "-" (stdout s) /\
  marked "+" (stdout s') = marked "+" (stdout s) /\
  stderr s' = stderr s /\
  (marked "#" (stdout s') <= S (marked "#" (stdout s)))%nat.
Proof.
  intros (_ & _ & Ee & [(_ & _ & [E | [E _]]) | (_ & _ & r & E)]); rewrite E.
  - split_and!; auto.
  - rewrite !marked_app, !marked_other by discriminate. split_and!; auto; lia.
  - change ("#" :: r) with (delta r "#").
    rewrite !marked_app, marked_same, !marked_other by discriminate.
    split_and!; auto; lia.
Qed.

Lemma pairAligned_ledger config a b st m :
  (marked "#" (stdout st) <= m)%nat ->
  ledgerA (pairAligned config a b st) (S m) = S (ledgerA st m) /\
  ledgerB (pairAligned config a b st) (S m) = S (ledgerB st m) /\
  (marked "#" (stdout (pairAligned config a b st)) <= S m)%nat.
Proof.
  intros Hm. destruct (pairAligned_effect config a b st) as (EA & EB & _ & Hc).
  apply compared_ledger in Hc. destruct Hc as (M1 & M2 & Ee & M3).
  unfold ledgerA, ledgerB. rewrite EA, EB, M1, M2, Ee. split_and!; lia.
Qed.

Lemma reconcileA_pending_stderr config a hashA st :
  cacheB st !! hashA = None ->
  stderr (reconcileA config a hashA st)
  = stderr st ++ match cacheA st !! hashA with
                 | Some _ => [DuplicateFirst a]
                 | None => []
                 end.
Proof.
  intros H. unfold reconcileA, searchCache. rewrite H. simpl.
  destruct (cacheA st !! hashA); simpl; [reflexivity | rewrite app_nil_r; reflexivity].
Qed.

Lemma reconcileB_pending_stderr config b hashB st :
  cacheA st !! hashB = None ->
  stderr (reconcileB config b hashB st)
  = stderr st ++ match cacheB st !! hashB with
                 | Some _ => [DuplicateSecond b]
                 | None => []
                 end.
Proof.
  intros H. unfold reconcileB, searchCache. rewrite H. simpl.
  destruct (cacheB st !! hashB); simpl; [reflexivity | rewrite app_nil_r; reflexivity].
Qed.

Lemma duplicatesFirst_app e1 e2 :
  duplicatesFirst (e1 ++ e2) = (duplicatesFirst e1 + duplicatesFirst e2)%nat.
Proof. unfold duplicatesFirst. rewrite List.filter_app, length_app. reflexivity. Qed.

Lemma duplicatesSecond_app e1 e2 :
  duplicatesSecond (e1 ++ e2) = (duplicatesSecond e1 + duplicatesSecond e2)%nat.
Proof. unfold duplicatesSecond. rewrite List.filter_app, length_app. reflexivity. Qed.

Lemma reconcileA_ledger config a hA st m :
  (marked "#" (stdout st) <= m)%nat ->
  exists m',
    ledgerA (reconcileA config a hA st) m' = S (ledgerA st m) /\
    ledgerB (reconcileA config a hA st) m' = ledgerB st m /\
    (marked "#" (stdout (reconcileA config a hA st)) <= m')%nat.
Proof.
  intros Hm. destruct (cacheB st !! hA) as [y|] eqn:Hy.
  - destruct (reconcileA_found config a hA st y Hy) as (EA & EB & _ & Hc).
    apply compared_ledger in Hc. destruct Hc as (M1 & M2 & Ee & M3).
    exists (S m). unfold ledgerA, ledgerB.
    rewrite EA, EB, M1, M2, Ee, (size_found _ _ _ Hy). split_and!; lia.
  - destruct (reconcileA_pending config a hA st Hy) as (EA & EB & _ & Eo & _).
    pose proof (reconcileA_pending_stderr config a hA st Hy) as Ee.
    exists m. unfold ledgerA, ledgerB.
    rewrite EA, EB, Eo, Ee, duplicatesFirst_app, duplicatesSecond_app, map_size_insert.
    destruct (cacheA st !! hA); unfold id, duplicatesFirst, duplicatesSecond; simpl;
      split_and!; lia.
Qed.

Lemma reconcileB_ledger config b hB st m :
  (marked "#" (stdout st) <= m)%nat ->
  exists m',
    ledgerA (reconcileB config b hB st) m' = ledgerA st m /\
    ledgerB (reconcileB config b hB st) m' = S (ledgerB st m) /\
    (marked "#" (stdout (reconcileB config b hB st)) <= m')%nat.
Proof.
  intros Hm. destruct (cacheA st !! hB) as [x|] eqn:Hx.
  - destruct (reconcileB_found config b hB st x Hx) as (EB & EA & _ & Hc).
    apply compared_ledger in Hc. destruct Hc as (M1 & M2 & Ee & M3).
    exists (S m). unfold ledgerA, ledgerB.
    rewrite EA, EB, M1, M2, Ee, (size_found _ _ _ Hx). split_and!; lia.
  - destruct (reconcileB_pending config b hB st Hx) as (EB & EA & _ & Eo & _).
    pose proof (reconcileB_pending_stderr config b hB st Hx) as Ee.
    exists m. unfold ledgerA, ledgerB.
    rewrite EA, EB, Eo, Ee, duplicatesFirst_app, duplicatesSecond_app, map_size_insert.
    destruct (cacheB st !! hB); unfold id, duplicatesFirst, duplicatesSecond; simpl;
      split_and!; lia.
Qed.

Lemma turn_ledger config st1 rowA rowB st' m :
  turn config st1 rowA rowB st' ->
  (marked "#" (stdout st1) <= m)%nat ->
  exists m',
    ledgerA st' m' = (ledgerA st1 m + match rowA with Some _ => 1 | None => 0 end)%nat /\
    ledgerB st' m' = (ledgerB st1 m + match rowB with Some _ => 1 | None => 0 end)%nat /\
    (marked "#" (stdout st') <= m')%nat.
Proof.
  intros Ht Hm.
  inversion Ht as [ | a b k Ha Hb | a b hA hB Ha Hb Hne
                  | a hA b Ha Hy | a hA Ha Hy
                  | b hB a Hb Hx | b hB Hb Hx ]; subst; simpl.
  - exists m. split_and!; lia.
  - destruct (pairAligned_ledger config a b (counted st1) m Hm) as (LA & LB & M).
    exists (S m). rewrite LA, LB. unfold ledgerA, ledgerB. simpl. split_and!; lia.
  - destruct (reconcileA_ledger config a hA (counted st1) m Hm) as (m2 & LA & LB & M).
    destruct (reconcileB_ledger config b hB _ m2 M) as (m3 & LA3 & LB3 & M3).
    exists m3. rewrite LA3, LB3, LA, LB. unfold ledgerA, ledgerB. simpl.
    split_and!; lia.
  - destruct (pairAligned_ledger config a b
                (set_cacheB (delete hA (cacheB st1)) (counted st1)) m Hm)
      as (LA & LB & M).
    exists (S m). rewrite LA, LB. unfold ledgerA, ledgerB. simpl.
    rewrite (size_found _ _ _ Hy). split_and!; lia.
  - exists m. unfold ledgerA, ledgerB. simpl.
    rewrite !marked_app, marked_same, !marked_other by discriminate.
    split_and!; lia.
  - destruct (pairAligned_ledger config a b
                (set_cacheA (delete hB (cacheA st1)) (counted st1)) m Hm)
      as (LA & LB & M).
    exists (S m). rewrite LA, LB. unfold ledgerA, ledgerB. simpl.
    rewrite (size_found _ _ _ Hx). split_and!; lia.
  - exists m. unfold ledgerA, ledgerB. simpl.
    rewrite !marked_app, marked_same, !marked_other by discriminate.
    split_and!; lia.
Qed.

Lemma accountInv_iteration config A B st st' :
  accountInv A B st -> iteration config st = Ok st' -> accountInv A B st'.
Proof.
  intros (ra & rb & m & FA & FB & NA & NB & LA & LB & M) Hi.
  destruct (iteration_feeds config st st' ra rb FA FB NA NB Hi)
    as (st1 & SD & Ht & FA' & FB').
  destruct SD as (EcA & EcB & _ & _ & _ & _ & _ & _ & _ & Eo & Ee).
  assert (ledgerA st1 m = ledgerA st m /\ ledgerB st1 m = ledgerB st m) as [L1 L2].
  { unfold ledgerA, ledgerB. rewrite EcA, EcB, Eo, Ee. auto. }
  rewrite <- Eo in M.
  destruct (turn_ledger _ _ _ _ _ m Ht M) as (m' & LA' & LB' & M').
  exists (tail ra), (tail rb), m'. split; [exact FA'|]. split; [exact FB'|].
  split; [apply Forall_tail, NA|]. split; [apply Forall_tail, NB|].
  rewrite LA', LB', L1, L2, LA, LB.
  destruct ra, rb; simpl; split_and!; lia.
Qed.

Lemma marked_drained_same sign (l : list (Z * list string)) :
  marked sign (List.map (fun e : Z * list string => delta (snd e) sign) l) = length l.
Proof.
  induction l as [|e l IH]; simpl; [reflexivity|].
  change (delta (snd e) sign :: List.map (fun e : Z * list string => delta (snd e) sign) l)
    with ([delta (snd e) sign]
          ++ List.map (fun e : Z * list string => delta (snd e) sign) l).
  rewrite marked_app, marked_same, IH. reflexivity.
Qed.

Lemma marked_drained_other sign sign' (l : list (Z * list string)) :
  sign' <> sign ->
  marked sign (List.map (fun e : Z * list string => delta (snd e) sign') l) = 0%nat.
Proof.
  intros Hne. induction l as [|e l IH]; simpl; [reflexivity|].
  change (delta (snd e) sign' :: List.map (fun e : Z * list string => delta (snd e) sign') l)
    with ([delta (snd e) sign']
          ++ List.map (fun e : Z * list string => delta (snd e) sign') l).
  rewrite marked_app, marked_other, IH by exact Hne. reflexivity.
Qed.

Lemma drain_stderr st : stderr (drainB (drainA st)) = stderr st.
Proof.
  unfold drainB, drainA.
  apply (fold_left_invariant (fun s => stderr s = stderr st)); [intros s e H; exact H|].
  apply (fold_left_invariant (fun s => stderr s = stderr st)); [intros s e H; exact H|].
  reflexivity.
Qed.

Lemma finish_duplicates st status st' :
  finish st = Exit status st' ->
  duplicatesFirst (stderr st') = duplicatesFirst (stderr st) /\
  duplicatesSecond (stderr st') = duplicatesSecond (stderr st).
Proof.
  unfold finish. repeat (break_match; simpl); intros H; injection H as <- <-; simpl;
    rewrite ?duplicatesFirst_app, ?duplicatesSecond_app;
    unfold duplicatesFirst, duplicatesSecond; simpl; split; lia.
Qed.

(** X23. The account of the rows.  In a run that ends without a fault, on
    inputs whose rows have at least one field, every row of input A was
    compared with one row of input B, or written behind [-], or overwritten
    in the cache under a warning of a duplicate key; the same holds for the
    rows of input B with [+]; the compared rows of the two inputs are equal in
    number, and the rows written behind [#] are among the comparisons. *)
Theorem rows_accounted (config : Config) (A B : list (list string))
    (status : Z) (st : State) :
  Forall (fun row => row <> []) A -> Forall (fun row => row <> []) B ->
  main config (readerOf A) (readerOf B) = Some (Exit status st) ->
  exists matched : nat,
    length A = (matched + marked "-" (stdout st) + duplicatesFirst (stderr st))%nat /\
    length B = (matched + marked "+" (stdout st) + duplicatesSecond (stderr st))%nat /\
    (marked "#" (stdout st) <= matched)%nat.
Proof.
  intros NA NB Hm.
  destruct (main_outcome _ _ _ _ Hm) as (s & Hr & _ & E1 & E2 & Ho).
  assert (accountInv A B s) as T.
  { apply (reachable_invariant (accountInv A B) config
             (initial (readerOf A) (readerOf B))); [| |exact Hr].
    - exists A, B, 0%nat. unfold ledgerA, ledgerB. simpl.
      rewrite map_size_empty. split_and!; auto; unfold marked; simpl; lia.
    - intros s0 s1. apply accountInv_iteration. }
  destruct T as (ra & rb & m & FA & FB & _ & _ & LA & LB & M).
  unfold feeds in FA, FB. rewrite E1 in FA. rewrite E2 in FB. subst ra rb.
  symmetry in Ho. destruct (finish_stdout _ _ _ Ho) as (Eo & _).
  destruct (finish_duplicates _ _ _ Ho) as (D1 & D2).
  rewrite drain_stderr in D1, D2.
  destruct (drainB_effect (drainA s)) as (Ob & _ & CBb).
  destruct (drainA_effect s) as (Oa & _ & CBa).
  rewrite CBa in Ob. rewrite Oa in Ob.
  exists m. rewrite Eo, Ob, D1, D2, !marked_app.
  rewrite !marked_drained_same, !marked_drained_other by discriminate.
  rewrite !length_map_to_list.
  unfold ledgerA, ledgerB in LA, LB. simpl in LA, LB. split_and!; lia.
Qed.

Lemma rows_accounted_witness :
  exists st,
    main (plainConfig false false) (readerOf accountA) (readerOf accountB)
    = Some (Exit 1 st) /\
    duplicatesFirst (stderr st) = 1%nat /\
    exists matched : nat,
      length accountA
      = (matched + marked "-" (stdout st) + duplicatesFirst (stderr st))%nat /\
      length accountB
      = (matched + marked "+" (stdout st) + duplicatesSecond (stderr st))%nat /\
      (marked "#" (stdout st) <= matched)%nat.
Proof.
  destruct (main (plainConfig false false) (readerOf accountA) (readerOf accountB))
    as [[status st|e st]|] eqn:Hm;
    try (vm_compute in Hm; discriminate).
  assert (Ho : Some (Exit status st) = Some (Exit status st)) by reflexivity.
  rewrite <- Hm in Ho at 1. vm_compute in Ho. apply Some_inj in Ho.
  injection Ho as Es Est.
  exists st. split; [rewrite <- Es; reflexivity|].
  split; [rewrite <- Est; reflexivity|].
  apply (rows_accounted (plainConfig false false) accountA accountB status st).
  - repeat constructor; discriminate.
  - repeat constructor; discriminate.
  - exact Hm.
Defined.

(** ** The order of the checks on the command line *)

